(** * OpenCivil: the global assembly engine of the frame solver

    A shallow embedding of
      - [src/core/solver/linear_static/assembler.py]  (class GlobalAssembler)
      - [src/core/solver/modal/mass_assembler.py]     (class GlobalMassAssembler)

    Conventions of the embedding.

    - Numbers.  The Python code computes with IEEE doubles through numpy.
      The embedding computes in an arbitrary real closed field [R] (exact
      arithmetic): every statement below is about the algebra the code
      performs, not about rounding.
    - numpy.  [np.linalg.solve] and [np.linalg.inv] are modelled by their
      documented contract: the result is the exact solution / inverse, and
      [LinAlgError] is raised exactly on a singular matrix.  [np.sqrt],
      [np.cross], [np.abs], [np.max] are the corresponding field operations.
    - Exceptions.  An [IndexError], [KeyError] or [ZeroDivisionError] of the
      Python code is the result [None] of the embedded function.
    - Division.  The only quotient of the sources whose divisor can be zero
      is [dist / el['L_total']] (mass_assembler.py, line 144): there a zero
      divisor is the [ZeroDivisionError].  Every other divisor is a nonzero
      constant or is guarded by a comparison, so the total quotient of the
      field is never used at zero.
    - Data.  A load is a record of its pattern and a variant of its type with
      the keys that type carries; a release pair is a pair of 6 flags; ids and
      indices are natural numbers.
    - The Element Model ([element_library]) is not part of the sources; it is
      an argument of every definition (record [element_library]).
    - The debug sink [MatrixSpy] only records matrices; it is not modelled. *)

From HB Require Import structures.
From Stdlib Require Import String Ascii Lia.
From Stdlib Require Permutation.
From mathcomp Require Import boot order algebra.
From mathcomp Require Import ring_tactic field_tactic arithmetic_tactic.
From mathcomp Require Import algC.

Set Implicit Arguments.
Unset Strict Implicit.
Unset Printing Implicit Defensive.

Import Order.Theory GRing.Theory Num.Theory.
Local Open Scope ring_scope.

(** ** Strings: the fragment of Python's [str] the loaders use *)

(** [c.upper()] on an ASCII character. *)
Definition upper_ascii (c : ascii) : ascii :=
  let n := nat_of_ascii c in
  if (97 <= n)%N && (n <= 122)%N then ascii_of_nat (n - 32) else c.

(** [s.upper()]. *)
Fixpoint upper (s : string) : string :=
  match s with
  | EmptyString => EmptyString
  | String c s' => String (upper_ascii c) (upper s')
  end.

(** [pat in s] on strings. *)
Fixpoint str_in (pat s : string) : bool :=
  String.prefix pat s ||
  match s with
  | EmptyString => false
  | String _ s' => str_in pat s'
  end.

(** Monadic left fold: a Python [for] loop whose body may raise. *)
Fixpoint foldM (S A : Type) (f : S -> A -> option S) (s : S) (xs : seq A)
  : option S :=
  match xs with
  | [::] => Some s
  | x :: xs' => if f s x is Some s' then foldM f s' xs' else None
  end.

(** A step [f] of an accumulating loop: running it on an accumulator [s] is
    running it on the zero accumulator and adding the outcome to [s]. *)
Definition translating (V : zmodType) (f : V -> option V) : Prop :=
  forall s, f s = omap (+%R s) (f 0).

(** [range(start, stop, step)] for a positive step. *)
Definition range_step (start stop step : nat) : seq nat :=
  [seq start + step * k | k <- iota 0 ((stop - start + step.-1) %/ step)].

Section Model.

Variable R : rcfType.

Local Notation vec3 := 'cV[R]_3.
Local Notation vec6 := 'cV[R]_6.
Local Notation vec12 := 'cV[R]_12.
Local Notation mat3 := 'M[R]_3.
Local Notation mat6 := 'M[R]_6.
Local Notation mat12 := 'M[R]_12.

(** ** numpy helpers *)

(** [v[i]] for a 1-D array and an integer index within the bounds. *)
Definition vget n (v : 'cV[R]_n.+1) (i : nat) : R := v (inord i) 0.

(** [np.array([x, y, z])] and the 12 entries of a local force vector. *)
Definition vec_of_seq n (s : seq R) : 'cV[R]_n := \col_(i < n) nth 0 s i.

(** [v[i] += x]. *)
Definition vec_add_at n (v : 'cV[R]_n) (i : nat) (x : R) : 'cV[R]_n :=
  \col_(r < n) (v r 0 + (if (r : nat) == i then x else 0)).

(** [np.cross(a, b)]. *)
Definition cross (a b : vec3) : vec3 :=
  vec_of_seq 3 [:: vget a 1 * vget b 2 - vget a 2 * vget b 1;
                   vget a 2 * vget b 0 - vget a 0 * vget b 2;
                   vget a 0 * vget b 1 - vget a 1 * vget b 0].

(** [np.linalg.solve(A, b)]: [None] stands for [LinAlgError]. *)
Definition linalg_solve n (A : 'M[R]_n) (b : 'cV[R]_n) : option 'cV[R]_n :=
  if A \in unitmx then Some (invmx A *m b) else None.

(** [np.linalg.inv(A)]: [None] stands for [LinAlgError]. *)
Definition linalg_inv n (A : 'M[R]_n) : option 'M[R]_n :=
  if A \in unitmx then Some (invmx A) else None.

(** [A[np.ix_(rows, cols)]] and [v[rows]]. *)
Definition ix_ (A : mat12) (rows cols : seq 'I_12)
  : 'M[R]_(size rows, size cols) :=
  \matrix_(i, j) A (tnth (in_tuple rows) i) (tnth (in_tuple cols) j).

Definition take_idx (v : vec12) (rows : seq 'I_12) : 'cV[R]_(size rows) :=
  \col_i v (tnth (in_tuple rows) i) 0.

(** [np.max(np.abs(k))]. *)
Definition max_abs (k : mat12) : R :=
  \big[Num.max/0]_(i < 12) \big[Num.max/0]_(j < 12) `|k i j|.

(** ** Data Model (the fields the assemblers read) *)

Record material := Material { mat_E : R; mat_G : R; mat_rho : R }.

Record cross_section := CrossSection {
  sec_A : R; sec_J : R; sec_I22 : R; sec_I33 : R; sec_As2 : R; sec_As3 : R }.

Record element := Element {
  el_id : nat;
  node_indices : nat * nat;
  el_material : material;
  el_section : cross_section;
  L_clear : R;
  L_total : R;
  end_off_i : option R;            (* el.get('end_off_i', 0.0) *)
  end_off_j : option R;            (* el.get('end_off_j', 0.0) *)
  offsets : vec3 * vec3;
  releases : 6.-tuple bool * 6.-tuple bool;
  beta : R }.

Inductive load_body :=
  | Nodal (node_id : nat) (fx fy fz : R)
  | MemberDist (element_id : nat) (wx wy wz : R) (coord : string)
               (projected : bool)
  | MemberPoint (element_id : nat) (force : R) (dir : string)
                (coord : string) (dist : R) (is_rel : bool)
  | OtherLoad.

Record load := Load { pattern : string; body : load_body }.

Record mass_source := MassSource {
  ms_name : string;
  include_self_mass : bool;
  include_patterns : bool;
  load_patterns : seq (string * R) }.

(** [raw["mass_sources"]] is a list of sources or a name-keyed dict. *)
Inductive mass_source_registry :=
  | SourceList of seq mass_source
  | SourceDict of seq (string * mass_source).

Record data_manager := DataManager {
  nodes : seq vec3;                          (* nodes[i]['coords'] *)
  elements : seq element;
  raw_loads : seq load;
  load_case_patterns : seq (string * R);
  mass_sources : mass_source_registry;
  node_id_to_idx : seq (nat * nat);
  (* total_dofs = 6 * node count (Data Model invariant) *)
  build_load_vector : 'cV[R]_(6 * size nodes) }.

Definition total_dofs (dm : data_manager) : nat := 6 * size (nodes dm).

(** The Element Model collaborator. *)
Record element_library := ElementLibrary {
  get_local_stiffness_matrix :
    R -> R -> R -> R -> R -> R -> R -> R -> R -> R -> mat12;
      (* E G A J I22 I33 As2 As3 L L_tor *)
  get_rotation_matrix : vec3 -> vec3 -> R -> mat3;
  get_eccentricity_matrix : vec3 -> vec3 -> mat12 }.

Variable lib : element_library.

(** [get_local_stiffness_matrix(E=mat['E'], ..., L=L, L_tor=L_tor)]. *)
Definition local_stiffness (mat : material) (sec : cross_section)
    (L L_tor : R) : mat12 :=
  get_local_stiffness_matrix lib (mat_E mat) (mat_G mat) (sec_A sec)
    (sec_J sec) (sec_I22 sec) (sec_I33 sec) (sec_As2 sec) (sec_As3 sec)
    L L_tor.

(** ** Static condensation (assembler.py, 91-126 and 173-208) *)

(** [rel_vec = releases[0] + releases[1]]. *)
Definition rel_vec (rels : 6.-tuple bool * 6.-tuple bool) : seq bool :=
  tval rels.1 ++ tval rels.2.

(** [[i for i, r in enumerate(rel_vec) if not r]] and [... if r]. *)
Definition idx_kept rels : seq 'I_12 :=
  filter (fun i : 'I_12 => ~~ nth false (rel_vec rels) i) (enum 'I_12).
Definition idx_cond rels : seq 'I_12 :=
  filter (fun i : 'I_12 => nth false (rel_vec rels) i) (enum 'I_12).

Definition rot_dofs : seq nat := [:: 3; 4; 5; 9; 10; 11]%N.

(** The double loop writing [K_new_small] back at the kept indices. *)
Definition scatter_kept (idx_k : seq 'I_12)
    (Ks : 'M[R]_(size idx_k)) : mat12 :=
  \matrix_(r, c)
    match insub (index r idx_k), insub (index c idx_k) with
    | Some r_i, Some c_i => Ks r_i c_i
    | _, _ => 0
    end.

Definition _condense_matrix (k : mat12) rels : mat12 :=
  let idx_k := idx_kept rels in
  let idx_c := idx_cond rels in
  if nilp idx_c then k else
  let K_rr := ix_ k idx_k idx_k in
  let K_rc := ix_ k idx_k idx_c in
  let K_cr := ix_ k idx_c idx_k in
  let K_cc := ix_ k idx_c idx_c in
  match linalg_inv K_cc with
  | None => k
  | Some K_cc_inv =>
    let K_new_small := K_rr - K_rc *m K_cc_inv *m K_cr in
    let k_final := scatter_kept K_new_small in
    let k_ref := max_abs k in
    let penalty := k_ref * (1 / 10 ^+ 8) in
    \matrix_(r, c)
      (k_final r c +
       (if [&& r == c, nth false (rel_vec rels) r & (r : nat) \in rot_dofs]
        then penalty else 0))
  end.

(** [fef_new[idx_k] = F_k_new], all other entries zero. *)
Definition scatter_vec (idx_k : seq 'I_12)
    (Fk : 'cV[R]_(size idx_k)) : vec12 :=
  \col_r (if insub (index r idx_k) is Some r_i then Fk r_i 0 else 0).

Definition _condense_fef (k_local : mat12) (fef_local : vec12) rels : vec12 :=
  let idx_c := idx_cond rels in
  let idx_k := idx_kept rels in
  if nilp idx_c then fef_local else
  let K_cc := ix_ k_local idx_c idx_c in
  let K_kc := ix_ k_local idx_k idx_c in
  let F_k := take_idx fef_local idx_k in
  let F_c := take_idx fef_local idx_c in
  match linalg_inv K_cc with
  | None => fef_local
  | Some K_cc_inv =>
    let correction := K_kc *m (K_cc_inv *m F_c) in
    let F_k_new := F_k - correction in
    scatter_vec F_k_new
  end.

(** ** Exact fixed-end forces of a point load (assembler.py, 128-170) *)

(** [F_mid = np.zeros(6); F_mid[0:3] = P_vec_local]. *)
Definition F_mid_of (P_vec_local : vec3) : vec6 :=
  (col_mx P_vec_local (0 : vec3) : 'cV[R]_(3 + 3)).

(** [k_left[6:12, 6:12] + k_right[0:6, 0:6]]. *)
Definition K_mid_of (k_left k_right : mat12) : mat6 :=
  drsubmx (k_left : 'M[R]_(6 + 6)) + ulsubmx (k_right : 'M[R]_(6 + 6)).

Definition _get_exact_fef_via_stiffness (L a : R) (P_vec_local : vec3)
    (mat : material) (sec : cross_section) : vec12 :=
  if L == 0 then 0 else
  let b := L - a in
  let k_left := local_stiffness mat sec a a in
  let k_right := local_stiffness mat sec b b in
  let K_mid := K_mid_of k_left k_right in
  let F_mid := F_mid_of P_vec_local in
  match linalg_solve K_mid F_mid with
  | None => 0
  | Some U_mid =>
    let R_start := ursubmx (k_left : 'M[R]_(6 + 6)) *m U_mid in
    let R_end := dlsubmx (k_right : 'M[R]_(6 + 6)) *m U_mid in
    (col_mx R_start R_end : 'cV[R]_(6 + 6))
  end.

(** ** Load helpers (assembler.py, 365-430) *)

Definition _parse_load_direction (dir_str : string) : option (nat * R) :=
  let d := upper dir_str in
  if str_in "GRAVITY" d then Some (2%N, -1)
  else if str_in "X" d || str_in "1" d then Some (0%N, 1)
  else if str_in "Y" d || str_in "2" d then Some (1%N, 1)
  else if str_in "Z" d || str_in "3" d then Some (2%N, 1)
  else None.

(** What [_apply_projection_factor] prints besides returning a vector. *)
Inductive console_line :=
  | WarnProjectionNotGlobal
  | WarnVerticalMember
  | WarnZeroLengthMember
  | InfoProjectedLoad.

(** Lines 407-409: the length of the projection on the XY plane. *)
Definition horizontal_length (p1 p2 : vec3) : R :=
  let dx := vget p2 0 - vget p1 0 in
  let dy := vget p2 1 - vget p1 1 in
  Num.sqrt (dx ^+ 2 + dy ^+ 2).

Definition _apply_projection_factor (w_local p1 p2 : vec3) (L_tot : R)
    (coord_system : string) : vec3 * console_line :=
  if ~~ String.eqb coord_system "Global" then
    (w_local, WarnProjectionNotGlobal)
  else
    let L_horizontal := horizontal_length p1 p2 in
    if L_horizontal < 1 / 10 ^+ 9 then
      (vec_of_seq 3 [:: 0; 0; 0], WarnVerticalMember)
    else if L_tot < 1 / 10 ^+ 9 then
      (w_local, WarnZeroLengthMember)
    else
      let proj_factor := L_horizontal / L_tot in
      (proj_factor *: w_local, InfoProjectedLoad).

(** The closed-form fixed-end forces of a uniform load (lines 271-277). *)
Definition dist_fef (w_local : vec3) (L : R) : vec12 :=
  let wx := vget w_local 0 in
  let wy := vget w_local 1 in
  let wz := vget w_local 2 in
  vec_of_seq 12
    [:: - wx * L / 2; - wy * L / 2; - wz * L / 2;
        0; wz * L ^+ 2 / 12; - wy * L ^+ 2 / 12;
        - wx * L / 2; - wy * L / 2; - wz * L / 2;
        0; - wz * L ^+ 2 / 12; wy * L ^+ 2 / 12].

(** ** The assembler object *)

Variable dm : data_manager.

Local Notation ndof := (total_dofs dm).

Record GlobalAssembler := Assembler {
  self_K : 'M[R]_ndof;
  self_P : 'cV[R]_ndof }.

(** [GlobalAssembler.__init__]. *)
Definition GlobalAssembler_init : GlobalAssembler := Assembler 0 0.

(** [self.dm.nodes[i]['coords']]; [None] is the [IndexError]. *)
Definition node_coords (i : nat) : option vec3 :=
  if (i < size (nodes dm))%N then Some (nth 0 (nodes dm) i) else None.

(** [next((e for e in self.dm.elements if e['id'] == eid), None)]. *)
Definition find_element (eid : nat) : option element :=
  ohead [seq e <- elements dm | el_id e == eid].

(** [d[p]] for the dict built from a list of (pattern, scale) pairs. *)
Definition active_scale (pats : seq (string * R)) (p : string) : option R :=
  foldl (fun acc ps => if String.eqb ps.1 p then Some ps.2 else acc) None pats.

Definition in_block (w s i : nat) : bool := (s <= i)%N && (i < s + w)%N.

(** [K[r0:r0+6, c0:c0+6] += B]. *)
Definition slice_add n (K : 'M[R]_n) (r0 c0 : nat) (B : mat6) : 'M[R]_n :=
  \matrix_(r, c)
    (K r c + (if in_block 6 r0 r && in_block 6 c0 c
              then B (inord (r - r0)) (inord (c - c0)) else 0)).

(** [P[r0:r0+6] -= v]. *)
Definition slice_sub n (P : 'cV[R]_n) (r0 : nat) (v : vec6) : 'cV[R]_n :=
  \col_r (P r 0 - (if in_block 6 r0 r then v (inord (r - r0)) 0 else 0)).

(** [v[s:s+3] -= w] on a 12-vector. *)
Definition sub_at3 (v : vec12) (s : nat) (w : vec3) : vec12 :=
  \col_r (v r 0 - (if in_block 3 s r then w (inord (r - s)) 0 else 0)).

(** [T[s:s+3, s:s+3] = B]. *)
Definition set_block3 (T : mat12) (s : nat) (B : mat3) : mat12 :=
  \matrix_(r, c)
    (if in_block 3 s r && in_block 3 s c
     then B (inord (r - s)) (inord (c - s)) else T r c).

(** [T_rot = zeros((12,12)); for i in range(4): T_rot[3i:3i+3, 3i:3i+3] = R]. *)
Definition block_rotation (R_3x3 : mat3) : mat12 :=
  foldl (fun T i => set_block3 T (i * 3) R_3x3) 0 (iota 0 4).

(** [any(el['releases'][0]) or any(el['releases'][1])]. *)
Definition has_release (el : element) : bool :=
  has id (releases el).1 || has id (releases el).2.

(** ** [_build_stiffness] (assembler.py, 33-89) *)

(** Lines 41-48: the local stiffness, condensed when a release is set. *)
Definition element_k_local (el : element) : mat12 :=
  let k_local := local_stiffness (el_material el) (el_section el)
                   (L_clear el) (L_total el) in
  if has_release el then _condense_matrix k_local (releases el) else k_local.

(** Lines 54-77: [T_total] of the stiffness path. *)
Definition stiffness_T_total (el : element) (p1 p2 : vec3) : mat12 :=
  let global_off_i := (offsets el).1 in
  let global_off_j := (offsets el).2 in
  let p1_adj := p1 + global_off_i in
  let p2_adj := p2 + global_off_j in
  let R_3x3 := get_rotation_matrix lib p1_adj p2_adj (beta el) in
  let T_rot := block_rotation R_3x3 in
  let local_off_i := R_3x3 *m global_off_i in
  let local_off_j := R_3x3 *m global_off_j in
  let local_off_i := vec_add_at local_off_i 0 (odflt 0 (end_off_i el)) in
  let local_off_j := vec_add_at local_off_j 0 (- odflt 0 (end_off_j el)) in
  let T_ecc := get_eccentricity_matrix lib local_off_i local_off_j in
  T_ecc *m T_rot.

(** The body of the loop over the elements. *)
Definition stiffness_step (K : 'M[R]_ndof) (el : element)
  : option 'M[R]_ndof :=
  let k_local := element_k_local el in
  let: (idx_i, idx_j) := node_indices el in
  if node_coords idx_i is Some p1 then
    if node_coords idx_j is Some p2 then
      let T_total := stiffness_T_total el p1 p2 in
      let k_global : 'M[R]_(6 + 6) := T_total^T *m k_local *m T_total in
      let start_i := (idx_i * 6)%N in
      let start_j := (idx_j * 6)%N in
      let K := slice_add K start_i start_i (ulsubmx k_global) in
      let K := slice_add K start_i start_j (ursubmx k_global) in
      let K := slice_add K start_j start_i (dlsubmx k_global) in
      let K := slice_add K start_j start_j (drsubmx k_global) in
      Some K
    else None
  else None.

Definition _build_stiffness (K : 'M[R]_ndof) : option 'M[R]_ndof :=
  foldM stiffness_step K (elements dm).

(** ** [_add_member_loads] (assembler.py, 210-363) *)

(** Line 247: the rotation of the load path. *)
Definition load_R_3x3 (el : element) (p1 p2 : vec3) : mat3 :=
  get_rotation_matrix lib p1 p2 (beta el).

(** Lines 311-326: [T_total] of the load path. *)
Definition load_T_total (el : element) (p1 p2 : vec3) : mat12 :=
  let ri := odflt 0 (end_off_i el) in
  let rj := odflt 0 (end_off_j el) in
  let R_3x3 := load_R_3x3 el p1 p2 in
  let T_rot := block_rotation R_3x3 in
  let glob_off_i := (offsets el).1 in
  let glob_off_j := (offsets el).2 in
  let loc_off_insertion_i := R_3x3 *m glob_off_i in
  let loc_off_insertion_j := R_3x3 *m glob_off_j in
  let loc_off_total_i := vec_add_at loc_off_insertion_i 0 ri in
  let loc_off_total_j := vec_add_at loc_off_insertion_j 0 (- rj) in
  let T_ecc := get_eccentricity_matrix lib loc_off_total_i loc_off_total_j in
  T_ecc *m T_rot.

(** Lines 251-305: the local fixed-end forces of one member load, with the
    local intensity kept for the rigid-end correction.  [None] is the
    [continue] of an unparseable direction (and of a non-member load). *)
Definition member_fef_local (b : load_body) (scale : R) (el : element)
    (p1 p2 : vec3) : option (vec12 * vec3) :=
  let R_3x3 := load_R_3x3 el p1 p2 in
  match b with
  | MemberDist _ wx wy wz coord projected =>
    let w_defined := scale *: vec_of_seq 3 [:: wx; wy; wz] in
    let w_local :=
      if String.eqb coord "Global" then R_3x3 *m w_defined else w_defined in
    let w_local :=
      if projected
      then (_apply_projection_factor w_local p1 p2 (L_total el) coord).1
      else w_local in
    Some (dist_fef w_local (L_clear el), w_local)
  | MemberPoint _ force dir coord dist is_rel =>
    let P_val := force * scale in
    match _parse_load_direction dir with
    | None => None
    | Some (idx_dir, sign) =>
      let vec_defined : vec3 :=
        \col_i (if (i : nat) == idx_dir then 1 * sign * P_val else 0) in
      let coord_sys :=
        if str_in "GRAVITY" (upper dir) then "Global"%string else coord in
      let P_local :=
        if String.eqb coord_sys "Global" then R_3x3 *m vec_defined
        else vec_defined in
      let dist_raw := if is_rel then dist * L_total el else dist in
      let ri := odflt 0 (end_off_i el) in
      let rj := odflt 0 (end_off_j el) in
      let fef_local :=
        if (ri <= dist_raw) && (dist_raw <= L_total el - rj) then
          let a_dist := dist_raw - ri in
          _get_exact_fef_via_stiffness (L_clear el) a_dist P_local
            (el_material el) (el_section el)
        else 0 in
      Some (fef_local, 0)
    end
  | _ => None
  end.

Definition is_member_dist (b : load_body) : bool :=
  if b is MemberDist _ _ _ _ _ _ then true else false.

(** [load['element_id']] of a member load. *)
Definition load_element_id (b : load_body) : option nat :=
  match b with
  | MemberDist eid _ _ _ _ _ => Some eid
  | MemberPoint eid _ _ _ _ _ => Some eid
  | _ => None
  end.

(** Lines 330-357: the rigid-end correction of a distributed load. *)
Definition rigid_end_correction (b : load_body) (el : element)
    (R_3x3 : mat3) (w_off : vec3) (fef_global : vec12) : vec12 :=
  let ri := odflt 0 (end_off_i el) in
  let rj := odflt 0 (end_off_j el) in
  let loc_off_insertion_i := R_3x3 *m (offsets el).1 in
  let loc_off_insertion_j := R_3x3 *m (offsets el).2 in
  if is_member_dist b && ((0 < ri) || (0 < rj)) then
    let fef_global :=
      if 0 < ri then
        let F_rigid_i := ri *: w_off in
        let centroid_i :=
          vec_of_seq 3 [:: ri / 2; 0; 0] + loc_off_insertion_i in
        let M_rigid_i := cross centroid_i F_rigid_i in
        sub_at3 (sub_at3 fef_global 0 (R_3x3^T *m F_rigid_i))
                3 (R_3x3^T *m M_rigid_i)
      else fef_global in
    if 0 < rj then
      let F_rigid_j := rj *: w_off in
      let centroid_j :=
        vec_of_seq 3 [:: - rj / 2; 0; 0] + loc_off_insertion_j in
      let M_rigid_j := cross centroid_j F_rigid_j in
      sub_at3 (sub_at3 fef_global 6 (R_3x3^T *m F_rigid_j))
              9 (R_3x3^T *m M_rigid_j)
    else fef_global
  else fef_global.

(** The global fixed-end force vector of one member load on its element
    (lines 237-357); [None] is the [continue] of line 283. *)
Definition member_fef_global (b : load_body) (scale : R) (el : element)
    (p1 p2 : vec3) : option vec12 :=
  let k_raw := local_stiffness (el_material el) (el_section el)
                 (L_clear el) (L_total el) in
  let R_3x3 := load_R_3x3 el p1 p2 in
  match member_fef_local b scale el p1 p2 with
  | None => None
  | Some (fef_local, w_vec_local_for_offset) =>
    let fef_local :=
      if has_release el then _condense_fef k_raw fef_local (releases el)
      else fef_local in
    let T_total := load_T_total el p1 p2 in
    let fef_global := T_total^T *m fef_local in
    Some (rigid_end_correction b el R_3x3 w_vec_local_for_offset fef_global)
  end.

(** The body of the loop over [raw['loads']]; [Some P] with [P] unchanged is
    a [continue], [None] an [IndexError]. *)
Definition member_load_step (P : 'cV[R]_ndof) (ld : load)
  : option 'cV[R]_ndof :=
  match active_scale (load_case_patterns dm) (pattern ld) with
  | None => Some P
  | Some scale =>
    match load_element_id (body ld) with
    | None => Some P
    | Some eid =>
      match find_element eid with
      | None => Some P
      | Some el =>
        let: (idx_i, idx_j) := node_indices el in
        if node_coords idx_i is Some p1 then
          if node_coords idx_j is Some p2 then
            match member_fef_global (body ld) scale el p1 p2 with
            | None => Some P
            | Some fef_global =>
              let fg : 'cV[R]_(6 + 6) := fef_global in
              let P := slice_sub P (idx_i * 6) (usubmx fg) in
              let P := slice_sub P (idx_j * 6) (dsubmx fg) in
              Some P
            end
          else None
        else None
      end
    end
  end.

Definition _add_member_loads (P : 'cV[R]_ndof) : option 'cV[R]_ndof :=
  foldM member_load_step P (raw_loads dm).

(** [assemble_system] (lines 18-31).  The pair the method returns is
    [(self.K, self.P)] of the resulting object: the same arrays, not copies. *)
Definition assemble_system (self : GlobalAssembler) : option GlobalAssembler :=
  if _build_stiffness (self_K self) is Some K' then
    let P' := self_P self + build_load_vector dm in
    if _add_member_loads P' is Some P'' then Some (Assembler K' P'')
    else None
  else None.

(** ** The mass assembler (mass_assembler.py) *)

Record GlobalMassAssembler := MassAssembler { self_M : 'M[R]_ndof }.

(** [GlobalMassAssembler.__init__]. *)
Definition GlobalMassAssembler_init : GlobalMassAssembler := MassAssembler 0.

(** [g = 9.80665]. *)
Definition g : R := 980665%:R / 100000%:R.

(** [_find_mass_source] (lines 29-41).  A dict is its items in insertion
    order. *)
Definition _find_mass_source (name : string) : option mass_source :=
  let sources := mass_sources dm in
  let found :=
    match sources with
    | SourceList l => ohead [seq s <- l | String.eqb (ms_name s) name]
    | SourceDict d => ohead [seq kv.2 | kv <- d & String.eqb kv.1 name]
    end in
  if found is Some s then Some s
  else if String.eqb name "Default" then
    match sources with
    | SourceList l => ohead l
    | SourceDict d => ohead [seq kv.2 | kv <- d]
    end
  else None.

(** [M[i, i] += x]; [None] is the [IndexError] of an index past the end. *)
Definition diag_add n (M : 'M[R]_n) (i : nat) (x : R) : option 'M[R]_n :=
  if (i < n)%N then
    Some (\matrix_(r, c)
            (M r c + (if ((r : nat) == i) && ((c : nat) == i) then x else 0)))
  else None.

(** Three translational diagonal entries of the node starting at [s]. *)
Definition diag_add3 n (M : 'M[R]_n) (s : nat) (x : R) : option 'M[R]_n :=
  if diag_add M (s + 0) x is Some M0 then
    if diag_add M0 (s + 1) x is Some M1 then diag_add M1 (s + 2) x
    else None
  else None.

(** Lines 46-59: the body of the loop over the elements. *)
Definition self_mass_step (M : 'M[R]_ndof) (el : element)
  : option 'M[R]_ndof :=
  let A := sec_A (el_section el) in
  let rho := mat_rho (el_material el) in
  let L := L_total el in
  let mass_density := rho / g in
  let total_mass := A * mass_density * L in
  foldM (fun M n_idx =>
           let start_dof := (n_idx * 6)%N in
           let half_mass := total_mass / 2 in
           diag_add3 M start_dof half_mass)
        M [:: (node_indices el).1; (node_indices el).2].

Definition _add_element_self_mass (M : 'M[R]_ndof) : option 'M[R]_ndof :=
  foldM self_mass_step M (elements dm).

(** [F[i] += x]; [None] is the [IndexError]. *)
Definition vec_add n (F : 'cV[R]_n) (i : nat) (x : R) : option 'cV[R]_n :=
  if (i < n)%N then Some (vec_add_at F i x) else None.

(** [F[s+0] += x; F[s+1] += y; F[s+2] += z]. *)
Definition vec_add3 n (F : 'cV[R]_n) (s : nat) (x y z : R)
  : option 'cV[R]_n :=
  if vec_add F (s + 0) x is Some F0 then
    if vec_add F0 (s + 1) y is Some F1 then vec_add F1 (s + 2) z
    else None
  else None.

(** [self.dm.node_id_to_idx[node_id]]; [None] is the [KeyError]. *)
Definition node_idx_of (node_id : nat) : option nat :=
  ohead [seq kv.2 | kv <- node_id_to_idx dm & kv.1 == node_id].

(** Lines 96-99 and 133-136: the rotation of an element from its adjusted
    end points. *)
Definition adjusted_rotation (el : element) : option mat3 :=
  let: (idx_i, idx_j) := node_indices el in
  if node_coords idx_i is Some c1 then
    if node_coords idx_j is Some c2 then
      let p1_adj := c1 + (offsets el).1 in
      let p2_adj := c2 + (offsets el).2 in
      Some (get_rotation_matrix lib p1_adj p2_adj (beta el))
    else None
  else None.

(** [vec = np.zeros(3); vec[idx] = x]. *)
Definition unit3 (idx : nat) (x : R) : vec3 :=
  \col_i (if (i : nat) == idx then x else 0).

(** Lines 75-152: the body of the loop accumulating the net nodal forces. *)
Definition net_load_step (active_patterns : seq (string * R))
    (F_accum : 'cV[R]_ndof) (ld : load) : option 'cV[R]_ndof :=
  match active_scale active_patterns (pattern ld) with
  | None => Some F_accum
  | Some multiplier =>
    match body ld with
    | Nodal node_id fx fy fz =>
      if node_idx_of node_id is Some node_idx then
        let start_dof := (node_idx * 6)%N in
        vec_add3 F_accum start_dof
          (fx * multiplier) (fy * multiplier) (fz * multiplier)
      else None
    | MemberDist eid wx wy wz coord _ =>
      if find_element eid is Some el then
        let w_vec := vec_of_seq 3 [:: wx; wy; wz] in
        let w_global :=
          if String.eqb coord "Local" then
            omap (fun Rm : mat3 => Rm^T *m w_vec) (adjusted_rotation el)
          else Some w_vec in
        if w_global is Some w_global then
          let F_total := (L_total el * multiplier) *: w_global in
          foldM (fun F n_idx =>
                   let dof := (n_idx * 6)%N in
                   vec_add3 F dof (vget F_total 0 / 2) (vget F_total 1 / 2)
                            (vget F_total 2 / 2))
                F_accum [:: (node_indices el).1; (node_indices el).2]
        else None
      else Some F_accum
    | MemberPoint eid force dir coord dist is_rel =>
      if find_element eid is Some el then
        let F_vec_global :=
          if String.eqb dir "Gravity" then Some (unit3 2 (- `|force|))
          else if String.eqb coord "Global" then
            let idx := if str_in "X" dir then 0%N
                       else if str_in "Y" dir then 1%N else 2%N in
            Some (unit3 idx force)
          else if String.eqb coord "Local" then
            let idx := if str_in "1" dir then 0%N
                       else if str_in "2" dir then 1%N else 2%N in
            let local_vec := unit3 idx force in
            omap (fun Rm : mat3 => Rm^T *m local_vec) (adjusted_rotation el)
          else Some 0 in
        if F_vec_global is Some F_vec_global then
          let F_vec_global := multiplier *: F_vec_global in
          (* line 144: [None] is the ZeroDivisionError *)
          let dist :=
            if ~~ is_rel then
              if L_total el == 0 then None else Some (dist / L_total el)
            else Some dist in
          if dist is Some dist then
            let ratios := [:: 1 - dist; dist] in
            foldM (fun F kn =>
                     let dof := (kn.2 * 6)%N in
                     let ratio := nth 0 ratios kn.1 in
                     vec_add3 F dof (vget F_vec_global 0 * ratio)
                              (vget F_vec_global 1 * ratio)
                              (vget F_vec_global 2 * ratio))
                  F_accum
                  [:: (0%N, (node_indices el).1); (1%N, (node_indices el).2)]
          else None
        else None
      else Some F_accum
    | OtherLoad => Some F_accum
    end
  end.

(** Lines 66-152: [F_accum] after the loop over the loads. *)
Definition net_nodal_forces (active_patterns : seq (string * R))
  : option 'cV[R]_ndof :=
  foldM (net_load_step active_patterns) 0 (raw_loads dm).

(** [F_accum[i]] and [M[i, j]] for integer indices within the bounds (the
    result is 0 outside of them, where Python raises). *)
Definition vec_at n (F : 'cV[R]_n) (i : nat) : R :=
  if insub i is Some i' then F i' 0 else 0.

Definition mat_at n (M : 'M[R]_n) (i j : nat) : R :=
  match insub i, insub j with
  | Some i', Some j' => M i' j'
  | _, _ => 0
  end.

(** Lines 157-166: the body of the loop converting net forces to mass. *)
Definition net_mass_step (F_accum : 'cV[R]_ndof) (M : 'M[R]_ndof) (i : nat)
  : option 'M[R]_ndof :=
  let Fz_net := vec_at F_accum i in
  if Fz_net < - (1 / 10 ^+ 5) then
    let mass_val := `|Fz_net| / g in
    if diag_add M (i - 2) mass_val is Some M0 then
      if diag_add M0 (i - 1) mass_val is Some M1 then diag_add M1 i mass_val
      else None
    else None
  else Some M.

Definition convert_net_forces (F_accum : 'cV[R]_ndof) (M : 'M[R]_ndof)
  : option 'M[R]_ndof :=
  foldM (net_mass_step F_accum) M (range_step 2 ndof 6).

(** [_add_mass_from_net_loads] (lines 61-168).  A pattern list item is a
    [name, scale] list or a name/scale dict; both are a pair here. *)
Definition _add_mass_from_net_loads (pattern_list : seq (string * R))
    (M : 'M[R]_ndof) : option 'M[R]_ndof :=
  let active_patterns := pattern_list in
  if nilp active_patterns then Some M
  else if net_nodal_forces active_patterns is Some F_accum then
    convert_net_forces F_accum M
  else None.

(** [build_mass_matrix] (lines 11-27).  The matrix the method returns is
    [self.M] of the resulting object: the same array, not a copy. *)
Definition build_mass_matrix (mass_source_name : string)
    (self : GlobalMassAssembler) : option GlobalMassAssembler :=
  match _find_mass_source mass_source_name with
  | None => Some self
  | Some ms_def =>
    let M1 :=
      if include_self_mass ms_def then _add_element_self_mass (self_M self)
      else Some (self_M self) in
    let M2 :=
      if include_patterns ms_def then
        obind (_add_mass_from_net_loads (load_patterns ms_def)) M1
      else M1 in
    omap MassAssembler M2
  end.

(** ** Notions the statements below are phrased with *)

(** Every element refers to two existing nodes. *)
Definition valid_element (el : element) : bool :=
  ((node_indices el).1 < size (nodes dm))%N &&
  ((node_indices el).2 < size (nodes dm))%N.

Definition valid_node_indices : bool := all valid_element (elements dm).

(** The Element Model returns symmetric local stiffness matrices. *)
Definition symmetric_library : Prop :=
  forall E G A J I22 I33 As2 As3 L L_tor,
    (get_local_stiffness_matrix lib E G A J I22 I33 As2 As3 L L_tor)^T =
    get_local_stiffness_matrix lib E G A J I22 I33 As2 As3 L L_tor.

(** The distance between the two end points: what the Data Model stores as
    the total (center-to-center) length of a member. *)
Definition end_point_distance (p1 p2 : vec3) : R :=
  Num.sqrt ((vget p2 0 - vget p1 0) ^+ 2 + (vget p2 1 - vget p1 1) ^+ 2
            + (vget p2 2 - vget p1 2) ^+ 2).

(** Lines 158-161: the mass node [k] receives from its net vertical force. *)
Definition node_net_mass (F : 'cV[R]_ndof) (k : nat) : R :=
  let Fz_net := vec_at F (k * 6 + 2) in
  if Fz_net < - (1 / 10 ^+ 5) then `|Fz_net| / g else 0.

(** Lines 46-51: [total_mass] of an element. *)
Definition element_mass (el : element) : R :=
  sec_A (el_section el) * (mat_rho (el_material el) / g) * L_total el.

Definition total_self_mass : R := \sum_(el <- elements dm) element_mass el.

(** The sum over the nodes of the diagonal entry of translational DOF [d]. *)
Definition direction_mass (M : 'M[R]_ndof) (d : nat) : R :=
  \sum_(0 <= k < size (nodes dm)) mat_at M (k * 6 + d) (k * 6 + d).

(** The sum of all diagonal translational entries. *)
Definition translational_mass_sum (M : 'M[R]_ndof) : R :=
  \sum_(0 <= k < size (nodes dm)) \sum_(0 <= d < 3)
    mat_at M (k * 6 + d) (k * 6 + d).

(** [(r, c)] is a diagonal entry of a translational DOF (ux, uy or uz). *)
Definition translational_diagonal (r c : nat) : bool :=
  (r == c) && (r %% 6 < 3)%N.

(** The matrix with [x] on the three translational diagonal entries of node
    [k], as a function of the indices. *)
Definition node_block_mass (k : nat) (x : R) (r c : nat) : R :=
  if (r == c) && in_block 3 (k * 6) r then x else 0.

End Model.

(** ** Notions for further properties of the assemblers *)


Section Snapshots.

Variable R : rcfType.
Variable dm : data_manager R.

(** The node a DOF index belongs to. *)
Definition dof_node (r : nat) : nat := r %/ 6.

(** [a] and [b] are end nodes of [el]. *)
Definition joins (el : element R) (a b : nat) : bool :=
  ((a == (node_indices el).1) || (a == (node_indices el).2)) &&
  ((b == (node_indices el).1) || (b == (node_indices el).2)).

(** The snapshot with another element list, and with another load list. *)
Definition set_elements (els : seq (element R)) : data_manager R :=
  @DataManager R (nodes dm) els (raw_loads dm) (load_case_patterns dm)
    (mass_sources dm) (node_id_to_idx dm) (build_load_vector dm).

Definition set_loads (lds : seq (load R)) : data_manager R :=
  @DataManager R (nodes dm) (elements dm) lds (load_case_patterns dm)
    (mass_sources dm) (node_id_to_idx dm) (build_load_vector dm).

(** [v[s:s+3]] of a 12-vector. *)
Definition sub3 (v : 'cV[R]_12) (s : nat) : 'cV[R]_3 :=
  \col_(i < 3) vget v (s + i).

(** Lines 220-226: the loads [_add_member_loads] does not skip at once: a
    member load of an active pattern on a known element. *)
Definition processed_member_load (ld : load R) : bool :=
  [&& isSome (active_scale (load_case_patterns dm) (pattern ld)),
      isSome (load_element_id (body ld))
    & if load_element_id (body ld) is Some eid
      then isSome (find_element dm eid) else false].

End Snapshots.

Section LoadPipeline.

Variable R : rcfType.
Variable lib : element_library R.

(** Lines 254-266: the local intensity of a distributed load, from the
    intensity [w_defined] it is defined with (line 252). *)
Definition dist_local_intensity (R_3x3 : 'M[R]_3) (coord : string)
    (projected : bool) (p1 p2 : 'cV[R]_3) (L_tot : R)
    (w_defined : 'cV[R]_3) : 'cV[R]_3 :=
  let w_local :=
    if String.eqb coord "Global" then R_3x3 *m w_defined else w_defined in
  if projected then (_apply_projection_factor w_local p1 p2 L_tot coord).1
  else w_local.

(** Lines 292-305: the local fixed-end forces of a point load, from the
    vector [vec_defined] it is defined with (line 286) and its position. *)
Definition point_fef_local (el : element R) (R_3x3 : 'M[R]_3)
    (coord_sys : string) (dist_raw : R) (vec_defined : 'cV[R]_3)
  : 'cV[R]_12 :=
  let P_local :=
    if String.eqb coord_sys "Global" then R_3x3 *m vec_defined
    else vec_defined in
  let ri := odflt 0 (end_off_i el) in
  let rj := odflt 0 (end_off_j el) in
  if (ri <= dist_raw) && (dist_raw <= L_total el - rj) then
    let a_dist := dist_raw - ri in
    _get_exact_fef_via_stiffness lib (L_clear el) a_dist P_local
      (el_material el) (el_section el)
  else 0.

(** Lines 308-357: condensation, transformation to global coordinates and
    rigid-end correction of the local fixed-end forces. *)
Definition fef_to_global (b : load_body R) (el : element R)
    (p1 p2 : 'cV[R]_3) (fef_local : 'cV[R]_12)
    (w_vec_local_for_offset : 'cV[R]_3) : 'cV[R]_12 :=
  let k_raw := local_stiffness lib (el_material el) (el_section el)
                 (L_clear el) (L_total el) in
  let R_3x3 := load_R_3x3 lib el p1 p2 in
  let fef_local :=
    if has_release el then _condense_fef k_raw fef_local (releases el)
    else fef_local in
  let T_total := load_T_total lib el p1 p2 in
  let fef_global := T_total^T *m fef_local in
  rigid_end_correction b el R_3x3 w_vec_local_for_offset fef_global.

End LoadPipeline.

Section MassNotions.

Variable R : rcfType.
Variable lib : element_library R.
Variable dm : data_manager R.

(** The registered mass sources, and the names they are registered under. *)
Definition sources_of (reg : mass_source_registry R) : seq (mass_source R) :=
  match reg with
  | SourceList l => l
  | SourceDict d => [seq kv.2 | kv <- d]
  end.

Definition registered_names (reg : mass_source_registry R) : seq string :=
  match reg with
  | SourceList l => [seq ms_name s | s <- l]
  | SourceDict d => [seq kv.1 | kv <- d]
  end.

(** The sum over the nodes of the entries of translational DOF [d]. *)
Definition direction_force (F : 'cV[R]_(total_dofs dm)) (d : nat) : R :=
  \sum_(0 <= k < size (nodes dm)) vec_at F (k * 6 + d).

(** The force a load contributes to the net nodal forces before it is
    shared between the nodes (lines 85-87, 93-104 and 116-140). *)
Definition load_total_force (active_patterns : seq (string * R))
    (ld : load R) : 'cV[R]_3 :=
  match active_scale active_patterns (pattern ld) with
  | None => 0
  | Some multiplier =>
    match body ld with
    | Nodal _ fx fy fz =>
      vec_of_seq 3 [:: fx * multiplier; fy * multiplier; fz * multiplier]
    | MemberDist eid wx wy wz coord _ =>
      if find_element dm eid is Some el then
        let w_vec := vec_of_seq 3 [:: wx; wy; wz] in
        let w_global :=
          if String.eqb coord "Local" then
            if adjusted_rotation lib dm el is Some Rm then Rm^T *m w_vec
            else 0
          else w_vec in
        (L_total el * multiplier) *: w_global
      else 0
    | MemberPoint eid force dir coord _ _ =>
      if find_element dm eid is Some el then
        let F_vec_global :=
          if String.eqb dir "Gravity" then unit3 2 (- `|force|)
          else if String.eqb coord "Global" then
            let idx := if str_in "X" dir then 0%N
                       else if str_in "Y" dir then 1%N else 2%N in
            unit3 idx force
          else if String.eqb coord "Local" then
            let idx := if str_in "1" dir then 0%N
                       else if str_in "2" dir then 1%N else 2%N in
            if adjusted_rotation lib dm el is Some Rm
            then Rm^T *m unit3 idx force else 0
          else 0 in
        multiplier *: F_vec_global
      else 0
    | OtherLoad => 0
    end
  end.

(** The loads the net-force accumulation can process: an active nodal load
    needs a known node id that maps to an existing node, an active member
    load on a known element needs that element to refer to existing nodes,
    and a point load placed by an absolute distance ([is_rel] false) needs
    an element whose total length is not zero. *)
Definition net_load_ok (active_patterns : seq (string * R)) (ld : load R)
  : bool :=
  match active_scale active_patterns (pattern ld) with
  | None => true
  | Some _ =>
    match body ld with
    | Nodal node_id _ _ _ =>
      if node_idx_of dm node_id is Some node_idx
      then (node_idx < size (nodes dm))%N else false
    | MemberDist eid _ _ _ _ _ =>
      if find_element dm eid is Some el then valid_element dm el else true
    | MemberPoint eid _ _ _ _ is_rel =>
      if find_element dm eid is Some el
      then valid_element dm el && (is_rel || (L_total el != 0)) else true
    | OtherLoad => true
    end
  end.

(** A lumped mass matrix: nothing off the translational diagonal, and the
    same mass on the three translational DOFs of a node. *)
Definition lumped_mass (M : 'M[R]_(total_dofs dm)) : Prop :=
  (forall r c, ~~ translational_diagonal r c -> mat_at M r c = 0) /\
  (forall k d, (d < 3)%N ->
     mat_at M (k * 6 + d) (k * 6 + d) = mat_at M (k * 6) (k * 6)).

End MassNotions.

Section Energy.

Variable R : rcfType.
Variable lib : element_library R.
Variable dm : data_manager R.

(** The quadratic form [x^T A x] of a square matrix (twice the strain
    energy, for a stiffness matrix and a displacement vector). *)
Definition quad_form n (A : 'M[R]_n) (x : 'cV[R]_n) : R :=
  (x^T *m A *m x) 0 0.

Definition positive_semidefinite n (A : 'M[R]_n) : Prop :=
  forall x : 'cV[R]_n, 0 <= quad_form A x.

(** A property that holds of every item of a list. *)
Fixpoint all_prop (A : Type) (P : A -> Prop) (xs : seq A) : Prop :=
  if xs is x :: xs' then P x /\ all_prop P xs' else True.

(** The local stiffness matrix the Element Model returns for an element
    (lines 41-45), before any condensation. *)
Definition raw_local_stiffness (el : element R) : 'M[R]_12 :=
  local_stiffness lib (el_material el) (el_section el)
    (L_clear el) (L_total el).

(** The Element Model returns a positive semidefinite local stiffness
    matrix for every element of the model. *)
Definition psd_elements : Prop :=
  all_prop (fun el => positive_semidefinite (raw_local_stiffness el))
           (elements dm).

(** [x[6k : 6k+6]]: the six DOFs of node [k] in a global vector. *)
Definition node_dofs (x : 'cV[R]_(total_dofs dm)) (k : nat) : 'cV[R]_6 :=
  \col_(a < 6) vec_at x (k * 6 + a).

(** The twelve DOFs of the end nodes of an element. *)
Definition element_dofs (x : 'cV[R]_(total_dofs dm)) (el : element R)
  : 'cV[R]_12 :=
  (col_mx (node_dofs x (node_indices el).1) (node_dofs x (node_indices el).2)
     : 'cV[R]_(6 + 6)).

(** The quadratic form of the local stiffness of an element (condensed when
    it has releases) on the end displacements brought to local axes by the
    transform of the stiffness path. *)
Definition element_energy (el : element R) (x : 'cV[R]_(total_dofs dm)) : R :=
  let p1 := nth 0 (nodes dm) (node_indices el).1 in
  let p2 := nth 0 (nodes dm) (node_indices el).2 in
  quad_form (element_k_local lib el)
            (stiffness_T_total lib el p1 p2 *m element_dofs x el).

End Energy.

(** ** A concrete two-node model over the real algebraic numbers

    The statements of the theory are instantiated on it: as inputs that
    satisfy their hypotheses, and as inputs that separate the code from a
    property it does not have. *)

Definition demo_vec (x y z : algR) : 'cV[algR]_3 := vec_of_seq 3 [:: x; y; z].

(** An Element Model: a bed of springs of stiffness [E] on every local DOF;
    the rotation of a member along global X (identity) or along global Z;
    the rigid-link eccentricity transform [u_end = u_node + theta x offset]. *)
Definition demo_stiffness (E G A J I22 I33 As2 As3 L L_tor : algR)
  : 'M[algR]_12 := E%:M.

Definition vertical_rotation : 'M[algR]_3 :=
  \matrix_(i, j) nth 0 (nth [::] [:: [:: 0; 0; 1];
                                     [:: 0; 1; 0];
                                     [:: -1; 0; 0]] i) j.

Definition demo_rotation (p1 p2 : 'cV[algR]_3) (beta : algR) : 'M[algR]_3 :=
  if (vget p2 0 == vget p1 0) && (vget p2 1 == vget p1 1)
  then vertical_rotation else 1%:M.

(** The coupling of the translations of an end to the rotations of its
    node, for the local offset [o]. *)
Definition rigid_link (o : 'cV[algR]_3) (a b : nat) : algR :=
  nth 0 (nth [::] [:: [:: 0; vget o 2; - vget o 1];
                      [:: - vget o 2; 0; vget o 0];
                      [:: vget o 1; - vget o 0; 0]] a) b.

Definition demo_eccentricity (off_i off_j : 'cV[algR]_3) : 'M[algR]_12 :=
  \matrix_(r, c)
    ((r == c)%:R +
     (if (r < 3)%N && in_block 3 3 c then rigid_link off_i r (c - 3)
      else if in_block 3 6 r && in_block 3 9 c
           then rigid_link off_j (r - 6) (c - 9)
      else 0)).

Definition demo_lib : element_library algR :=
  ElementLibrary demo_stiffness demo_rotation demo_eccentricity.

Definition no_release : 6.-tuple bool * 6.-tuple bool :=
  ([tuple of nseq 6 false], [tuple of nseq 6 false]).

Definition demo_section : cross_section algR := CrossSection 1 1 1 1 1 1.

(** A member of clear length [L] and Young modulus [E] between node 0 and
    node 1, with insertion offset [off_j] at its far end. *)
Definition demo_member (E L : algR) (off_j : 'cV[algR]_3) : element algR :=
  Element 7 (0, 1)%N (Material E 1 1) demo_section L L None None
          (0, off_j) no_release 0.

Definition demo_nodes : seq 'cV[algR]_3 :=
  [:: demo_vec 0 0 0; demo_vec 1 0 0].

Definition demo_sources : mass_source_registry algR :=
  SourceList [:: MassSource "MS1" true false [::]].

(** The Data Model snapshot: two nodes, one member, the given loads, the
    load pattern DEAD with scale 1. *)
Definition demo_dm (el : element algR) (lds : seq (load algR))
  : data_manager algR :=
  @DataManager algR demo_nodes [:: el] lds [:: ("DEAD"%string, 1)]
    demo_sources [:: (1, 0); (2, 1)]%N 0.

Definition demo_plain : data_manager algR := demo_dm (demo_member 1 1 0) [::].

(** A point load at mid-span of a member whose material has [E = 0]. *)
Definition soft_member : element algR := demo_member 0 1 0.

Definition mid_point_load : load algR :=
  Load "DEAD" (MemberPoint 7 1 "Gravity" "Global" (1 / 2) true).

Definition demo_soft : data_manager algR :=
  demo_dm soft_member [:: mid_point_load].

(** The member with the rotation about local z released at its far end. *)
Definition hinged_member : element algR :=
  Element 7 (0, 1)%N (Material 1 1 1) demo_section 1 1 None None (0, 0)
          ([tuple of nseq 6 false],
           [tuple false; false; false; false; false; true]) 0.

Definition demo_hinged : data_manager algR := demo_dm hinged_member [::].

(** A nodal load of 10 downwards on node 1 (id 2). *)
Definition down_load : load algR := Load "DEAD" (Nodal 2 0 0 (- 10)).

Definition demo_loaded : data_manager algR :=
  demo_dm (demo_member 1 1 0) [:: down_load].

(** The net nodal forces of [demo_loaded]: 10 downwards on node 1. *)
Definition demo_net_force : 'cV[algR]_(total_dofs demo_loaded) :=
  vec_add_at (vec_add_at (vec_add_at 0 6 (0 * 1)) 7 (0 * 1)) 8 (- 10 * 1).

(** ** More concrete models *)

(** A chain of three nodes along global X joined by two unit members, with a
    nodal load and a point load. *)
Definition demo_nodes3 : seq 'cV[algR]_3 :=
  [:: demo_vec 0 0 0; demo_vec 1 0 0; demo_vec 2 0 0].

Definition demo_member_between (eid i j : nat) : element algR :=
  Element eid (i, j) (Material 1 1 1) demo_section 1 1 None None (0, 0)
          no_release 0.

Definition demo_chain : data_manager algR :=
  @DataManager algR demo_nodes3
    [:: demo_member_between 7 0 1; demo_member_between 8 1 2]
    [:: down_load; mid_point_load] [:: ("DEAD"%string, 1)]
    demo_sources [:: (1, 0); (2, 1); (3, 2)]%N 0.

(** A member of total length 1 with rigid end zones of length 1/4, and a
    point load standing on the rigid zone at its near end. *)
Definition rigid_end_member : element algR :=
  Element 7 (0, 1)%N (Material 1 1 1) demo_section (1 / 2) 1
          (Some (1 / 4)) (Some (1 / 4)) (0, 0) no_release 0.

Definition near_end_load : load algR :=
  Load "DEAD" (MemberPoint 7 1 "Gravity" "Global" (1 / 10) true).

Definition demo_rigid : data_manager algR :=
  demo_dm rigid_end_member [:: near_end_load].

(** Nodal loads of 10 downwards on both nodes, and their net forces. *)
Definition demo_both_loaded : data_manager algR :=
  demo_dm (demo_member 1 1 0)
    [:: Load "DEAD" (Nodal 1 0 0 (- 10)); Load "DEAD" (Nodal 2 0 0 (- 10))].

Definition demo_both_force : 'cV[algR]_(total_dofs demo_both_loaded) :=
  vec_add_at (vec_add_at (vec_add_at
    (vec_add_at (vec_add_at (vec_add_at 0 0 (0 * 1)) 1 (0 * 1)) 2 (- 10 * 1))
    6 (0 * 1)) 7 (0 * 1)) 8 (- 10 * 1).

(** An Element Model of translational and rotational springs between the
    two ends of a member: [k = E [[1, -1], [-1, 1]]] on the 6-blocks. *)
Definition link_stiffness (E G A J I22 I33 As2 As3 L L_tor : algR)
  : 'M[algR]_12 :=
  (block_mx E%:M (- E)%:M (- E)%:M E%:M : 'M[algR]_(6 + 6)).

Definition link_lib : element_library algR :=
  ElementLibrary link_stiffness demo_rotation demo_eccentricity.

(** An Element Model of translational springs only, a member without any
    rotational stiffness: [k = E [[D, -D], [-D, D]]] with
    [D = diag(1, 1, 1, 0, 0, 0)]. *)
Definition translational_block : 'M[algR]_6 :=
  (block_mx 1%:M 0 0 0 : 'M[algR]_(3 + 3)).

Definition truss_stiffness (E G A J I22 I33 As2 As3 L L_tor : algR)
  : 'M[algR]_12 :=
  (block_mx (E *: translational_block) (- E *: translational_block)
            (- E *: translational_block) (E *: translational_block)
   : 'M[algR]_(6 + 6)).

Definition truss_lib : element_library algR :=
  ElementLibrary truss_stiffness demo_rotation demo_eccentricity.

(** A member of zero total length, and a point load placed on it by an
    absolute distance. *)
Definition zero_length_member : element algR :=
  Element 7 (0, 1)%N (Material 1 1 1) demo_section 0 0 None None (0, 0)
          no_release 0.

Definition absolute_point_load : load algR :=
  Load "DEAD" (MemberPoint 7 1 "Gravity" "Global" 0 false).

Definition demo_zero_length : data_manager algR :=
  demo_dm zero_length_member [:: absolute_point_load].

(** ** Arithmetic on DOF indices *)

Ltac nat_hyp H :=
  lazymatch type of H with
  | is_true (leq _ _) => move/ssrnat.leP in H
  | is_true (~~ leq _ _) => move/ssrnat.leP in H
  | leq _ _ = false => move/ssrnat.leP in H
  | is_true (?x == _) => move/eqP in H
  | is_true (?x != _) => move/eqP in H
  | (?x == _) = false => move/eqP in H
  end; rewrite -?plusE -?multE -?minusE in H.

Ltac nat_goal :=
  lazymatch goal with
  | |- is_true (leq _ _) => apply/ssrnat.leP
  | |- is_true (~~ leq _ _) => apply/ssrnat.leP
  | |- leq _ _ = false => apply/ssrnat.leP
  | |- is_true (_ == _) => apply/eqP
  | |- is_true (_ != _) => apply/eqP
  | |- (_ == _) = false => apply/eqP
  | |- _ => idtac
  end; rewrite -?plusE -?multE -?minusE.

Ltac nat_lia :=
  repeat match goal with
  | H : is_true (_ && _) |- _ =>
    let H1 := fresh H in let H2 := fresh H in case/andP: H => H1 H2
  end;
  repeat match goal with
  | H : is_true _ |- _ => nat_hyp H
  | H : _ = false |- _ => nat_hyp H
  end;
  nat_goal; lia.

(** ** Properties of the assemblers *)

Section Theory.

Variable R : rcfType.
Variable lib : element_library R.
Variable dm : data_manager R.

Local Notation vec3 := 'cV[R]_3.
Local Notation vec6 := 'cV[R]_6.
Local Notation vec12 := 'cV[R]_12.
Local Notation mat3 := 'M[R]_3.
Local Notation mat6 := 'M[R]_6.
Local Notation mat12 := 'M[R]_12.
Local Notation ndof := (total_dofs dm).
Local Notation valid_element := (valid_element dm).
Local Notation valid_node_indices := (valid_node_indices dm).
Local Notation symmetric_library := (symmetric_library lib).
Local Notation total_self_mass := (total_self_mass dm).

(** *** Entries of literal vectors *)

Lemma vget_vec_of_seq n (s : seq R) (i : nat) :
  (i < n.+1)%N -> vget (vec_of_seq n.+1 s) i = nth 0 s i.
Proof. by move=> lt_i; rewrite /vget /vec_of_seq mxE inordK. Qed.

Lemma vgetD n (u v : 'cV[R]_n.+1) (i : nat) :
  vget (u + v) i = vget u i + vget v i.
Proof. by rewrite /vget mxE. Qed.

Lemma vec_of_seq0 : vec_of_seq 3 [:: 0; 0; 0] = 0 :> vec3.
Proof.
apply/colP=> i; rewrite !mxE.
by case: i => [[|[|[|i]]] lt_i] //=; rewrite nth_nil.
Qed.

(** *** Static condensation without releases *)

Lemma idx_cond_nil rels : ~~ has id (rel_vec rels) -> idx_cond rels = [::].
Proof.
move=> no_rel; rewrite /idx_cond -(filter_pred0 (enum 'I_12)).
apply: eq_filter => i /=; apply/negbTE/negP => rel_i.
case/hasP: no_rel; exists true => //.
have [lt_i|ge_i] := ltnP i (size (rel_vec rels)).
  by rewrite -rel_i mem_nth.
by rewrite nth_default in rel_i.
Qed.

Lemma condense_matrix_no_release (k : mat12) rels :
  ~~ has id (rel_vec rels) -> _condense_matrix k rels = k.
Proof. by move=> no_rel; rewrite /_condense_matrix idx_cond_nil. Qed.

Lemma condense_fef_no_release (k : mat12) (f : vec12) rels :
  ~~ has id (rel_vec rels) -> _condense_fef k f rels = f.
Proof. by move=> no_rel; rewrite /_condense_fef idx_cond_nil. Qed.

(** Claim C5.  When no release flag is set, both condensation operations
    are the identity: for every 12x12 matrix [k] and every 12-vector [f],
    [_condense_matrix k releases] is [k] and [_condense_fef k f releases] is
    [f]. *)
Theorem condensation_identity_without_release
    (k : mat12) (f : vec12) (rels : 6.-tuple bool * 6.-tuple bool) :
  ~~ has id (rel_vec rels) ->
  _condense_matrix k rels = k /\ _condense_fef k f rels = f.
Proof.
by move=> no_rel; rewrite condense_matrix_no_release ?condense_fef_no_release.
Qed.

(** *** The two-segment solve *)

Lemma linalg_solve_unit n (A : 'M[R]_n) (b : 'cV[R]_n) :
  A \in unitmx -> linalg_solve A b = Some (invmx A *m b).
Proof. by rewrite /linalg_solve => ->. Qed.

Lemma linalg_solve_singular n (A : 'M[R]_n) (b : 'cV[R]_n) :
  A \notin unitmx -> linalg_solve A b = None.
Proof. by rewrite /linalg_solve => /negbTE ->. Qed.

Lemma unit_system_unique n (A : 'M[R]_n) (b u : 'cV[R]_n) :
  A \in unitmx -> A *m u = b -> u = invmx A *m b.
Proof. by move=> unitA <-; rewrite mulKmx. Qed.

Lemma exact_fef_unit (L a : R) (Pv : vec3) mat sec :
  L != 0 ->
  K_mid_of (local_stiffness lib mat sec a a)
           (local_stiffness lib mat sec (L - a) (L - a)) \in unitmx ->
  let k_left : 'M[R]_(6 + 6) := local_stiffness lib mat sec a a in
  let k_right : 'M[R]_(6 + 6) := local_stiffness lib mat sec (L - a) (L - a) in
  let u_mid := invmx (K_mid_of k_left k_right) *m F_mid_of Pv in
  _get_exact_fef_via_stiffness lib L a Pv mat sec =
    col_mx (ursubmx k_left *m u_mid) (dlsubmx k_right *m u_mid).
Proof.
move=> /negbTE L0 unitK /=.
by rewrite /_get_exact_fef_via_stiffness L0 linalg_solve_unit.
Qed.

(** Claim C3, as the code has it.  For a point load at distance [a] from
    the near end of a member of clear length [L], with [0 < a < L] and
    [b = L - a], let [K_mid = k_left[6:12,6:12] + k_right[0:6,0:6]] and let
    [F_mid] carry the load in its three translational components and zero in
    its rotational ones; [k_left] and [k_right] are the Element Model
    stiffness matrices of the sub-lengths [a] and [b].  When [K_mid] is
    invertible (the 6x6 solve succeeds) the system [K_mid u_mid = F_mid] has
    exactly one solution [u_mid], and the 12-vector returned by
    [_get_exact_fef_via_stiffness] has first six entries
    [k_left[0:6,6:12] u_mid] and last six entries [k_right[6:12,0:6] u_mid].
    When [K_mid] is singular the returned vector is zero, whether or not the
    system has a solution. *)
Theorem exact_fef_two_segment_solution
    (L a : R) (P_vec : vec3) (mat : material R) (sec : cross_section R) :
  let b := L - a in
  let k_left : 'M[R]_(6 + 6) := local_stiffness lib mat sec a a in
  let k_right : 'M[R]_(6 + 6) := local_stiffness lib mat sec b b in
  let K_mid : mat6 := drsubmx k_left + ulsubmx k_right in
  let F_mid : 'cV[R]_(3 + 3) := col_mx P_vec 0 in
  let fef : 'cV[R]_(6 + 6) :=
    _get_exact_fef_via_stiffness lib L a P_vec mat sec in
  0 < a < L ->
  (K_mid \in unitmx ->
   exists u_mid : vec6,
     [/\ K_mid *m u_mid = F_mid,
         forall u, K_mid *m u = F_mid -> u = u_mid,
         usubmx fef = ursubmx k_left *m u_mid
       & dsubmx fef = dlsubmx k_right *m u_mid]) /\
  (K_mid \notin unitmx -> fef = 0).
Proof.
move=> b k_left k_right K_mid F_mid fef /andP[a_gt0 a_ltL].
have L_neq0 : L != 0 by apply/lt0r_neq0/(lt_trans a_gt0).
split=> [unitK|singular]; last first.
  rewrite /fef /_get_exact_fef_via_stiffness (negbTE L_neq0).
  by rewrite linalg_solve_singular.
exists (invmx K_mid *m F_mid); split.
- by rewrite mulKVmx.
- by move=> u /(unit_system_unique unitK).
- by rewrite /fef exact_fef_unit // col_mxKu.
- by rewrite /fef exact_fef_unit // col_mxKd.
Qed.

(** *** Uniform loads *)

Lemma dist_fef_entries (w : vec3) (L : R) :
  let f := dist_fef w L in
  let wx := vget w 0 in let wy := vget w 1 in let wz := vget w 2 in
  [/\ [/\ vget f 0 = - (wx * L / 2), vget f 6 = - (wx * L / 2),
          vget f 1 = - (wy * L / 2) & vget f 7 = - (wy * L / 2)],
      [/\ vget f 2 = - (wz * L / 2), vget f 8 = - (wz * L / 2),
          vget f 3 = 0 & vget f 9 = 0],
      vget f 5 = - (wy * L ^+ 2 / 12) /\ vget f 11 = wy * L ^+ 2 / 12
    & vget f 4 = wz * L ^+ 2 / 12 /\ vget f 10 = - (wz * L ^+ 2 / 12)].
Proof.
by rewrite /dist_fef /=; do !split; rewrite vget_vec_of_seq //= -?mulNr.
Qed.



Lemma horizontal_member_length (p1 p2 : vec3) :
  vget p1 2 = vget p2 2 -> end_point_distance p1 p2 = horizontal_length p1 p2.
Proof.
by move=> eq_z; rewrite /end_point_distance /horizontal_length eq_z subrr expr0n addr0.
Qed.

Lemma projection_not_global (w p1 p2 : vec3) (Lt : R) (coord : string) :
  coord <> "Global"%string ->
  _apply_projection_factor w p1 p2 Lt coord = (w, WarnProjectionNotGlobal).
Proof.
by move=> /String.eqb_neq neq; rewrite /_apply_projection_factor neq.
Qed.

Lemma projection_global (w p1 p2 : vec3) (Lt : R) :
  _apply_projection_factor w p1 p2 Lt "Global" =
    if horizontal_length p1 p2 < 1 / 10 ^+ 9 then (0, WarnVerticalMember)
    else if Lt < 1 / 10 ^+ 9 then (w, WarnZeroLengthMember)
    else ((horizontal_length p1 p2 / Lt) *: w, InfoProjectedLoad).
Proof. by rewrite /_apply_projection_factor /= vec_of_seq0. Qed.

Lemma horizontal_le_distance (p1 p2 : vec3) :
  horizontal_length p1 p2 <= end_point_distance p1 p2.
Proof.
rewrite /horizontal_length /end_point_distance.
by apply: ler_wsqrtr; rewrite lerDl sqr_ge0.
Qed.

(** Claim C8.  Projection of a distributed load on a member whose total
    length [L_total] is the distance of its end points (line 395: "total
    member length, center to center"), with [Lh] the XY-plane distance of
    the end points.  In the Local frame (in any frame but Global) the
    intensity is returned unchanged, with a warning.  In the Global frame
    the result is the zero vector when [Lh < 1e-9] (vertical member) and the
    intensity scaled by [Lh / L_total] otherwise: the zero-length guard of
    lines 417-419 is never reached, since [L_total >= Lh].  For end points
    of equal elevation the factor [Lh / L_total] is 1 (the two lengths are
    the same, and the quotient is defined when they are not zero), and the
    scaled intensity is the intensity as it is. *)
Theorem projection_factor_cases (w p1 p2 : vec3) (L_tot : R) :
  let Lh := horizontal_length p1 p2 in
  let eps := 1 / 10 ^+ 9 in
  let global := _apply_projection_factor w p1 p2 L_tot "Global" in
  L_tot = end_point_distance p1 p2 ->
  [/\ _apply_projection_factor w p1 p2 L_tot "Local"
        = (w, WarnProjectionNotGlobal)
      /\ (forall coord, coord <> "Global"%string ->
            _apply_projection_factor w p1 p2 L_tot coord
              = (w, WarnProjectionNotGlobal)),
      Lh < eps -> global = (0, WarnVerticalMember),
      eps <= Lh -> global = ((Lh / L_tot) *: w, InfoProjectedLoad)
    & vget p1 2 = vget p2 2 ->
      [/\ Lh = L_tot, Lh != 0 -> Lh / L_tot = 1
         & eps <= Lh -> global = (w, InfoProjectedLoad)]].
Proof.
move=> Lh eps global eq_t; have le_L : Lh <= L_tot.
  by rewrite eq_t; apply: horizontal_le_distance.
have scaled : eps <= Lh -> global = ((Lh / L_tot) *: w, InfoProjectedLoad).
  move=> le_h; rewrite /global projection_global -/Lh -/eps.
  by rewrite !ltNge le_h (le_trans le_h le_L).
split=> //.
- by split=> [|coord]; apply: projection_not_global.
- by rewrite /global projection_global -/Lh -/eps => ->.
- move=> eq_z; have eq_L : Lh = L_tot by rewrite eq_t horizontal_member_length.
  have factor1 : Lh != 0 -> Lh / L_tot = 1 by rewrite -eq_L; apply: divff.
  split=> // le_h; have Lh_neq0 : Lh != 0.
    by apply/lt0r_neq0/(lt_le_trans _ le_h); rewrite /eps; lra.
  by rewrite scaled // factor1 // scale1r.
Qed.


(** *** Loops whose body adds a contribution to an accumulator *)




Lemma translating_id (V : zmodType) : translating (@Some V).
Proof. by move=> s /=; rewrite addr0. Qed.

Lemma translating_none (V : zmodType) : translating (fun _ : V => None).
Proof. by []. Qed.

Lemma translating_bind (V : zmodType) (f h : V -> option V) :
  translating f -> translating h ->
  translating (fun s => if f s is Some s' then h s' else None).
Proof.
move=> tr_f tr_h s; rewrite tr_f; case: (f 0) => [c|] //=.
by rewrite tr_h [in RHS]tr_h; case: (h 0) => [d|] //=; rewrite addrA.
Qed.

Lemma translating_foldM (V : zmodType) (A : Type) (f : V -> A -> option V)
    (xs : seq A) :
  (forall x, translating (f^~ x)) -> translating (fun s => foldM f s xs).
Proof.
move=> tr_f; elim: xs => [|x xs IHxs]; first exact: translating_id.
exact: (translating_bind (tr_f x) IHxs).
Qed.

Lemma translating_if (V : zmodType) (b : bool) (f h : V -> option V) :
  translating f -> translating h -> translating (fun s => if b then f s else h s).
Proof. by case: b. Qed.

(** *** Scatter-add into the global stiffness matrix *)

Lemma slice_add_tr n (K : 'M[R]_n) r0 c0 (B : mat6) :
  (slice_add K r0 c0 B)^T = slice_add K^T c0 r0 B^T.
Proof. by apply/matrixP=> i j; rewrite !mxE andbC. Qed.

Lemma slice_addC n (K : 'M[R]_n) r0 c0 (B : mat6) r1 c1 (C : mat6) :
  slice_add (slice_add K r0 c0 B) r1 c1 C =
  slice_add (slice_add K r1 c1 C) r0 c0 B.
Proof. by apply/matrixP=> i j; rewrite !mxE addrAC. Qed.

Lemma slice_add_shiftr n (K D : 'M[R]_n) r0 c0 (B : mat6) :
  slice_add (K + D) r0 c0 B = K + slice_add D r0 c0 B.
Proof. by apply/matrixP=> i j; rewrite !mxE addrA. Qed.

Lemma congruence_tr (T k : mat12) :
  k^T = k -> (T^T *m k *m T)^T = T^T *m k *m T.
Proof. by move=> sym_k; rewrite !trmx_mul trmxK sym_k mulmxA. Qed.

Lemma node_coords_some i :
  (i < size (nodes dm))%N -> node_coords dm i = Some (nth 0 (nodes dm) i).
Proof. by rewrite /node_coords => ->. Qed.

Lemma stiffness_step_total (K : 'M[R]_ndof) el :
  ((node_indices el).1 < size (nodes dm))%N ->
  ((node_indices el).2 < size (nodes dm))%N ->
  exists K', stiffness_step lib K el = Some K'.
Proof.
rewrite /stiffness_step; case: (node_indices el) => i j /= lt_i lt_j.
by rewrite !node_coords_some //; eexists.
Qed.

Lemma stiffness_step_sym (K K' : 'M[R]_ndof) el :
  symmetric_library -> ~~ has_release el -> K^T = K ->
  stiffness_step lib K el = Some K' -> K'^T = K'.
Proof.
move=> sym_lib /negbTE no_rel sym_K; rewrite /stiffness_step.
case: (node_indices el) => i j.
case: (node_coords dm i) => [p1|] //; case: (node_coords dm j) => [p2|] //.
set kg := _ *m _ *m _ => -[<-].
have sym_kg : kg^T = kg.
  by apply: congruence_tr; rewrite /element_k_local no_rel; apply: sym_lib.
rewrite !slice_add_tr trmx_ulsub trmx_ursub trmx_dlsub trmx_drsub sym_kg sym_K.
by congr (slice_add _ _ _ _); apply: slice_addC.
Qed.

Lemma build_stiffness_sym (K : 'M[R]_ndof) :
  symmetric_library -> all (fun el => ~~ has_release el) (elements dm) ->
  valid_node_indices -> K^T = K ->
  exists2 K', _build_stiffness lib K = Some K' & K'^T = K'.
Proof.
move=> sym_lib; rewrite /_build_stiffness /valid_node_indices.
elim: (elements dm) K => [|el els IHels] K /=; first by exists K.
case/andP=> no_rel no_rels /andP[/andP[lt_i lt_j] valid] sym_K.
have [K1 step] := stiffness_step_total K lt_i lt_j.
by rewrite step; apply: IHels => //; apply: stiffness_step_sym step.
Qed.

(** Condensation keeps a symmetric matrix symmetric, so the invariant holds
    with releases too. *)

Lemma ix_tr (k : mat12) (rows cols : seq 'I_12) :
  (ix_ k rows cols)^T = ix_ k^T cols rows.
Proof. by apply/matrixP=> i j; rewrite !mxE. Qed.

Lemma scatter_kept_tr (idx_k : seq 'I_12) (Ks : 'M[R]_(size idx_k)) :
  (scatter_kept Ks)^T = scatter_kept Ks^T.
Proof.
apply/matrixP=> r c; rewrite !mxE.
by case: insub => [r_i|]; case: insub => [c_i|] //; rewrite mxE.
Qed.

Lemma condense_matrix_sym (k : mat12) rels :
  k^T = k -> (_condense_matrix k rels)^T = _condense_matrix k rels.
Proof.
move=> sym_k; rewrite /_condense_matrix; case: ifP => // _.
rewrite /linalg_inv; case: ifP => // unit_cc.
set Ks := _ - _; have sym_Ks : Ks^T = Ks.
  rewrite /Ks linearB /= !trmx_mul trmx_inv !ix_tr sym_k.
  by rewrite mulmxA.
have sym_final r c : scatter_kept Ks c r = scatter_kept Ks r c.
  by rewrite -[in RHS]sym_Ks -scatter_kept_tr [RHS]mxE.
move: (scatter_kept Ks) sym_final => k_final sym_final.
apply/matrixP=> r c; rewrite !mxE sym_final; congr (_ + _).
by have [->|ne_cr] := eqVneq c r.
Qed.

Lemma element_k_local_sym el :
  symmetric_library -> (element_k_local lib el)^T = element_k_local lib el.
Proof.
move=> sym_lib; rewrite /element_k_local; case: ifP => _; last exact: sym_lib.
exact/condense_matrix_sym/sym_lib.
Qed.

Lemma stiffness_step_sym_released (K K' : 'M[R]_ndof) el :
  symmetric_library -> K^T = K ->
  stiffness_step lib K el = Some K' -> K'^T = K'.
Proof.
move=> sym_lib sym_K; rewrite /stiffness_step.
case: (node_indices el) => i j.
case: (node_coords dm i) => [p1|] //; case: (node_coords dm j) => [p2|] //.
set kg := _ *m _ *m _ => -[<-].
have sym_kg : kg^T = kg by apply/congruence_tr/element_k_local_sym.
rewrite !slice_add_tr trmx_ulsub trmx_ursub trmx_dlsub trmx_drsub sym_kg sym_K.
by congr (slice_add _ _ _ _); apply: slice_addC.
Qed.

Lemma build_stiffness_sym_released (K : 'M[R]_ndof) :
  symmetric_library -> valid_node_indices -> K^T = K ->
  exists2 K', _build_stiffness lib K = Some K' & K'^T = K'.
Proof.
move=> sym_lib; rewrite /_build_stiffness /valid_node_indices.
elim: (elements dm) K => [|el els IHels] K /=; first by exists K.
case/andP=> /andP[lt_i lt_j] valid sym_K.
have [K1 step] := stiffness_step_total K lt_i lt_j.
by rewrite step; apply: IHels => //; apply: stiffness_step_sym_released step.
Qed.

Lemma stiffness_step_translating el :
  translating ((@stiffness_step R lib dm)^~ el).
Proof.
move=> K; rewrite /stiffness_step; case: (node_indices el) => i j.
case: (node_coords dm i) => [p1|] //; case: (node_coords dm j) => [p2|] //=.
by rewrite -!slice_add_shiftr addr0.
Qed.

Lemma build_stiffness_translating : translating (@_build_stiffness R lib dm).
Proof. exact/translating_foldM/stiffness_step_translating. Qed.

(** *** The member-load loop *)

Lemma ohead_filter_all (A : Type) (Q S : pred A) (s : seq A) (x : A) :
  all Q s -> ohead (filter S s) = Some x -> Q x.
Proof.
elim: s => [|y s IHs] //= /andP[Qy Qs].
by case: (S y) => [[<-]|] //=; apply: IHs.
Qed.

Lemma find_element_valid eid el :
  valid_node_indices -> find_element dm eid = Some el ->
  ((node_indices el).1 < size (nodes dm))%N /\
  ((node_indices el).2 < size (nodes dm))%N.
Proof. by move=> valid /(ohead_filter_all valid) /andP[]. Qed.

Lemma slice_sub_shiftr n (P D : 'cV[R]_n) r0 (v : vec6) :
  slice_sub (P + D) r0 v = P + slice_sub D r0 v.
Proof. by apply/colP=> i; rewrite !mxE addrA. Qed.

Lemma slice_sub0 n (P : 'cV[R]_n) r0 : slice_sub P r0 0 = P.
Proof. by apply/colP=> i; rewrite !mxE if_same subr0. Qed.

Lemma member_load_step_translating ld :
  translating ((@member_load_step R lib dm)^~ ld).
Proof.
move=> P; rewrite /member_load_step.
case: (active_scale _ _) => [scale|]; last exact: translating_id.
case: (load_element_id _) => [eid|]; last exact: translating_id.
case: (find_element _ _) => [el|]; last exact: translating_id.
case: (node_indices el) => i j.
case: (node_coords dm i) => [p1|] //; case: (node_coords dm j) => [p2|] //.
case: (member_fef_global _ _ _ _ _ _) => [fg|]; last exact: translating_id.
by rewrite /= -!slice_sub_shiftr addr0.
Qed.

Lemma add_member_loads_translating : translating (@_add_member_loads R lib dm).
Proof. exact/translating_foldM/member_load_step_translating. Qed.

Lemma member_load_step_total (P : 'cV[R]_ndof) ld :
  valid_node_indices -> exists P', member_load_step lib P ld = Some P'.
Proof.
move=> valid; rewrite /member_load_step.
case: (active_scale _ _) => [scale|]; last by exists P.
case: (load_element_id _) => [eid|]; last by exists P.
case E: (find_element _ _) => [el|]; last by exists P.
have [] := find_element_valid valid E.
case: (node_indices el) => i j /= lt_i lt_j; rewrite !node_coords_some //.
by case: (member_fef_global _ _ _ _ _ _) => [fg|]; eexists.
Qed.

Lemma foldM_total (S A : Type) (f : S -> A -> option S) (xs : seq A) :
  (forall s x, exists s', f s x = Some s') ->
  forall s, exists s', foldM f s xs = Some s'.
Proof.
move=> total; elim: xs => [|x xs IHxs] s /=; first by exists s.
by have [s1 ->] := total s x; apply: IHxs.
Qed.

Lemma add_member_loads_total (P : 'cV[R]_ndof) :
  valid_node_indices -> exists P', _add_member_loads lib P = Some P'.
Proof.
by move=> valid; apply: foldM_total => s x; apply: member_load_step_total.
Qed.

Lemma assemble_system_shift (K0 : 'M[R]_ndof) (P0 : 'cV[R]_ndof) :
  assemble_system lib (Assembler K0 P0) =
  omap (fun st => Assembler (K0 + self_K st) (P0 + self_P st))
       (assemble_system lib (GlobalAssembler_init dm)).
Proof.
rewrite /assemble_system /= build_stiffness_translating.
case: (_build_stiffness lib 0) => [K1|] //=.
rewrite add0r add_member_loads_translating.
rewrite [in RHS]add_member_loads_translating.
by case: (_add_member_loads lib 0) => [P1|] //=; rewrite addrA.
Qed.

(** Claim C2.  When no element has a release flag set, the Element Model
    returns symmetric local stiffness matrices and every element refers to
    existing nodes, [assemble_system] on a new assembler returns, and the
    stiffness matrix [K] it returns equals its transpose; each step of the
    element loop (the scatter-add of the four 6x6 blocks of [T^T k_local T])
    takes a symmetric [K] to a symmetric [K]. *)
Theorem assembled_stiffness_symmetric :
  symmetric_library -> all (fun el => ~~ has_release el) (elements dm) ->
  valid_node_indices ->
  (exists2 st, assemble_system lib (GlobalAssembler_init dm) = Some st
             & (self_K st)^T = self_K st) /\
  (forall (K K' : 'M[R]_ndof) el,
     ~~ has_release el -> K^T = K ->
     stiffness_step lib K el = Some K' -> K'^T = K').
Proof.
move=> sym_lib no_rel valid; split; last first.
  by move=> K K' el; apply: stiffness_step_sym.
rewrite /assemble_system /=.
have [K' -> sym_K'] := build_stiffness_sym sym_lib no_rel valid (trmx0 _ _ _).
have [P' ->] := add_member_loads_total (0 + build_load_vector dm) valid.
by exists (Assembler K' P').
Qed.

(** *** Index arithmetic *)




Lemma dof_index_eq (k d j e : nat) :
  (d < 6)%N -> (e < 6)%N ->
  (k * 6 + d == j * 6 + e)%N = (k == j) && (d == e).
Proof.
move=> lt_d lt_e; apply/idP/idP => [eq_idx|/andP[/eqP-> /eqP->] //].
by apply/andP; split; nat_lia.
Qed.

Lemma in_block3E (s r : nat) :
  in_block 3 s r = [|| r == s + 0, r == s + 1 | r == s + 2]%N.
Proof.
rewrite /in_block; apply/idP/idP => [/andP[le_s lt_r]|].
  have [|ne0] := eqVneq r (s + 0)%N; first by [].
  have [|ne1] := eqVneq r (s + 1)%N; first by [].
  by rewrite /=; nat_lia.
by case/or3P=> /eqP->; apply/andP; split; nat_lia.
Qed.

(** *** Accumulating on the diagonal of the mass matrix *)







Lemma mat_at_diag_add n (M M' : 'M[R]_n) (i : nat) (x : R) (r c : nat) :
  diag_add M i x = Some M' ->
  mat_at M' r c = mat_at M r c + (if (r == i) && (c == i) then x else 0).
Proof.
rewrite /diag_add; case: ifP => // lt_i [<-]; rewrite /mat_at.
case: insubP => [r' _ r'E|ge_r]; last first.
  by rewrite (negbTE (_ : r != i)) ?addr0 //; nat_lia.
case: insubP => [c' _ c'E|ge_c]; first by rewrite mxE r'E c'E.
by rewrite (negbTE (_ : c != i)) ?andbF ?addr0 //; nat_lia.
Qed.

Lemma diag_add_some n (M : 'M[R]_n) (i : nat) (x : R) :
  (i < n)%N -> exists M', diag_add M i x = Some M'.
Proof. by rewrite /diag_add => ->; eexists. Qed.

Lemma diag_add_translating n (i : nat) (x : R) :
  translating (fun M : 'M[R]_n => diag_add M i x).
Proof.
move=> M; rewrite /diag_add; case: ifP => //= _; congr Some.
by apply/matrixP=> r c; rewrite !mxE add0r.
Qed.

Lemma diag_add3_translating n (s : nat) (x : R) :
  translating (fun M : 'M[R]_n => diag_add3 M s x).
Proof.
apply: translating_bind; first exact: diag_add_translating.
by apply: translating_bind; exact: diag_add_translating.
Qed.

Lemma diag_add3_entries n (M : 'M[R]_n) (s : nat) (x : R) :
  (s + 2 < n)%N ->
  exists2 M', diag_add3 M s x = Some M'
    & forall r c, mat_at M' r c =
        mat_at M r c + (if (r == c) && in_block 3 s r then x else 0).
Proof.
move=> lt_s; rewrite /diag_add3.
have lt_s0 : (s + 0 < n)%N by nat_lia.
have lt_s1 : (s + 1 < n)%N by nat_lia.
have [M0 E0] := diag_add_some M x lt_s0.
have [M1 E1] := diag_add_some M0 x lt_s1.
have [M2 E2] := diag_add_some M1 x lt_s.
rewrite E0 E1 E2; exists M2 => // r c.
rewrite (mat_at_diag_add _ _ E2) (mat_at_diag_add _ _ E1).
rewrite (mat_at_diag_add _ _ E0) in_block3E -!addrA; congr (_ + _).
have [->|ne_rc] := eqVneq r c; last first.
  have both_false i : (r == i) && (c == i) = false.
    by apply/negP => /andP[/eqP r_i /eqP c_i]; rewrite r_i c_i eqxx in ne_rc.
  by rewrite !both_false !addr0.
rewrite !andbb /=.
have [->|ne0] := eqVneq c (s + 0)%N.
  by rewrite !eqn_add2l /= !addr0.
have [->|ne1] := eqVneq c (s + 1)%N.
  by rewrite /= eqn_add2l /= add0r addr0.
by have [_|_] := eqVneq c (s + 2)%N; rewrite /= !add0r.
Qed.

Lemma foldM_entries n (A : Type) (f : 'M[R]_n -> A -> option 'M[R]_n)
    (contrib : A -> nat -> nat -> R) (ok : pred A) (xs : seq A) :
  (forall M x, ok x ->
     exists2 M', f M x = Some M'
       & forall r c, mat_at M' r c = mat_at M r c + contrib x r c) ->
  all ok xs ->
  forall M,
    exists2 M', foldM f M xs = Some M'
      & forall r c, mat_at M' r c =
          mat_at M r c + \sum_(x <- xs) contrib x r c.
Proof.
move=> step; elim: xs => [|x xs IHxs] /=.
  by move=> _ M; exists M => // r c; rewrite big_nil addr0.
case/andP=> ok_x ok_xs M; have [M1 -> M1E] := step M x ok_x.
have [M2 -> M2E] := IHxs ok_xs M1; exists M2 => // r c.
by rewrite M2E M1E big_cons addrA.
Qed.



Lemma node_block_mass_diag (k k0 d : nat) (x : R) :
  (d < 3)%N ->
  node_block_mass k x (k0 * 6 + d) (k0 * 6 + d) = if k0 == k then x else 0.
Proof.
move=> lt_d; rewrite /node_block_mass eqxx in_block3E /=.
have lt_d6 : (d < 6)%N by nat_lia.
rewrite !dof_index_eq //; case: (k0 == k) => //=.
by case: d lt_d {lt_d6} => [|[|[|d]]].
Qed.

Lemma node_block_mass_off (k : nat) (x : R) (r c : nat) :
  ~~ translational_diagonal r c -> node_block_mass k x r c = 0.
Proof.
rewrite /translational_diagonal /node_block_mass.
case: (r == c) => //=; rewrite in_block3E -leqNgt => ge3.
by case: ifP => // /or3P[] /eqP r_eq; move: ge3; rewrite r_eq modnMDl.
Qed.

Lemma eq_big_all (A : Type) (ok : pred A) (F G : A -> R) (xs : seq A) :
  all ok xs -> (forall x, ok x -> F x = G x) ->
  \sum_(x <- xs) F x = \sum_(x <- xs) G x.
Proof.
move=> ok_xs eqFG; elim: xs ok_xs => [|x xs IHxs] /=; first by rewrite !big_nil.
by case/andP=> ok_x ok_xs; rewrite !big_cons eqFG // IHxs.
Qed.

Lemma sum_node_block_mass (k d : nat) (x : R) :
  (k < size (nodes dm))%N -> (d < 3)%N ->
  \sum_(0 <= k0 < size (nodes dm))
     node_block_mass k x (k0 * 6 + d) (k0 * 6 + d) = x.
Proof.
move=> lt_k lt_d.
under eq_bigr => k0 _ do rewrite node_block_mass_diag //.
by rewrite -big_mkcond big_nat1_eq /= lt_k.
Qed.

Lemma valid_dof (k : nat) :
  (k < size (nodes dm))%N -> (k * 6 + 2 < ndof)%N.
Proof. by rewrite /total_dofs => lt_k; nat_lia. Qed.

(** *** Element self-mass *)

Lemma self_mass_step_entries (M : 'M[R]_ndof) (el : element R) :
  valid_element el ->
  exists2 M', self_mass_step M el = Some M'
    & forall r c, mat_at M' r c =
        mat_at M r c +
        (node_block_mass (node_indices el).1 (element_mass el / 2) r c +
         node_block_mass (node_indices el).2 (element_mass el / 2) r c).
Proof.
case/andP=> /valid_dof lt_i /valid_dof lt_j; rewrite /self_mass_step /=.
have [M1 -> M1E] := diag_add3_entries M (element_mass el / 2) lt_i.
have [M2 -> M2E] := diag_add3_entries M1 (element_mass el / 2) lt_j.
by exists M2 => // r c; rewrite M2E M1E addrA.
Qed.

Lemma self_mass_step_translating el :
  translating ((@self_mass_step R dm)^~ el).
Proof.
by apply: translating_foldM => k; apply: diag_add3_translating.
Qed.

Lemma add_element_self_mass_translating :
  translating (@_add_element_self_mass R dm).
Proof. exact/translating_foldM/self_mass_step_translating. Qed.

Lemma add_element_self_mass_entries (M : 'M[R]_ndof) :
  valid_node_indices ->
  exists2 M', _add_element_self_mass M = Some M'
    & forall r c, mat_at M' r c =
        mat_at M r c +
        \sum_(el <- elements dm)
           (node_block_mass (node_indices el).1 (element_mass el / 2) r c +
            node_block_mass (node_indices el).2 (element_mass el / 2) r c).
Proof.
move=> valid; apply: (foldM_entries (ok := valid_element)) => //.
by move=> M0 el; apply: self_mass_step_entries.
Qed.

Lemma self_mass_direction (M M' : 'M[R]_ndof) (d : nat) :
  valid_node_indices -> (d < 3)%N ->
  _add_element_self_mass M = Some M' ->
  direction_mass M' d = direction_mass M d + total_self_mass.
Proof.
move=> valid lt_d; have [M1 -> M1E [<-]] := add_element_self_mass_entries M valid.
rewrite /direction_mass /total_self_mass.
under eq_bigr => k _ do rewrite M1E.
rewrite big_split /= exchange_big /=; congr (_ + _).
apply: (eq_big_all (ok := valid_element)) => // el /andP[lt_i lt_j].
by rewrite big_split /= !sum_node_block_mass // -splitr.
Qed.

Lemma self_mass_off_diagonal (M M' : 'M[R]_ndof) (r c : nat) :
  valid_node_indices -> _add_element_self_mass M = Some M' ->
  ~~ translational_diagonal r c -> mat_at M' r c = mat_at M r c.
Proof.
move=> valid; have [M1 -> M1E [<-]] := add_element_self_mass_entries M valid.
move=> off; rewrite M1E big1 ?addr0 // => el _.
by rewrite !node_block_mass_off // addr0.
Qed.

Lemma translational_mass_sumE (M : 'M[R]_ndof) :
  translational_mass_sum M =
  direction_mass M 0 + direction_mass M 1 + direction_mass M 2.
Proof.
rewrite /translational_mass_sum /direction_mass -!big_split /=.
apply: eq_bigr => k _.
by rewrite big_nat_recr //= big_nat_recr //= big_nat1.
Qed.

(** *** Net nodal forces converted to mass *)

Lemma foldM_map (S A B : Type) (f : S -> B -> option S) (h : A -> B)
    (s : S) (xs : seq A) :
  foldM f s (map h xs) = foldM (fun s x => f s (h x)) s xs.
Proof.
by elim: xs s => [|x xs IHxs] s //=; case: (f s (h x)).
Qed.

Lemma range_dofs (n : nat) :
  range_step 2 (6 * n) 6 = [seq 2 + 6 * k | k <- iota 0 n]%N.
Proof.
rewrite /range_step; congr (map _ (iota 0 _)); case: n => [|n] //.
have -> : (6 * n.+1 - 2 + 6.-1 = n.+1 * 6 + 3)%N by nat_lia.
by rewrite divnMDl // addn0.
Qed.

Lemma node_block_mass_diag_sym (k k0 d : nat) (x : R) :
  (d < 3)%N ->
  node_block_mass k x (k0 * 6 + d) (k0 * 6 + d) = if k == k0 then x else 0.
Proof. by move=> lt_d; rewrite node_block_mass_diag // eq_sym. Qed.

Lemma net_mass_step_entries (F : 'cV[R]_ndof) (M : 'M[R]_ndof) (k : nat) :
  (k < size (nodes dm))%N ->
  exists2 M', net_mass_step F M (2 + 6 * k) = Some M'
    & forall r c, mat_at M' r c =
        mat_at M r c + node_block_mass k (node_net_mass F k) r c.
Proof.
move=> /valid_dof lt_k; rewrite /net_mass_step /node_net_mass.
have -> : (2 + 6 * k = k * 6 + 2)%N by nat_lia.
case: ifP => _; last first.
  by exists M => // r c; rewrite /node_block_mass if_same addr0.
have -> : (k * 6 + 2 - 2 = k * 6 + 0)%N by nat_lia.
have -> : (k * 6 + 2 - 1 = k * 6 + 1)%N by nat_lia.
exact: diag_add3_entries.
Qed.

Lemma net_mass_step_translating (F : 'cV[R]_ndof) (i : nat) :
  translating ((net_mass_step F)^~ i).
Proof.
rewrite /net_mass_step; apply: translating_if; last exact: translating_id.
apply: translating_bind; first exact: diag_add_translating.
by apply: translating_bind; exact: diag_add_translating.
Qed.

Lemma convert_net_forces_translating (F : 'cV[R]_ndof) :
  translating (convert_net_forces F).
Proof. exact/translating_foldM/net_mass_step_translating. Qed.

Lemma convert_net_forces_entries (F : 'cV[R]_ndof) (M : 'M[R]_ndof) :
  exists2 M', convert_net_forces F M = Some M'
    & forall r c, mat_at M' r c =
        mat_at M r c +
        \sum_(k <- iota 0 (size (nodes dm)))
           node_block_mass k (node_net_mass F k) r c.
Proof.
rewrite /convert_net_forces /total_dofs range_dofs foldM_map.
apply: (foldM_entries (ok := fun k => (k < size (nodes dm))%N)).
  by move=> M0 k; apply: net_mass_step_entries.
by apply/allP=> k; rewrite mem_iota.
Qed.

Lemma convert_net_forces_node (F : 'cV[R]_ndof) (M M' : 'M[R]_ndof) k d :
  convert_net_forces F M = Some M' ->
  (k < size (nodes dm))%N -> (d < 3)%N ->
  mat_at M' (k * 6 + d) (k * 6 + d) =
  mat_at M (k * 6 + d) (k * 6 + d) + node_net_mass F k.
Proof.
have [M1 -> M1E [<-]] := convert_net_forces_entries F M => lt_k lt_d.
rewrite M1E; congr (_ + _).
under eq_bigr => k0 _ do rewrite node_block_mass_diag_sym //.
rewrite -big_mkcond /= -[X in iota 0 X]subn0 -/(index_iota 0 _).
by rewrite big_nat1_eq /= lt_k.
Qed.

Lemma convert_net_forces_off (F : 'cV[R]_ndof) (M M' : 'M[R]_ndof) r c :
  convert_net_forces F M = Some M' ->
  ~~ translational_diagonal r c -> mat_at M' r c = mat_at M r c.
Proof.
have [M1 -> M1E [<-]] := convert_net_forces_entries F M => off.
by rewrite M1E big1 ?addr0 // => k _; rewrite node_block_mass_off.
Qed.

Lemma vec_at0 n (i : nat) : vec_at (0 : 'cV[R]_n) i = 0.
Proof. by rewrite /vec_at; case: insubP => // i' _ _; rewrite mxE. Qed.

Lemma node_net_mass_ge0 (F : 'cV[R]_ndof) (k : nat) : 0 <= node_net_mass F k.
Proof.
rewrite /node_net_mass; case: ifP => // _.
by rewrite divr_ge0 // /g; lra.
Qed.

Lemma net_nodal_forces_nil : net_nodal_forces lib dm [::] = Some 0.
Proof.
by rewrite /net_nodal_forces; elim: (raw_loads dm) => [|ld lds IHlds].
Qed.

Lemma add_mass_from_net_loads_some pats (F : 'cV[R]_ndof) (M : 'M[R]_ndof) :
  net_nodal_forces lib dm pats = Some F ->
  _add_mass_from_net_loads lib pats M = convert_net_forces F M
  \/ (F = 0 /\ _add_mass_from_net_loads lib pats M = Some M).
Proof.
rewrite /_add_mass_from_net_loads; case: pats => [|pat pats] /=.
  by rewrite net_nodal_forces_nil => -[<-]; right.
by move=> ->; left.
Qed.

Lemma add_mass_from_net_loads_translating pats :
  translating (@_add_mass_from_net_loads R lib dm pats).
Proof.
rewrite /_add_mass_from_net_loads; apply: translating_if.
  exact: translating_id.
case: (net_nodal_forces _ _ _) => [F|]; last exact: translating_none.
exact: convert_net_forces_translating.
Qed.

(** Claim C6.  After the net nodal forces [F] have been accumulated, the
    pattern-derived path adds to each of the three translational diagonal
    entries of every node the mass [node_net_mass F k], which is [|Fz| / g]
    with [g = 9.80665] when the net Z force [Fz] of the node is below
    [-1e-5] and zero otherwise (any upward net force included); it is never
    negative, and no other entry of [M] changes. *)
Theorem net_force_mass_conversion pats (F : 'cV[R]_ndof) (M : 'M[R]_ndof) :
  net_nodal_forces lib dm pats = Some F ->
  exists M' : 'M[R]_ndof,
    [/\ _add_mass_from_net_loads lib pats M = Some M',
        forall k d, (k < size (nodes dm))%N -> (d < 3)%N ->
          mat_at M' (k * 6 + d) (k * 6 + d) =
          mat_at M (k * 6 + d) (k * 6 + d) + node_net_mass F k,
        forall r c, ~~ translational_diagonal r c ->
          mat_at M' r c = mat_at M r c
      & forall k,
          let Fz := vec_at F (k * 6 + 2) in
          [/\ Fz < - (1 / 10 ^+ 5) ->
                node_net_mass F k = `|Fz| / (980665%:R / 100000%:R),
              - (1 / 10 ^+ 5) <= Fz -> node_net_mass F k = 0
            & 0 <= node_net_mass F k]].
Proof.
move=> net_F; have [M' M'E M'_entries] := convert_net_forces_entries F M.
have mass_cases k :
  let Fz := vec_at F (k * 6 + 2) in
  [/\ Fz < - (1 / 10 ^+ 5) ->
        node_net_mass F k = `|Fz| / (980665%:R / 100000%:R),
      - (1 / 10 ^+ 5) <= Fz -> node_net_mass F k = 0
    & 0 <= node_net_mass F k].
  move=> Fz; split; last exact: node_net_mass_ge0.
    by rewrite /node_net_mass -/Fz => ->.
  by rewrite /node_net_mass -/Fz leNgt => /negbTE ->.
case: (add_mass_from_net_loads_some M net_F) => [E|[F0 E]].
  exists M'; split=> //; first by rewrite E.
    by move=> k d lt_k lt_d; apply: convert_net_forces_node.
  by move=> r c; apply: (convert_net_forces_off M'E).
exists M; split=> // k d lt_k lt_d.
rewrite F0 /node_net_mass vec_at0; case: ifP; rewrite ?addr0 // => /idP lt0.
by clear -lt0; lra.
Qed.

(** *** Mass conservation of the element self-mass *)

Lemma mat_at0 n (i j : nat) : mat_at (0 : 'M[R]_n) i j = 0.
Proof.
by rewrite /mat_at; case: insubP => // i' _ _; case: insubP => // j' _ _; rewrite mxE.
Qed.

Lemma direction_mass0 (d : nat) : direction_mass (0 : 'M[R]_ndof) d = 0.
Proof. by rewrite /direction_mass big1 // => k _; rewrite mat_at0. Qed.

Lemma self_mass_from_zero :
  valid_node_indices ->
  exists M : 'M[R]_ndof,
    [/\ _add_element_self_mass 0 = Some M,
        forall d, (d < 3)%N -> direction_mass M d = total_self_mass,
        translational_mass_sum M = 3 * total_self_mass
      & forall r c, ~~ translational_diagonal r c -> mat_at M r c = 0].
Proof.
move=> valid; have [M M_E _] := add_element_self_mass_entries 0 valid.
have dirE d : (d < 3)%N -> direction_mass M d = total_self_mass.
  by move=> lt_d; rewrite (self_mass_direction valid lt_d M_E) direction_mass0 add0r.
exists M; split=> // [|r c off].
  by rewrite translational_mass_sumE !dirE //; ring.
by rewrite (self_mass_off_diagonal valid M_E off) mat_at0.
Qed.

(** *** The assemblers keep what they accumulated *)

Lemma build_mass_matrix_shift (name : string) (M0 : 'M[R]_ndof) :
  build_mass_matrix lib name (MassAssembler M0) =
  omap (fun st => MassAssembler (M0 + self_M st))
       (build_mass_matrix lib name (GlobalMassAssembler_init dm)).
Proof.
rewrite /build_mass_matrix; case: (_find_mass_source _ _) => [ms|] /=; last first.
  by rewrite addr0.
pose h (M : 'M[R]_ndof) :=
  if (if include_self_mass ms then _add_element_self_mass M else Some M)
    is Some M1
  then (if include_patterns ms
        then _add_mass_from_net_loads lib (load_patterns ms) M1 else Some M1)
  else None.
have tr_h : translating h.
  apply: translating_bind.
    by apply: translating_if;
      [exact: add_element_self_mass_translating | exact: translating_id].
  by apply: translating_if;
    [exact: add_mass_from_net_loads_translating | exact: translating_id].
have hE M : (if include_patterns ms
             then obind (_add_mass_from_net_loads lib (load_patterns ms))
                    (if include_self_mass ms then _add_element_self_mass M
                     else Some M)
             else if include_self_mass ms then _add_element_self_mass M
                  else Some M) = h M.
  rewrite /h; case: (include_patterns ms); last by case: (if _ then _ else _).
  by case: (if _ then _ else _).
by rewrite !hE tr_h; case: (h 0).
Qed.

Lemma build_mass_matrix_self_only (name : string) (ms : mass_source R)
    (st : GlobalMassAssembler dm) :
  _find_mass_source dm name = Some ms ->
  include_self_mass ms -> ~~ include_patterns ms ->
  build_mass_matrix lib name st =
  omap (@MassAssembler R dm) (_add_element_self_mass (self_M st)).
Proof. by rewrite /build_mass_matrix => -> -> /negbTE ->. Qed.

(** *** A point load that cannot be solved *)

Lemma exact_fef_degenerate (L a : R) (Pv : vec3) mat sec :
  L = 0 \/
  K_mid_of (local_stiffness lib mat sec a a)
           (local_stiffness lib mat sec (L - a) (L - a)) \notin unitmx ->
  _get_exact_fef_via_stiffness lib L a Pv mat sec = 0.
Proof.
rewrite /_get_exact_fef_via_stiffness; case=> [->|singular].
  by rewrite eqxx.
by case: ifP => // _; rewrite linalg_solve_singular.
Qed.

Lemma take_idx0 (rows : seq 'I_12) : take_idx (0 : vec12) rows = 0.
Proof. by apply/colP=> i; rewrite !mxE. Qed.

Lemma scatter_vec0 (rows : seq 'I_12) : scatter_vec (0 : 'cV[R]_(size rows)) = 0.
Proof. by apply/colP=> i; rewrite !mxE; case: insub => // r; rewrite mxE. Qed.

Lemma condense_fef0 (k : mat12) rels : _condense_fef k 0 rels = 0.
Proof.
rewrite /_condense_fef; case: ifP => // _; case: (linalg_inv _) => // Kinv.
by rewrite !take_idx0 !mulmx0 subr0 scatter_vec0.
Qed.

Lemma usubmx0 m1 m2 n : usubmx (0 : 'M[R]_(m1 + m2, n)) = 0.
Proof. by apply/matrixP=> i j; rewrite !mxE. Qed.

Lemma dsubmx0 m1 m2 n : dsubmx (0 : 'M[R]_(m1 + m2, n)) = 0.
Proof. by apply/matrixP=> i j; rewrite !mxE. Qed.

Lemma point_load_zero_fef_global eid force dir coord dist is_rel scale el p1 p2 :
  (let a := (if is_rel then dist * L_total el else dist)
            - odflt 0 (end_off_i el) in
   forall Pv, _get_exact_fef_via_stiffness lib (L_clear el) a Pv
                (el_material el) (el_section el) = 0) ->
  member_fef_global lib (MemberPoint eid force dir coord dist is_rel)
    scale el p1 p2 = None \/
  member_fef_global lib (MemberPoint eid force dir coord dist is_rel)
    scale el p1 p2 = Some 0.
Proof.
move=> /= zero_fef; rewrite /member_fef_global /member_fef_local.
case: (_parse_load_direction _ dir) => [[idx_dir sign]|]; last by left.
right; rewrite zero_fef if_same /rigid_end_correction /=.
by case: ifP => _; rewrite ?condense_fef0 mulmx0.
Qed.

Lemma foldM_total_all (S A : Type) (f : S -> A -> option S) (ok : pred A)
    (xs : seq A) :
  (forall s x, ok x -> exists s', f s x = Some s') -> all ok xs ->
  forall s, exists s', foldM f s xs = Some s'.
Proof.
move=> total; elim: xs => [|x xs IHxs] /=; first by move=> _ s; exists s.
by case/andP=> ok_x ok_xs s; have [s1 ->] := total s x ok_x; apply: IHxs.
Qed.

Lemma build_stiffness_total (K : 'M[R]_ndof) :
  valid_node_indices -> exists K', _build_stiffness lib K = Some K'.
Proof.
move=> valid; apply: (foldM_total_all (ok := valid_element)) => //.
by move=> K0 el /andP[lt_i lt_j]; apply: stiffness_step_total.
Qed.

Lemma assemble_system_total (st : GlobalAssembler dm) :
  valid_node_indices -> exists st', assemble_system lib st = Some st'.
Proof.
move=> valid; rewrite /assemble_system.
have [K' ->] := build_stiffness_total (self_K st) valid.
have [P' ->] := add_member_loads_total (self_P st + build_load_vector dm) valid.
by eexists.
Qed.

(** Claim C7, as the code has it.  With self-mass enabled and every element
    referring to existing nodes, [_add_element_self_mass] on the zero matrix
    returns a matrix [M] in which each element has added half of its mass
    [A * (rho / g) * L_total] to the three translational diagonal entries of
    each of its two end nodes and nothing anywhere else; for each single
    translational direction the sum over the nodes of the diagonal entries
    equals the sum of the element masses (mass conservation), so the sum of
    all translational diagonal entries is three times that sum. *)
Theorem self_mass_conservation :
  valid_node_indices ->
  exists M : 'M[R]_ndof,
    [/\ _add_element_self_mass 0 = Some M,
        forall r c, mat_at M r c =
          \sum_(el <- elements dm)
            (node_block_mass (node_indices el).1 (element_mass el / 2) r c +
             node_block_mass (node_indices el).2 (element_mass el / 2) r c),
        forall r c, ~~ translational_diagonal r c -> mat_at M r c = 0,
        forall d, (d < 3)%N -> direction_mass M d = total_self_mass
      & translational_mass_sum M = 3 * total_self_mass].
Proof.
move=> valid; have [M [M_E dirE sumE offE]] := self_mass_from_zero valid.
have [M' M'_E M'_entries] := add_element_self_mass_entries 0 valid.
have eq_M : M' = M by move: M'_E; rewrite M_E => -[].
by exists M; split=> // r c; rewrite -eq_M M'_entries mat_at0 add0r.
Qed.

(** Claim C9, as the code has it.  The assemblers keep their accumulators
    between calls: [build_mass_matrix] on an assembler holding [M0] returns
    [M0] plus the matrix a new assembler returns for the same snapshot and
    source name, and [assemble_system] on an assembler holding [K0], [P0]
    returns [K0], [P0] plus what a new assembler returns; in particular a
    second call through the same object returns twice the result of the
    first. *)
Theorem assemblers_accumulate (name : string)
    (M0 : 'M[R]_ndof) (K0 : 'M[R]_ndof) (P0 : 'cV[R]_ndof) :
  let fresh_M := build_mass_matrix lib name (GlobalMassAssembler_init dm) in
  let fresh_KP := assemble_system lib (GlobalAssembler_init dm) in
  [/\ build_mass_matrix lib name (MassAssembler M0) =
        omap (fun st => MassAssembler (M0 + self_M st)) fresh_M,
      assemble_system lib (Assembler K0 P0) =
        omap (fun st => Assembler (K0 + self_K st) (P0 + self_P st)) fresh_KP,
      obind (@build_mass_matrix R lib dm name) fresh_M =
        omap (fun st => MassAssembler (self_M st + self_M st)) fresh_M
    & obind (@assemble_system R lib dm) fresh_KP =
        omap (fun st => Assembler (self_K st + self_K st)
                                  (self_P st + self_P st)) fresh_KP].
Proof.
move=> fresh_M fresh_KP; split.
- exact: build_mass_matrix_shift.
- exact: assemble_system_shift.
- rewrite /fresh_M; case E: (build_mass_matrix _ _ _) => [[M1]|] //=.
  by rewrite build_mass_matrix_shift E.
- rewrite /fresh_KP; case E: (assemble_system _ _) => [[K1 P1]|] //=.
  by rewrite assemble_system_shift E.
Qed.

(** Claim C10.  For a point load whose member has clear length zero or
    whose mid stiffness is singular (the 6x6 solve raises),
    [_get_exact_fef_via_stiffness] returns the zero 12-vector, the load
    leaves the load vector [P] as it was, and, every element referring to
    existing nodes, [assemble_system] returns. *)
Theorem unsolvable_point_load_is_skipped
    (st : GlobalAssembler dm) (P : 'cV[R]_ndof) (ld : load R)
    eid force dir coord dist is_rel (el : element R) :
  let a := (if is_rel then dist * L_total el else dist)
           - odflt 0 (end_off_i el) in
  let L := L_clear el in
  let k_left := local_stiffness lib (el_material el) (el_section el) a a in
  let k_right :=
    local_stiffness lib (el_material el) (el_section el) (L - a) (L - a) in
  valid_node_indices ->
  body ld = MemberPoint eid force dir coord dist is_rel ->
  find_element dm eid = Some el ->
  L = 0 \/ K_mid_of k_left k_right \notin unitmx ->
  [/\ forall P_vec, _get_exact_fef_via_stiffness lib L a P_vec
                      (el_material el) (el_section el) = 0,
      member_load_step lib P ld = Some P
    & exists st', assemble_system lib st = Some st'].
Proof.
move=> a L k_left k_right valid ld_point found degenerate.
have zero_fef Pv : _get_exact_fef_via_stiffness lib L a Pv
                     (el_material el) (el_section el) = 0.
  exact: exact_fef_degenerate.
split=> //; last exact: assemble_system_total.
rewrite /member_load_step; case: (active_scale _ _) => [scale|] //.
rewrite ld_point /= found; have [] := find_element_valid valid found.
case: (node_indices el) => i j /= lt_i lt_j; rewrite !node_coords_some //.
have [->|->] // := point_load_zero_fef_global eid force dir coord scale
                      (nth 0 (nodes dm) i) (nth 0 (nodes dm) j) zero_fef.
by rewrite usubmx0 dsubmx0 !slice_sub0.
Qed.

(** Claim C4, as the code has it.  For a distributed member load let [w]
    be its local intensity: the intensity [(wx, wy, wz)] of the load times
    the scale of its pattern, rotated to the local frame when the load is
    given in the Global frame, and scaled by the projection factor when the
    load is projected.  With [L] the clear length, the local
    fixed-end-force vector [f] built for the load has [f0 = f6 = - w0 L / 2],
    [f1 = f7 = - w1 L / 2], [f2 = f8 = - w2 L / 2], [f3 = f9 = 0],
    [f5 = - w1 L^2 / 12] and [f11 = + w1 L^2 / 12], [f4 = + w2 L^2 / 12] and
    [f10 = - w2 L^2 / 12]: the two end moments of a transverse component
    have opposite signs. *)
Theorem dist_load_fixed_end_forces
    eid wx wy wz coord projected (scale : R) (el : element R) (p1 p2 : vec3) :
  let L := L_clear el in
  let w_defined := scale *: vec_of_seq 3 [:: wx; wy; wz] in
  let w_frame :=
    if String.eqb coord "Global" then load_R_3x3 lib el p1 p2 *m w_defined
    else w_defined in
  let w :=
    if projected
    then (_apply_projection_factor w_frame p1 p2 (L_total el) coord).1
    else w_frame in
  exists2 f : vec12,
    member_fef_local lib (MemberDist eid wx wy wz coord projected)
      scale el p1 p2 = Some (f, w)
    & [/\ [/\ vget f 0 = - (vget w 0 * L / 2), vget f 6 = - (vget w 0 * L / 2),
             vget f 1 = - (vget w 1 * L / 2) & vget f 7 = - (vget w 1 * L / 2)],
          [/\ vget f 2 = - (vget w 2 * L / 2), vget f 8 = - (vget w 2 * L / 2),
              vget f 3 = 0 & vget f 9 = 0],
          [/\ vget f 5 = - (vget w 1 * L ^+ 2 / 12),
              vget f 11 = vget w 1 * L ^+ 2 / 12
            & vget f 5 = - vget f 11]
        & [/\ vget f 4 = vget w 2 * L ^+ 2 / 12,
              vget f 10 = - (vget w 2 * L ^+ 2 / 12)
            & vget f 4 = - vget f 10]].
Proof.
move=> L w_defined w_frame w; exists (dist_fef w L) => //.
have [[e0 e6 e1 e7] [e2 e8 e3 e9] [e5 e11] [e4 e10]] := dist_fef_entries w L.
by split; split=> //; rewrite ?e11 ?e10 ?opprK.
Qed.

(** *** The block-diagonal rotation *)

Lemma block_rotationE (R_3x3 : mat3) (r c : 'I_12) :
  block_rotation R_3x3 r c =
    if (r %/ 3 == c %/ 3)%N then R_3x3 (inord (r %% 3)) (inord (c %% 3))
    else 0.
Proof.
rewrite /block_rotation /= !mxE.
case: r => r lt_r; case: c => c lt_c /=.
do 12?[case: r lt_r => [|r] lt_r //=]; do 12?[case: c lt_c => [|c] lt_c //=].
Qed.

(** *** The two transforms *)

(** For an element without insertion offsets the load path and the
    stiffness path compose the same transform. *)
Theorem transforms_agree_without_offsets (el : element R) (p1 p2 : vec3) :
  offsets el = (0, 0) ->
  load_T_total lib el p1 p2 = stiffness_T_total lib el p1 p2.
Proof.
by rewrite /load_T_total /stiffness_T_total /load_R_3x3 => -> /=; rewrite !addr0.
Qed.

(** *** Further properties *)

(** The transform [T_rot] is block diagonal: four copies of the 3x3
    rotation on the diagonal, zero elsewhere. *)
Theorem block_rotation_structure (R_3x3 : mat3) (r c : 'I_12) :
  block_rotation R_3x3 r c =
    if (r %/ 3 == c %/ 3)%N then R_3x3 (inord (r %% 3)) (inord (c %% 3))
    else 0.
Proof. exact: block_rotationE. Qed.

(** When every element refers to existing nodes, [assemble_system] returns
    (no exception), whatever the loads and the accumulated state. *)
Theorem assembly_completes (st : GlobalAssembler dm) :
  valid_node_indices -> exists st', assemble_system lib st = Some st'.
Proof. exact: assemble_system_total. Qed.

(** The assembled stiffness matrix is symmetric with releases too: the
    condensed local stiffness of a symmetric one is symmetric, also with the
    penalty on the released rotational DOFs and in the singular fallback. *)
Theorem assembled_stiffness_symmetric_with_releases :
  symmetric_library -> valid_node_indices ->
  exists2 st, assemble_system lib (GlobalAssembler_init dm) = Some st
            & (self_K st)^T = self_K st.
Proof.
move=> sym_lib valid; rewrite /assemble_system /=.
have [K' -> sym_K'] := build_stiffness_sym_released sym_lib valid (trmx0 _ _ _).
have [P' ->] := add_member_loads_total (0 + build_load_vector dm) valid.
by exists (Assembler K' P').
Qed.

End Theory.

(** ** Facts about the concrete model *)

Lemma demo_symmetric : symmetric_library demo_lib.
Proof. by move=> *; rewrite /= /demo_stiffness tr_scalar_mx. Qed.

Lemma demo_K_mid (E a b : algR) :
  K_mid_of (local_stiffness demo_lib (Material E 1 1) demo_section a a)
           (local_stiffness demo_lib (Material E 1 1) demo_section b b)
  = (E + E)%:M.
Proof.
rewrite /K_mid_of /local_stiffness /= /demo_stiffness.
by rewrite (scalar_mx_block 6 6 E) block_mxKdr block_mxKul -raddfD.
Qed.

Lemma demo_vecE (x y z : algR) :
  [/\ vget (demo_vec x y z) 0 = x, vget (demo_vec x y z) 1 = y
    & vget (demo_vec x y z) 2 = z].
Proof. by split; rewrite /demo_vec vget_vec_of_seq. Qed.

(** Claim C5 on an input: the identity matrix, the all-ones vector and a
    release pair with no flag set. *)
Lemma condensation_identity_witness :
  ~~ has id (rel_vec no_release) /\
  (_condense_matrix (1%:M : 'M[algR]_12) no_release = 1%:M /\
   _condense_fef (1%:M : 'M[algR]_12) (const_mx 1) no_release = const_mx 1).
Proof.
have no_rel : ~~ has id (rel_vec no_release) by [].
split=> //.
exact: (condensation_identity_without_release 1%:M (const_mx 1) no_rel).
Defined.

Lemma demo_plain_valid : valid_node_indices demo_plain.
Proof. by []. Qed.

Lemma demo_plain_mass : total_self_mass demo_plain = 100000%:R / 980665%:R.
Proof.
rewrite /total_self_mass /= big_cons big_nil /element_mass /= /g.
by field.
Qed.

(** Claim C2 on an input: the two-node, one-member model. *)
Lemma assembled_stiffness_symmetric_witness :
  [/\ symmetric_library demo_lib,
      all (fun el => ~~ has_release el) (elements demo_plain)
    & valid_node_indices demo_plain] /\
  ((exists2 st,
      assemble_system demo_lib (GlobalAssembler_init demo_plain) = Some st
      & (self_K st)^T = self_K st) /\
   (forall (K K' : 'M[algR]_(total_dofs demo_plain)) el,
      ~~ has_release el -> K^T = K ->
      stiffness_step demo_lib K el = Some K' -> K'^T = K')).
Proof.
have no_rel : all (fun el => ~~ has_release el) (elements demo_plain) by [].
split; first by split; [exact: demo_symmetric | exact: no_rel |].
exact: (@assembled_stiffness_symmetric _ demo_lib demo_plain demo_symmetric
          no_rel demo_plain_valid).
Defined.

(** Claim C4 as stated fails on the sign: for the local intensity
    [(1, 0, 0)] on a member of clear length 2, [w L / 2] is 1 and entry 0 of
    the local fixed-end-force vector is not. *)
Lemma dist_load_sign_counterexample :
  let w := demo_vec 1 0 0 in
  let el := demo_member 1 2 0 in
  [/\ member_fef_local demo_lib (MemberDist 7 1 0 0 "Local" false) 1 el
        (demo_vec 0 0 0) (demo_vec 1 0 0) = Some (dist_fef w 2, w),
      vget w 0 * L_clear el / 2 = 1
    & vget (dist_fef w (L_clear el)) 0 <> vget w 0 * L_clear el / 2].
Proof.
move=> w el; have [w0 _ _] := demo_vecE 1 0 0.
have [[fef0 _ _ _] _ _ _] := dist_fef_entries w (L_clear el).
split; first by rewrite /member_fef_local /= scale1r.
  by rewrite w0 /= mul1r divff //; apply/eqP; lra.
by rewrite fef0 w0 /= => eq_sign; lra.
Qed.

(** Claim C7 as stated fails on the total: on the two-node, one-member
    model the sum of all translational diagonal entries of the self-mass
    matrix is not the sum of the element masses. *)
Lemma self_mass_sum_counterexample :
  exists2 M : 'M[algR]_(total_dofs demo_plain),
    _add_element_self_mass 0 = Some M
    & translational_mass_sum M <> total_self_mass demo_plain.
Proof.
have [M [M_E _ sumE _]] := self_mass_from_zero demo_plain_valid.
exists M => //; rewrite sumE demo_plain_mass => eq_sum.
by clear -eq_sum; lra.
Qed.

(** Claim C7 (as the code has it) on an input: the two-node, one-member
    model. *)
Lemma self_mass_conservation_witness :
  valid_node_indices demo_plain /\
  exists M : 'M[algR]_(total_dofs demo_plain),
    [/\ _add_element_self_mass 0 = Some M,
        forall r c, mat_at M r c =
          \sum_(el <- elements demo_plain)
            (node_block_mass (node_indices el).1 (element_mass el / 2) r c +
             node_block_mass (node_indices el).2 (element_mass el / 2) r c),
        forall r c, ~~ translational_diagonal r c -> mat_at M r c = 0,
        forall d, (d < 3)%N ->
          direction_mass M d = total_self_mass demo_plain
      & translational_mass_sum M = 3 * total_self_mass demo_plain].
Proof.
split; first exact: demo_plain_valid.
exact: (self_mass_conservation demo_plain_valid).
Defined.

Lemma demo_horizontal_length (x : algR) :
  0 <= x -> horizontal_length (demo_vec 0 0 0) (demo_vec x 0 0) = x.
Proof.
move=> x_ge0; have [x0 x1 _] := demo_vecE x 0 0.
have [o0 o1 _] := demo_vecE 0 0 0.
rewrite /horizontal_length x0 x1 o0 o1 !subr0 expr0n addr0 sqrtr_sqr.
exact: ger0_norm.
Qed.

(** Claim C9 as stated fails: on the two-node, one-member model, building
    the mass matrix a second time through the same assembler does not return
    what the first build returned. *)
Lemma rebuild_mass_counterexample :
  let fresh := GlobalMassAssembler_init demo_plain in
  obind (@build_mass_matrix _ demo_lib demo_plain "Default")
        (build_mass_matrix demo_lib "Default" fresh)
  <> build_mass_matrix demo_lib "Default" fresh.
Proof.
move=> fresh.
have [M [M_E dirE _ _]] := self_mass_from_zero demo_plain_valid.
have build1 : build_mass_matrix demo_lib "Default" fresh
                = Some (MassAssembler M).
  rewrite (@build_mass_matrix_self_only _ _ _ _ (MassSource "MS1" true false [::])) //.
  by have -> : self_M fresh = 0 by []; rewrite M_E.
rewrite build1 [obind _ _]/= build_mass_matrix_shift build1 /= => -[eq_M].
have M0 : M = 0.
  by have := congr1 (fun X => X - M) eq_M; rewrite addrK subrr.
have := dirE 0%N isT; rewrite M0 direction_mass0 demo_plain_mass => eq_mass.
by clear -eq_mass; lra.
Qed.

Lemma soft_K_mid_singular (a b : algR) :
  K_mid_of (local_stiffness demo_lib (Material 0 1 1) demo_section a a)
           (local_stiffness demo_lib (Material 0 1 1) demo_section b b)
    \notin unitmx.
Proof. by rewrite demo_K_mid addr0 unitmxE det_scalar expr0n /= unitr0. Qed.

(** Claim C10 on an input: a mid-span point load on a member whose material
    has [E = 0], so that the mid stiffness is the zero matrix. *)
Lemma unsolvable_point_load_witness :
  let el := soft_member in
  let a := 1 / 2 * L_total el - odflt 0 (end_off_i el) in
  let L := L_clear el in
  let k_left := local_stiffness demo_lib (el_material el) (el_section el) a a in
  let k_right :=
    local_stiffness demo_lib (el_material el) (el_section el) (L - a) (L - a) in
  let P0 : 'cV[algR]_(total_dofs demo_soft) := 0 in
  [/\ valid_node_indices demo_soft,
      body mid_point_load = MemberPoint 7 1 "Gravity" "Global" (1 / 2) true,
      find_element demo_soft 7 = Some el,
      L = 0 \/ K_mid_of k_left k_right \notin unitmx
    & [/\ forall P_vec, _get_exact_fef_via_stiffness demo_lib L a P_vec
                          (el_material el) (el_section el) = 0,
          member_load_step demo_lib P0 mid_point_load = Some P0
        & exists st',
            assemble_system demo_lib (GlobalAssembler_init demo_soft)
              = Some st']].
Proof.
move=> el a L k_left k_right P0.
have valid : valid_node_indices demo_soft by [].
have is_point :
  body mid_point_load = MemberPoint 7 1 "Gravity" "Global" (1 / 2) true by [].
have found : find_element demo_soft 7 = Some el by [].
have singular : L = 0 \/ K_mid_of k_left k_right \notin unitmx.
  by right; apply: soft_K_mid_singular.
split=> //.
exact: (@unsolvable_point_load_is_skipped _ demo_lib demo_soft
          (GlobalAssembler_init demo_soft) P0 mid_point_load
          7 1 "Gravity" "Global" (1 / 2) true el valid is_point found singular).
Defined.

(** Claim C6 on an input: a nodal load of 10 downwards on node 1. *)
Lemma net_force_mass_witness :
  let pats := [:: ("DEAD"%string, 1 : algR)] in
  let F := demo_net_force in
  let M : 'M[algR]_(total_dofs demo_loaded) := 0 in
  net_nodal_forces demo_lib demo_loaded pats = Some F /\
  exists M' : 'M[algR]_(total_dofs demo_loaded),
    [/\ _add_mass_from_net_loads demo_lib pats M = Some M',
        forall k d, (k < size (nodes demo_loaded))%N -> (d < 3)%N ->
          mat_at M' (k * 6 + d) (k * 6 + d) =
          mat_at M (k * 6 + d) (k * 6 + d) + node_net_mass F k,
        forall r c, ~~ translational_diagonal r c ->
          mat_at M' r c = mat_at M r c
      & forall k,
          let Fz := vec_at F (k * 6 + 2) in
          [/\ Fz < - (1 / 10 ^+ 5) ->
                node_net_mass F k = `|Fz| / (980665%:R / 100000%:R),
              - (1 / 10 ^+ 5) <= Fz -> node_net_mass F k = 0
            & 0 <= node_net_mass F k]].
Proof.
move=> pats F M.
have net : net_nodal_forces demo_lib demo_loaded pats = Some F by [].
by split=> //; apply: (net_force_mass_conversion M net).
Defined.

Lemma demo_T_total_00 (off_i off_j : 'cV[algR]_3) (R_3x3 : 'M[algR]_3) :
  (demo_eccentricity off_i off_j *m block_rotation R_3x3) 0 0 = R_3x3 0 0.
Proof.
rewrite mxE; do 12![rewrite big_ord_recl]; rewrite big_ord0.
rewrite !block_rotationE !mxE /= !(mul0r, mulr0, add0r, addr0) mul1r.
by congr (R_3x3 _ _); apply: val_inj; rewrite /= inordK.
Qed.

(** Claim C1 fails on the code.  For a member from (0,0,0) to (1,0,0) whose
    far end has the insertion offset (-1,0,1), the load path computes its
    rotation from the node coordinates (a member along X: the identity), the
    stiffness path from the adjusted end points (a vertical member), and the
    two composed transforms differ in their entry (0,0). *)
Theorem load_transform_differs_on_offset_member :
  let el := demo_member 1 1 (demo_vec (- 1) 0 1) in
  let p1 := demo_vec 0 0 0 in
  let p2 := demo_vec 1 0 0 in
  [/\ load_R_3x3 demo_lib el p1 p2 = 1%:M,
      get_rotation_matrix demo_lib (p1 + (offsets el).1) (p2 + (offsets el).2)
        (beta el) = vertical_rotation,
      load_T_total demo_lib el p1 p2 0 0 = 1,
      stiffness_T_total demo_lib el p1 p2 0 0 = 0
    & load_T_total demo_lib el p1 p2 <> stiffness_T_total demo_lib el p1 p2].
Proof.
move=> el p1 p2.
have [o0 o1 _] := demo_vecE 0 0 0; have [e0 e1 _] := demo_vecE 1 0 0.
have [w0 w1 _] := demo_vecE (- 1) 0 1.
have load_R : load_R_3x3 demo_lib el p1 p2 = 1%:M.
  rewrite /load_R_3x3 /= /demo_rotation e0 o0.
  by have /negbTE -> : (1 : algR) != 0 by apply/eqP; lra.
have stiff_R :
  get_rotation_matrix demo_lib (p1 + (offsets el).1) (p2 + (offsets el).2)
    (beta el) = vertical_rotation.
  rewrite /= /demo_rotation addr0 !vgetD e0 e1 o0 o1 w0 w1.
  by rewrite addr0 subrr eqxx.
have load00 : load_T_total demo_lib el p1 p2 0 0 = 1.
  by rewrite /load_T_total load_R demo_T_total_00 mxE.
have stiff00 : stiffness_T_total demo_lib el p1 p2 0 0 = 0.
  by rewrite /stiffness_T_total stiff_R demo_T_total_00 mxE.
split=> // eq_T; move: load00; rewrite eq_T stiff00 => eq_entry.
by clear -eq_entry; lra.
Qed.

(** Inputs for the further properties: a member without offsets, the model
    with the soft member, an unknown mass source name, the hinged member. *)
Lemma transforms_agree_witness :
  let el := demo_member 1 1 0 in
  offsets el = (0, 0) /\
  load_T_total demo_lib el (demo_vec 0 0 0) (demo_vec 1 0 0) =
  stiffness_T_total demo_lib el (demo_vec 0 0 0) (demo_vec 1 0 0).
Proof.
move=> el; have no_offset : offsets el = (0, 0) by [].
split; first exact: no_offset.
exact: (transforms_agree_without_offsets demo_lib (demo_vec 0 0 0)
          (demo_vec 1 0 0) no_offset).
Defined.

Lemma assembly_completes_witness :
  valid_node_indices demo_soft /\
  exists st',
    assemble_system demo_lib (GlobalAssembler_init demo_soft) = Some st'.
Proof.
have valid : valid_node_indices demo_soft by [].
split; first exact: valid.
exact: (assembly_completes demo_lib (GlobalAssembler_init demo_soft) valid).
Defined.

Lemma assembled_stiffness_symmetric_with_releases_witness :
  [/\ has_release hinged_member, symmetric_library demo_lib
    & valid_node_indices demo_hinged] /\
  exists2 st,
    assemble_system demo_lib (GlobalAssembler_init demo_hinged) = Some st
    & (self_K st)^T = self_K st.
Proof.
have valid : valid_node_indices demo_hinged by [].
split; first by split; [| exact: demo_symmetric | exact: valid].
exact: (@assembled_stiffness_symmetric_with_releases _ demo_lib demo_hinged
          demo_symmetric valid).
Defined.

(** ** Further properties of the assemblers *)

Section FurtherTheory.

Variable R : rcfType.
Variable lib : element_library R.
Variable dm : data_manager R.
Local Notation ndof := (total_dofs dm).

Lemma foldM_isSome (S A : Type) (f : S -> A -> option S) (ok : pred A)
    (xs : seq A) (s : S) :
  (forall s x, isSome (f s x) = ok x) -> isSome (foldM f s xs) = all ok xs.
Proof.
move=> f_ok; elim: xs s => [|x xs IHxs] s //=.
by rewrite -(f_ok s x); case: (f s x) => [s'|] //=.
Qed.

Lemma stiffness_step_isSome (K : 'M[R]_ndof) el :
  isSome (stiffness_step lib K el) = valid_element dm el.
Proof.
rewrite /stiffness_step /valid_element /node_coords.
by case: (node_indices el) => i j /=; do 2![case: ifP => //=].
Qed.

Lemma build_stiffness_isSome (K : 'M[R]_ndof) :
  isSome (_build_stiffness lib K) = valid_node_indices dm.
Proof. exact/foldM_isSome/stiffness_step_isSome. Qed.

Lemma diag_add3_isSome n (M : 'M[R]_n) (s : nat) (x : R) :
  isSome (diag_add3 M s x) = (s + 2 < n)%N.
Proof.
rewrite /diag_add3 /diag_add.
case: ifP => [lt0|ge0] /=; last by symmetry; nat_lia.
case: ifP => [lt1|ge1] /=; last by symmetry; nat_lia.
by case: ifP.
Qed.

Lemma diag_add3_node_isSome (M : 'M[R]_ndof) (k : nat) (x : R) :
  isSome (diag_add3 M (k * 6) x) = (k < size (nodes dm))%N.
Proof.
rewrite diag_add3_isSome /total_dofs.
by apply/idP/idP => lt_k; nat_lia.
Qed.

Lemma self_mass_step_isSome (M : 'M[R]_ndof) el :
  isSome (self_mass_step M el) = valid_element dm el.
Proof.
rewrite /self_mass_step /valid_element.
rewrite (foldM_isSome (ok := fun k => (k < size (nodes dm))%N)) /= ?andbT //.
by move=> M0 k; apply: diag_add3_node_isSome.
Qed.

Lemma add_element_self_mass_isSome (M : 'M[R]_ndof) :
  isSome (_add_element_self_mass M) = valid_node_indices dm.
Proof. exact/foldM_isSome/self_mass_step_isSome. Qed.

Lemma assemble_system_isSome (st : GlobalAssembler dm) :
  isSome (assemble_system lib st) = valid_node_indices dm.
Proof.
case valid: (valid_node_indices dm).
  by have [st' ->] := assemble_system_total lib st valid.
rewrite /assemble_system.
by move: (build_stiffness_isSome (self_K st)); rewrite valid; case: (_build_stiffness _ _).
Qed.

(** [assemble_system] and [_add_element_self_mass] raise (an [IndexError])
    exactly when some element refers to a node index outside the node
    list. *)
Theorem assembly_raises_iff_bad_node_index
    (st : GlobalAssembler dm) (M : 'M[R]_ndof) :
  isSome (assemble_system lib st) = valid_node_indices dm /\
  isSome (_add_element_self_mass M) = valid_node_indices dm.
Proof.
by split; [apply: assemble_system_isSome | apply: add_element_self_mass_isSome].
Qed.

(** *** The sparsity pattern of [K] *)

Lemma in_block6E (k r : nat) : in_block 6 (k * 6) r = (dof_node r == k).
Proof.
rewrite /in_block /dof_node eqn_leq leq_divRL //.
by rewrite -[(r %/ 6 <= k)%N]ltnS ltn_divLR // andbC mulSn addnC.
Qed.

Lemma stiffness_step_unjoined (K K' : 'M[R]_ndof) el (r c : 'I_ndof) :
  stiffness_step lib K el = Some K' ->
  ~~ joins el (dof_node r) (dof_node c) -> K' r c = K r c.
Proof.
rewrite /stiffness_step /joins; case: (node_indices el) => i j /=.
case: (node_coords dm i) => [p1|] //; case: (node_coords dm j) => [p2|] //.
move=> [<-]; rewrite !mxE !in_block6E.
by case: (dof_node r == i); case: (dof_node r == j);
   case: (dof_node c == i); case: (dof_node c == j) => //= _; rewrite !addr0.
Qed.

(** The sparsity pattern of the assembled stiffness matrix follows the
    connectivity of the model: the entry of two DOFs whose nodes are not the
    end nodes of a common element is zero. *)
Theorem stiffness_sparsity (K : 'M[R]_ndof) (r c : 'I_ndof) :
  _build_stiffness lib 0 = Some K ->
  ~~ has (fun el => joins el (dof_node r) (dof_node c)) (elements dm) ->
  K r c = 0.
Proof.
rewrite /_build_stiffness => build no_join.
suff: forall K0 : 'M[R]_ndof,
        foldM (@stiffness_step R lib dm) K0 (elements dm) = Some K ->
        K r c = K0 r c.
  by move/(_ 0 build); rewrite mxE.
elim: (elements dm) no_join => [|el els IHels] /=; first by move=> _ K0 [<-].
rewrite negb_or => /andP[nj njs] K0.
case E: (stiffness_step _ _ _) => [K1|] // /(IHels njs) ->.
exact: stiffness_step_unjoined E nj.
Qed.

(** *** The order of the elements and of the loads *)

Lemma foldM_swap (V : zmodType) (A : Type) (f : V -> A -> option V)
    (x y : A) (s : V) :
  (forall x, translating (f^~ x)) ->
  obind (f^~ y) (f s x) = obind (f^~ x) (f s y).
Proof.
move=> tr; rewrite (tr x s) (tr y s).
case Ex: (f 0 x) => [a|]; case Ey: (f 0 y) => [b|] //=.
- by rewrite (tr y) (tr x (s + b)) Ex Ey /= addrAC.
- by rewrite (tr y) Ey.
- by rewrite (tr x) Ex.
Qed.

Lemma foldM_perm (V : zmodType) (A : Type) (f : V -> A -> option V)
    (xs ys : seq A) :
  (forall x, translating (f^~ x)) -> Permutation.Permutation xs ys ->
  forall s, foldM f s xs = foldM f s ys.
Proof.
move=> tr; elim=> {xs ys} [|x xs ys _ IH|x y xs|xs ys zs _ IH1 _ IH2] s //=.
- by case: (f s x).
- have := foldM_swap y x s tr.
  case: (f s y) => [s1|]; case: (f s x) => [s2|] //=.
  + by move=> ->.
  + by move=> ->.
  + by move=> <-.
- by rewrite IH1 IH2.
Qed.

Lemma vec_add_translating n (i : nat) (x : R) :
  translating (fun F : 'cV[R]_n => vec_add F i x).
Proof.
move=> F; rewrite /vec_add; case: ifP => //= _; congr Some.
by apply/colP=> r; rewrite !mxE add0r.
Qed.

Lemma vec_add3_translating n (s : nat) (x y z : R) :
  translating (fun F : 'cV[R]_n => vec_add3 F s x y z).
Proof.
apply: translating_bind; first exact: vec_add_translating.
by apply: translating_bind; exact: vec_add_translating.
Qed.

Lemma net_load_step_translating pats ld :
  translating ((@net_load_step R lib dm pats)^~ ld).
Proof.
rewrite /net_load_step.
case: (active_scale _ _) => [mult|]; last exact: translating_id.
case: (body ld) => [nid fx fy fz|eid wx wy wz coord proj
                   |eid force dir coord dist is_rel|]; last exact: translating_id.
- case: (node_idx_of _ _) => [k|]; last exact: translating_none.
  exact: vec_add3_translating.
- case: (find_element _ _) => [el|]; last exact: translating_id.
  case: (if _ then _ else _) => [w|]; last exact: translating_none.
  by apply: translating_foldM => k; apply: vec_add3_translating.
- case: (find_element _ _) => [el|]; last exact: translating_id.
  case: (if String.eqb dir _ then _ else _) => [w|];
    last exact: translating_none.
  case: (if ~~ is_rel then _ else _) => [ratio|];
    last exact: translating_none.
  by apply: translating_foldM => k; apply: vec_add3_translating.
Qed.

(** In exact arithmetic the assembled arrays do not depend on the order in
    which the elements and the loads are listed: [K] and the self-mass for a
    permuted element list, the member-load part of [P] and the net nodal
    forces of the mass sources for a permuted load list. *)
Theorem assembly_order_independent
    (els : seq (element R)) (lds : seq (load R))
    (K M : 'M[R]_ndof) (P : 'cV[R]_ndof) (pats : seq (string * R)) :
  Permutation.Permutation (elements dm) els ->
  Permutation.Permutation (raw_loads dm) lds ->
  [/\ @_build_stiffness R lib (set_elements dm els) K = _build_stiffness lib K,
      @_add_element_self_mass R (set_elements dm els) M
        = _add_element_self_mass M,
      @_add_member_loads R lib (set_loads dm lds) P = _add_member_loads lib P
    & net_nodal_forces lib (set_loads dm lds) pats
        = net_nodal_forces lib dm pats].
Proof.
move=> perm_els perm_lds; split.
- symmetry; apply: (foldM_perm (f := @stiffness_step R lib dm)) => // el.
  exact: stiffness_step_translating.
- symmetry; apply: (foldM_perm (f := @self_mass_step R dm)) => // el.
  exact: self_mass_step_translating.
- symmetry; apply: (foldM_perm (f := @member_load_step R lib dm)) => // ld.
  exact: member_load_step_translating.
- symmetry; apply: (foldM_perm (f := @net_load_step R lib dm pats)) => // ld.
  exact: net_load_step_translating.
Qed.

(** *** Static condensation with releases *)

Section Condensation.

Variable rels : 6.-tuple bool * 6.-tuple bool.

Local Notation released r := (nth false (rel_vec rels) r).
Local Notation idx_k := (idx_kept rels).
Local Notation idx_c := (idx_cond rels).

Lemma mem_idx_kept (r : 'I_12) : (r \in idx_k) = ~~ released r.
Proof. by rewrite mem_filter mem_enum andbT. Qed.

Lemma mem_idx_cond (r : 'I_12) : (r \in idx_c) = released r.
Proof. by rewrite mem_filter mem_enum andbT. Qed.

Lemma uniq_idx_kept : uniq idx_k.
Proof. exact/filter_uniq/enum_uniq. Qed.

Lemma uniq_idx_cond : uniq idx_c.
Proof. exact/filter_uniq/enum_uniq. Qed.

Lemma tnth_index (s : seq 'I_12) (r : 'I_12) (lt_r : (index r s < size s)%N) :
  tnth (in_tuple s) (Ordinal lt_r) = r.
Proof. by rewrite (tnth_nth r) /= nth_index // -index_mem. Qed.

Lemma index_tnth (s : seq 'I_12) (a : 'I_(size s)) :
  uniq s -> index (tnth (in_tuple s) a) s = a.
Proof. by move=> uniq_s; rewrite (tnth_nth (tnth (in_tuple s) a)) /= index_uniq. Qed.

Lemma sum_split_released (F : 'I_12 -> R) :
  \sum_j F j =
  \sum_(a < size idx_k) F (tnth (in_tuple idx_k) a) +
  \sum_(b < size idx_c) F (tnth (in_tuple idx_c) b).
Proof.
have tn (s : seq 'I_12) :
  \sum_(a < size s) F (tnth (in_tuple s) a) = \sum_(j <- s) F j.
  by rewrite [RHS]big_tnth.
rewrite !tn /idx_kept /idx_cond !big_filter !big_enum_cond /=.
by rewrite (bigID (fun j : 'I_12 => released j)) /= addrC.
Qed.


Lemma take_idxD (v w : 'cV[R]_12) (rows : seq 'I_12) :
  take_idx (v + w) rows = take_idx v rows + take_idx w rows.
Proof. by apply/colP=> i; rewrite !mxE. Qed.

Lemma take_idx_mul (k : 'M[R]_12) (u : 'cV[R]_12) (rows : seq 'I_12) :
  take_idx (k *m u) rows =
  ix_ k rows idx_k *m take_idx u idx_k + ix_ k rows idx_c *m take_idx u idx_c.
Proof.
apply/colP=> i; rewrite !mxE sum_split_released.
by congr (_ + _); apply: eq_bigr => a _; rewrite !mxE.
Qed.

Lemma take_idx_scatter (s : seq 'I_12) (v : 'cV[R]_(size s)) :
  uniq s -> take_idx (scatter_vec v) s = v.
Proof. by move=> uniq_s; apply/colP=> a; rewrite !mxE index_tnth // valK. Qed.

Lemma take_idx_scatter_disjoint (s t : seq 'I_12) (v : 'cV[R]_(size s)) :
  (forall r, r \in t -> r \notin s) -> take_idx (scatter_vec v) t = 0.
Proof.
move=> disjoint; apply/colP=> a; rewrite !mxE.
case: insubP => // b; rewrite index_mem => in_s.
by have := disjoint _ (mem_tnth a (in_tuple t)); rewrite in_s.
Qed.

Lemma kept_not_cond (r : 'I_12) : r \in idx_k -> r \notin idx_c.
Proof. by rewrite mem_idx_kept mem_idx_cond. Qed.

Lemma cond_not_kept (r : 'I_12) : r \in idx_c -> r \notin idx_k.
Proof. by rewrite mem_idx_kept mem_idx_cond negbK. Qed.

Lemma vec12_eq_split (v w : 'cV[R]_12) :
  take_idx v idx_k = take_idx w idx_k ->
  take_idx v idx_c = take_idx w idx_c -> v = w.
Proof.
move=> /colP eq_k /colP eq_c; apply/colP=> r.
case rel_r: (released r).
  have lt_r : (index r idx_c < size idx_c)%N by rewrite index_mem mem_idx_cond.
  by have := eq_c (Ordinal lt_r); rewrite !mxE tnth_index.
have lt_r : (index r idx_k < size idx_k)%N by rewrite index_mem mem_idx_kept rel_r.
by have := eq_k (Ordinal lt_r); rewrite !mxE tnth_index.
Qed.

Lemma no_cond_index : nilp idx_c -> 'I_(size idx_c) -> False.
Proof. by rewrite /nilp => /eqP size0 [b]; rewrite size0. Qed.

(** The condensed fixed-end forces are the forces [f + k u] of the member
    after the released DOFs have moved by some [u] (the kept DOFs stay
    fixed); when the released block of [k] is invertible, that [u] leaves no
    force on the released DOFs. *)
Theorem condensed_fef_meaning (k : 'M[R]_12) (f : 'cV[R]_12) :
  exists u : 'cV[R]_12,
    [/\ take_idx u idx_k = 0,
        _condense_fef k f rels = f + k *m u
      & ix_ k idx_c idx_c \in unitmx ->
        take_idx (_condense_fef k f rels) idx_c = 0].
Proof.
rewrite /_condense_fef; case: ifP => [nil_c|_].
  exists 0; split; rewrite ?take_idx0 ?mulmx0 ?addr0 // => _.
  by apply/colP=> b; case: (no_cond_index nil_c b).
rewrite /linalg_inv; case: ifP => [unit_cc|_]; last first.
  by exists 0; split; rewrite ?take_idx0 ?mulmx0 ?addr0.
pose u_c := - (invmx (ix_ k idx_c idx_c) *m take_idx f idx_c).
have u_kept : take_idx (scatter_vec u_c) idx_k = 0.
  by apply: take_idx_scatter_disjoint => r; apply: kept_not_cond.
have u_cond : take_idx (scatter_vec u_c) idx_c = u_c.
  exact/take_idx_scatter/uniq_idx_cond.
exists (scatter_vec u_c); split=> // [|_]; last first.
  by apply: take_idx_scatter_disjoint => r; apply: cond_not_kept.
apply: vec12_eq_split.
  rewrite take_idx_scatter ?uniq_idx_kept // take_idxD take_idx_mul.
  by rewrite u_kept u_cond mulmx0 add0r mulmxN.
rewrite take_idx_scatter_disjoint; first by move=> r; apply: cond_not_kept.
rewrite take_idxD take_idx_mul u_kept u_cond mulmx0 add0r mulmxN.
by rewrite mulKVmx // subrr.
Qed.


Lemma scatter_kept_notin (s : seq 'I_12) (Ks : 'M[R]_(size s)) (r c : 'I_12) :
  (r \notin s) || (c \notin s) -> scatter_kept Ks r c = 0.
Proof.
rewrite mxE -!index_mem.
by case: insubP => [a -> _|/negbTE -> //]; case: insubP => [b -> _|/negbTE ->].
Qed.

Lemma max_abs_ge0 (k : 'M[R]_12) : 0 <= max_abs k.
Proof.
have max_ge0 (x y : R) : 0 <= x -> 0 <= y -> 0 <= Num.max x y.
  by move=> x_ge0 _; rewrite le_max x_ge0.
rewrite /max_abs; elim/big_ind: _ => // i _.
by elim/big_ind: _ => // j _; apply: normr_ge0.
Qed.

(** The entries of the condensed matrix when the released block can be
    inverted. *)
Lemma condense_matrix_unit (k : 'M[R]_12) (r c : 'I_12) :
  ~~ nilp idx_c -> ix_ k idx_c idx_c \in unitmx ->
  _condense_matrix k rels r c =
    scatter_kept (ix_ k idx_k idx_k
                  - ix_ k idx_k idx_c *m invmx (ix_ k idx_c idx_c)
                    *m ix_ k idx_c idx_k) r c +
    (if [&& r == c, released r & (r : nat) \in rot_dofs]
     then max_abs k * (1 / 10 ^+ 8) else 0).
Proof.
move=> /negbTE not_nil unit_cc.
by rewrite /_condense_matrix not_nil /linalg_inv unit_cc mxE.
Qed.

Lemma zero_inner_product (m n : nat) (A : 'M[R]_(m, size idx_c))
    (B : 'M[R]_(size idx_c, n)) :
  nilp idx_c -> A *m B = 0.
Proof.
move=> nil_c; apply/matrixP=> i j; rewrite !mxE big1 // => b _.
by case: (no_cond_index nil_c b).
Qed.

Lemma nil_released (r : 'I_12) : nilp idx_c -> released r = false.
Proof.
by move=> /nilP nil_c; have := mem_idx_cond r; rewrite nil_c in_nil => <-.
Qed.

Lemma condense_matrix_blocks (k : 'M[R]_12) :
  ix_ k idx_c idx_c \in unitmx ->
  let kc := _condense_matrix k rels in
  let penalty := max_abs k * (1 / 10 ^+ 8) in
  [/\ ix_ kc idx_k idx_k =
        ix_ k idx_k idx_k
        - ix_ k idx_k idx_c *m invmx (ix_ k idx_c idx_c) *m ix_ k idx_c idx_k,
      forall r c : 'I_12, released r || released c -> r != c -> kc r c = 0,
      forall r : 'I_12, released r ->
        kc r r = if (r : nat) \in rot_dofs then penalty else 0
    & 0 <= penalty].
Proof.
move=> unit_cc kc penalty.
have penalty_ge0 : 0 <= penalty.
  by rewrite /penalty mulr_ge0 ?max_abs_ge0 // divr_ge0 ?exprn_ge0 ?ler0n.
case nil_c: (nilp idx_c).
  split=> // [|r c|r]; rewrite ?nil_released //.
  by rewrite /kc /_condense_matrix nil_c -mulmxA zero_inner_product ?subr0.
have not_nil : ~~ nilp idx_c by rewrite nil_c.
split=> // [|r c rel_rc ne_rc|r rel_r].
- apply/matrixP=> a b; rewrite [LHS]mxE /kc condense_matrix_unit //.
  have := mem_tnth a (in_tuple idx_k); rewrite mem_idx_kept => /negbTE ->.
  by rewrite andbF addr0 [LHS]mxE !(index_tnth _ uniq_idx_kept) !valK.
- rewrite /kc condense_matrix_unit // (negbTE ne_rc) /= addr0.
  by apply: scatter_kept_notin; rewrite !mem_idx_kept !negbK.
- rewrite /kc condense_matrix_unit // eqxx rel_r /= scatter_kept_notin ?add0r //.
  by rewrite mem_idx_kept rel_r.
Qed.

(** [_condense_matrix] with an invertible released block: the kept block of
    the result is the Schur complement [K_rr - K_rc K_cc^-1 K_cr]; the row
    and the column of a released DOF are zero off the diagonal; the diagonal
    entry of a released DOF is the penalty [max|k| * 1e-8] (never negative)
    for a rotation, and exactly zero for a translation. *)
Theorem condensed_matrix_structure (k : 'M[R]_12) :
  ix_ k idx_c idx_c \in unitmx ->
  let kc := _condense_matrix k rels in
  let penalty := max_abs k * (1 / 10 ^+ 8) in
  [/\ ix_ kc idx_k idx_k =
        ix_ k idx_k idx_k
        - ix_ k idx_k idx_c *m invmx (ix_ k idx_c idx_c) *m ix_ k idx_c idx_k,
      forall r c : 'I_12, released r || released c -> r != c -> kc r c = 0,
      forall r : 'I_12, released r ->
        kc r r = if (r : nat) \in rot_dofs then penalty else 0
    & 0 <= penalty].
Proof. exact: condense_matrix_blocks. Qed.

Lemma condensation_extension (k : 'M[R]_12) (u_k : 'cV[R]_(size idx_k)) :
  ix_ k idx_c idx_c \in unitmx ->
  exists u : 'cV[R]_12,
    [/\ take_idx u idx_k = u_k,
        take_idx (k *m u) idx_c = 0
      & take_idx (k *m u) idx_k =
        (ix_ k idx_k idx_k
         - ix_ k idx_k idx_c *m invmx (ix_ k idx_c idx_c) *m ix_ k idx_c idx_k)
        *m u_k].
Proof.
move=> unit_cc.
have v_kept : take_idx (scatter_vec u_k) idx_k = u_k.
  exact/take_idx_scatter/uniq_idx_kept.
have v_cond : take_idx (scatter_vec u_k) idx_c = 0.
  by apply: take_idx_scatter_disjoint => r; apply: cond_not_kept.
pose u_c := - (invmx (ix_ k idx_c idx_c) *m (ix_ k idx_c idx_k *m u_k)).
have w_kept : take_idx (scatter_vec u_c) idx_k = 0.
  by apply: take_idx_scatter_disjoint => r; apply: kept_not_cond.
have w_cond : take_idx (scatter_vec u_c) idx_c = u_c.
  exact/take_idx_scatter/uniq_idx_cond.
exists (scatter_vec u_k + scatter_vec u_c); split.
- by rewrite take_idxD v_kept w_kept addr0.
- rewrite take_idx_mul !take_idxD v_kept v_cond w_kept w_cond addr0 add0r.
  by rewrite mulmxN mulKVmx // subrr.
- rewrite take_idx_mul !take_idxD v_kept v_cond w_kept w_cond.
  by rewrite addr0 add0r mulmxN mulmxBl -!mulmxA.
Qed.

Lemma condensed_on_kept (k : 'M[R]_12) (v : 'cV[R]_12) :
  ix_ k idx_c idx_c \in unitmx ->
  take_idx (_condense_matrix k rels *m v) idx_k =
  (ix_ k idx_k idx_k
   - ix_ k idx_k idx_c *m invmx (ix_ k idx_c idx_c) *m ix_ k idx_c idx_k)
  *m take_idx v idx_k.
Proof.
move=> unit_cc; have [schur off_diag _ _] := condense_matrix_blocks unit_cc.
rewrite take_idx_mul schur.
have -> : ix_ (_condense_matrix k rels) idx_k idx_c = 0.
  apply/matrixP=> a b; rewrite [LHS]mxE [RHS]mxE.
  have rel_b := mem_tnth b (in_tuple idx_c); rewrite mem_idx_cond in rel_b.
  have kept_a := mem_tnth a (in_tuple idx_k); rewrite mem_idx_kept in kept_a.
  apply: off_diag; first by rewrite rel_b orbT.
  by apply: contraNneq kept_a => ->.
by rewrite mul0mx addr0.
Qed.

(** The condensed stiffness is the stiffness of the member whose released
    DOFs carry no force: for every displacement [u_k] of the kept DOFs there
    is a displacement [u] of the twelve DOFs that extends it, for which
    [k u] vanishes on the released DOFs and agrees on the kept DOFs with the
    condensed matrix applied to [u_k]. *)
Theorem condensation_frees_released_dofs (k : 'M[R]_12)
    (u_k : 'cV[R]_(size idx_k)) :
  ix_ k idx_c idx_c \in unitmx ->
  exists u : 'cV[R]_12,
    [/\ take_idx u idx_k = u_k,
        take_idx (k *m u) idx_c = 0
      & take_idx (_condense_matrix k rels *m scatter_vec u_k) idx_k =
        take_idx (k *m u) idx_k].
Proof.
move=> unit_cc; have [u [u_kept free kept]] := condensation_extension u_k unit_cc.
exists u; split=> //.
by rewrite condensed_on_kept // take_idx_scatter ?uniq_idx_kept.
Qed.

(** Condensation keeps a positive semidefinite matrix positive
    semidefinite. *)

Lemma dot_split (u w : 'cV[R]_12) :
  (u^T *m w) 0 0 =
  ((take_idx u idx_k)^T *m take_idx w idx_k) 0 0 +
  ((take_idx u idx_c)^T *m take_idx w idx_c) 0 0.
Proof.
rewrite !mxE sum_split_released.
by congr (_ + _); apply: eq_bigr => a _; rewrite !mxE.
Qed.

Lemma quad_form_dot n (A : 'M[R]_n) (x : 'cV[R]_n) :
  quad_form A x = (x^T *m (A *m x)) 0 0.
Proof. by rewrite /quad_form mulmxA. Qed.

Lemma condensed_on_released (k : 'M[R]_12) (v : 'cV[R]_12)
    (b : 'I_(size idx_c)) :
  ix_ k idx_c idx_c \in unitmx ->
  take_idx (_condense_matrix k rels *m v) idx_c b 0 =
  _condense_matrix k rels (tnth (in_tuple idx_c) b) (tnth (in_tuple idx_c) b)
  * v (tnth (in_tuple idx_c) b) 0.
Proof.
move=> unit_cc; have [_ off_diag _ _] := condense_matrix_blocks unit_cc.
rewrite !mxE (bigD1 (tnth (in_tuple idx_c) b)) //= big1 ?addr0 // => r ne_r.
have rel_b := mem_tnth b (in_tuple idx_c); rewrite mem_idx_cond in rel_b.
by rewrite off_diag ?mul0r ?rel_b // eq_sym.
Qed.

Lemma condense_matrix_psd (k : 'M[R]_12) :
  positive_semidefinite k -> positive_semidefinite (_condense_matrix k rels).
Proof.
move=> psd_k v.
case unit_cc: (ix_ k idx_c idx_c \in unitmx); last first.
  rewrite /_condense_matrix /linalg_inv unit_cc.
  by case: ifP => _; apply: psd_k.
have [_ _ diag penalty_ge0] := condense_matrix_blocks unit_cc.
have [u [u_kept free kept]] :=
  condensation_extension (take_idx v idx_k) unit_cc.
rewrite quad_form_dot dot_split condensed_on_kept // -kept.
apply: addr_ge0.
  have := psd_k u.
  by rewrite quad_form_dot dot_split free mulmx0 [X in _ + X]mxE addr0 u_kept.
rewrite mxE; apply: sumr_ge0 => b _.
rewrite condensed_on_released // !mxE mulrCA.
have rel_b := mem_tnth b (in_tuple idx_c); rewrite mem_idx_cond in rel_b.
rewrite diag //; apply: mulr_ge0; last exact: sqr_ge0.
by case: ifP.
Qed.

End Condensation.

(** *** Equilibrium of the fixed-end forces of a uniform load *)

Lemma vget_sub3 (v : 'cV[R]_12) (s i : nat) :
  (i < 3)%N -> vget (sub3 v s) i = vget v (s + i).
Proof. by move=> lt_i; rewrite {1}/vget mxE inordK. Qed.

Lemma vgetZ n (a : R) (v : 'cV[R]_n.+1) (i : nat) :
  vget (a *: v) i = a * vget v i.
Proof. by rewrite /vget mxE. Qed.

Lemma vget0 n (i : nat) : vget (0 : 'cV[R]_n.+1) i = 0.
Proof. by rewrite /vget mxE. Qed.

Lemma vec3P (u v : 'cV[R]_3) :
  vget u 0 = vget v 0 -> vget u 1 = vget v 1 -> vget u 2 = vget v 2 -> u = v.
Proof.
rewrite /vget => e0 e1 e2; apply/colP=> i.
case: i => [[|[|[|i]]] lt_i] //.
- by move: e0; congr (u _ _ = v _ _); apply: val_inj; rewrite /= inordK.
- by move: e1; congr (u _ _ = v _ _); apply: val_inj; rewrite /= inordK.
- by move: e2; congr (u _ _ = v _ _); apply: val_inj; rewrite /= inordK.
Qed.

(** The fixed-end forces of a uniform load balance the load: with the load
    [w] acting over the length [L], the end forces and the load have zero
    resultant, and the end moments, the end force at the far end and the load
    have zero moment about the near end. *)
Theorem dist_fef_equilibrium (w : 'cV[R]_3) (L : R) :
  let f := dist_fef w L in
  let F_i := sub3 f 0 in let M_i := sub3 f 3 in
  let F_j := sub3 f 6 in let M_j := sub3 f 9 in
  F_i + F_j + L *: w = 0 /\
  M_i + M_j + cross (vec_of_seq 3 [:: L; 0; 0]) F_j
    + cross (vec_of_seq 3 [:: L / 2; 0; 0]) (L *: w) = 0.
Proof.
move=> f F_i M_i F_j M_j.
split; apply: vec3P; rewrite !vgetD ?vget0;
  do 2![rewrite ?vget_sub3 ?vgetZ ?vget_vec_of_seq //=]; by field.
Qed.

(** *** Superposition of member loads *)

Lemma dist_fef_linear (a : R) (u v : 'cV[R]_3) (L : R) :
  dist_fef (a *: u + v) L = a *: dist_fef u L + dist_fef v L.
Proof.
apply/colP=> i; rewrite !mxE !vgetD !vgetZ.
case: i => i lt_i /=.
by do 12?[case: i lt_i => [|i] lt_i /=; first by field].
Qed.

Lemma projection_linear (a : R) (u v p1 p2 : 'cV[R]_3) (Lt : R) coord :
  (_apply_projection_factor (a *: u + v) p1 p2 Lt coord).1 =
  a *: (_apply_projection_factor u p1 p2 Lt coord).1 +
  (_apply_projection_factor v p1 p2 Lt coord).1.
Proof.
rewrite /_apply_projection_factor; case: ifP => //= _; case: ifP => /= _.
  by rewrite vec_of_seq0 scaler0 addr0.
by case: ifP => //= _; rewrite scalerDr !scalerA mulrC.
Qed.

Lemma cross_linear (c u v : 'cV[R]_3) (a : R) :
  cross c (a *: u + v) = a *: cross c u + cross c v.
Proof.
by apply: vec3P; rewrite vgetD vgetZ /cross !vget_vec_of_seq //= !vgetD !vgetZ;
  ring.
Qed.

Lemma sub_at3_linear (a : R) (f h : 'cV[R]_12) (s : nat) (x y : 'cV[R]_3) :
  sub_at3 (a *: f + h) s (a *: x + y) = a *: sub_at3 f s x + sub_at3 h s y.
Proof.
apply/colP=> i; rewrite !mxE; case: ifP => _; rewrite ?mxE; ring.
Qed.

Lemma take_idx_linear (a : R) (f h : 'cV[R]_12) (rows : seq 'I_12) :
  take_idx (a *: f + h) rows = a *: take_idx f rows + take_idx h rows.
Proof. by apply/colP=> i; rewrite !mxE. Qed.

Lemma scatter_vec_linear (a : R) (rows : seq 'I_12)
    (x y : 'cV[R]_(size rows)) :
  scatter_vec (a *: x + y) = a *: scatter_vec x + scatter_vec y.
Proof.
apply/colP=> i; rewrite !mxE; case: insub => [r|]; rewrite ?mxE //.
by rewrite mulr0 addr0.
Qed.

Lemma condense_fef_linear (k : 'M[R]_12) (a : R) (f h : 'cV[R]_12) rels :
  _condense_fef k (a *: f + h) rels =
  a *: _condense_fef k f rels + _condense_fef k h rels.
Proof.
rewrite /_condense_fef; case: ifP => // _; case: (linalg_inv _) => // Kinv.
rewrite -scatter_vec_linear !take_idx_linear; congr scatter_vec.
by rewrite !mulmxDr -!scalemxAr scalerBr opprD addrACA.
Qed.

Lemma col_mx_linear m1 m2 (a : R) (x x' : 'cV[R]_m1) (y y' : 'cV[R]_m2) :
  col_mx (a *: x + x') (a *: y + y') = a *: col_mx x y + col_mx x' y'.
Proof. by rewrite scale_col_mx add_col_mx. Qed.

Lemma F_mid_of_linear (a : R) (P Q : 'cV[R]_3) :
  F_mid_of (a *: P + Q) = a *: F_mid_of P + F_mid_of Q :> 'cV[R]_(3 + 3).
Proof.
apply/colP=> i; rewrite /F_mid_of !mxE.
by case: (@split 3 3 i) => j; rewrite !mxE // mulr0 addr0.
Qed.

Lemma exact_fef_linear (L x a : R) (P Q : 'cV[R]_3) mat sec :
  _get_exact_fef_via_stiffness lib L x (a *: P + Q) mat sec =
  a *: _get_exact_fef_via_stiffness lib L x P mat sec +
  _get_exact_fef_via_stiffness lib L x Q mat sec.
Proof.
rewrite /_get_exact_fef_via_stiffness; case: ifP => _.
  by rewrite scaler0 addr0.
rewrite /linalg_solve; case: ifP => _; last by rewrite scaler0 addr0.
by rewrite F_mid_of_linear !mulmxDr -!scalemxAr col_mx_linear.
Qed.

Lemma rigid_end_correction_linear b el (Rm : 'M[R]_3) (a : R)
    (w w' : 'cV[R]_3) (f f' : 'cV[R]_12) :
  rigid_end_correction b el Rm (a *: w + w') (a *: f + f') =
  a *: rigid_end_correction b el Rm w f + rigid_end_correction b el Rm w' f'.
Proof.
rewrite /rigid_end_correction; case: ifP => // _.
have lin_force (r : R) : r *: (a *: w + w') = a *: (r *: w) + r *: w'.
  by rewrite scalerDr !scalerA mulrC.
have lin_tr (M : 'M[R]_3) (x y : 'cV[R]_3) :
  M *m (a *: x + y) = a *: (M *m x) + M *m y.
  by rewrite mulmxDr -scalemxAr.
by case: ifP => _; case: ifP => _;
  rewrite ?lin_force ?cross_linear ?lin_tr ?sub_at3_linear.
Qed.

Lemma linear_form_scale (U V : lmodType R) (F : U -> V) :
  (forall a u v, F (a *: u + v) = a *: F u + F v) ->
  forall a u, F (a *: u) = a *: F u.
Proof.
move=> lin a u; have F0 : F 0 = 0.
  by have := lin (-1) 0 0; rewrite scaler0 addr0 scaleN1r addNr.
by rewrite -[a *: u]addr0 lin F0 addr0.
Qed.

Lemma dist_local_intensity_linear (Rm : 'M[R]_3) (coord : string)
    (projected : bool) (p1 p2 : 'cV[R]_3) (Lt a : R) (u v : 'cV[R]_3) :
  dist_local_intensity Rm coord projected p1 p2 Lt (a *: u + v) =
  a *: dist_local_intensity Rm coord projected p1 p2 Lt u
  + dist_local_intensity Rm coord projected p1 p2 Lt v.
Proof.
rewrite /dist_local_intensity.
have rot x y : Rm *m (a *: x + y) = a *: (Rm *m x) + Rm *m y.
  by rewrite mulmxDr -scalemxAr.
by case: ifP => _; case: ifP => _; rewrite ?rot ?projection_linear.
Qed.

Lemma point_fef_local_linear el (Rm : 'M[R]_3) coord_sys (dist_raw a : R)
    (u v : 'cV[R]_3) :
  point_fef_local lib el Rm coord_sys dist_raw (a *: u + v) =
  a *: point_fef_local lib el Rm coord_sys dist_raw u
  + point_fef_local lib el Rm coord_sys dist_raw v.
Proof.
rewrite /point_fef_local; case: ifP => _; last by rewrite scaler0 addr0.
by case: ifP => _; rewrite ?mulmxDr -?scalemxAr exact_fef_linear.
Qed.

Lemma fef_to_global_linear b el p1 p2 (a : R) (f f' : 'cV[R]_12)
    (w w' : 'cV[R]_3) :
  fef_to_global lib b el p1 p2 (a *: f + f') (a *: w + w') =
  a *: fef_to_global lib b el p1 p2 f w + fef_to_global lib b el p1 p2 f' w'.
Proof.
rewrite /fef_to_global -rigid_end_correction_linear.
congr (rigid_end_correction _ _ _ _ _).
by case: ifP => _; rewrite ?condense_fef_linear mulmxDr -scalemxAr.
Qed.

Lemma fef_to_global0 b el p1 p2 : fef_to_global lib b el p1 p2 0 0 = 0.
Proof.
have := fef_to_global_linear b el p1 p2 (-1) 0 0 0 0.
by rewrite !scaler0 !addr0 scaleN1r addNr.
Qed.

Lemma fef_to_global_scale b el p1 p2 (a : R) (f : 'cV[R]_12) (w : 'cV[R]_3) :
  fef_to_global lib b el p1 p2 (a *: f) (a *: w) =
  a *: fef_to_global lib b el p1 p2 f w.
Proof.
have := fef_to_global_linear b el p1 p2 a f 0 w 0.
by rewrite !addr0 fef_to_global0 addr0.
Qed.

Lemma member_fef_globalE b scale el p1 p2 :
  member_fef_global lib b scale el p1 p2 =
  omap (fun fw => fef_to_global lib b el p1 p2 fw.1 fw.2)
       (member_fef_local lib b scale el p1 p2).
Proof.
by rewrite /member_fef_global; case: (member_fef_local _ _ _ _ _ _) => [[f w]|].
Qed.

Lemma member_fef_local_dist eid wx wy wz coord projected scale el p1 p2 :
  member_fef_local lib (MemberDist eid wx wy wz coord projected) scale el p1 p2
  = let w := dist_local_intensity (load_R_3x3 lib el p1 p2) coord projected
               p1 p2 (L_total el) (scale *: vec_of_seq 3 [:: wx; wy; wz]) in
    Some (dist_fef w (L_clear el), w).
Proof. by []. Qed.

Lemma member_fef_local_point eid force dir coord dist is_rel scale el p1 p2 :
  member_fef_local lib (MemberPoint eid force dir coord dist is_rel)
    scale el p1 p2
  = if _parse_load_direction R dir is Some (idx_dir, sign) then
      Some (point_fef_local lib el (load_R_3x3 lib el p1 p2)
              (if str_in "GRAVITY" (upper dir) then "Global"%string else coord)
              (if is_rel then dist * L_total el else dist)
              (\col_i (if (i : nat) == idx_dir
                        then 1 * sign * (force * scale) else 0)), 0)
    else None.
Proof.
by rewrite /member_fef_local; case: (_parse_load_direction _ _) => [[i sg]|].
Qed.

Lemma unit_force_linear (idx : nat) (sign a x y : R) :
  (\col_i (if (i : nat) == idx then 1 * sign * (a * x + y) else 0)
     : 'cV[R]_3) =
  a *: (\col_i (if (i : nat) == idx then 1 * sign * x else 0)) +
  (\col_i (if (i : nat) == idx then 1 * sign * y else 0)).
Proof. by apply/colP=> i; rewrite !mxE; case: ifP => _; ring. Qed.

Lemma vec_of_seq3_linear (a x y z x' y' z' : R) :
  vec_of_seq 3 [:: a * x + x'; a * y + y'; a * z + z'] =
  a *: vec_of_seq 3 [:: x; y; z] + vec_of_seq 3 [:: x'; y'; z'] :> 'cV[R]_3.
Proof.
apply/colP=> i; rewrite !mxE.
by case: i => [[|[|[|i]]] lt_i] //=.
Qed.

(** Only the type of the load matters to the rigid-end correction. *)
Lemma fef_to_global_dist eid wx wy wz coord projected
    eid' wx' wy' wz' coord' projected' el p1 p2 f w :
  fef_to_global lib (MemberDist eid wx wy wz coord projected) el p1 p2 f w =
  fef_to_global lib (MemberDist eid' wx' wy' wz' coord' projected')
    el p1 p2 f w.
Proof. by []. Qed.

Lemma fef_to_global_point eid force dir coord dist is_rel
    eid' force' dir' coord' dist' is_rel' el p1 p2 f w :
  fef_to_global lib (MemberPoint eid force dir coord dist is_rel)
    el p1 p2 f w =
  fef_to_global lib (MemberPoint eid' force' dir' coord' dist' is_rel')
    el p1 p2 f w.
Proof. by []. Qed.

(** Member loads superpose: the global fixed-end forces of a distributed
    load are linear in its three intensities, those of a point load are
    linear in its force (direction, frame and position being the same). *)
Theorem member_loads_superpose (scale : R) el (p1 p2 : 'cV[R]_3) (a : R) :
  (forall eid coord projected wx wy wz wx' wy' wz',
     member_fef_global lib
       (MemberDist eid (a * wx + wx') (a * wy + wy') (a * wz + wz')
          coord projected) scale el p1 p2 =
     match member_fef_global lib (MemberDist eid wx wy wz coord projected)
             scale el p1 p2,
           member_fef_global lib (MemberDist eid wx' wy' wz' coord projected)
             scale el p1 p2 with
     | Some f, Some f' => Some (a *: f + f')
     | _, _ => None
     end) /\
  (forall eid dir coord dist is_rel force force',
     member_fef_global lib
       (MemberPoint eid (a * force + force') dir coord dist is_rel)
       scale el p1 p2 =
     match member_fef_global lib (MemberPoint eid force dir coord dist is_rel)
             scale el p1 p2,
           member_fef_global lib
             (MemberPoint eid force' dir coord dist is_rel) scale el p1 p2 with
     | Some f, Some f' => Some (a *: f + f')
     | _, _ => None
     end).
Proof.
split=> [eid coord projected wx wy wz wx' wy' wz'
        |eid dir coord dist is_rel force force'].
  rewrite !member_fef_globalE !member_fef_local_dist /=.
  rewrite vec_of_seq3_linear.
  set V := vec_of_seq 3 [:: wx; wy; wz].
  set V' := vec_of_seq 3 [:: wx'; wy'; wz'].
  have -> : scale *: (a *: V + V') = a *: (scale *: V) + scale *: V'.
    by rewrite scalerDr !scalerA mulrC.
  rewrite dist_local_intensity_linear dist_fef_linear fef_to_global_linear.
  by congr (Some (_ *: _ + _)); apply: fef_to_global_dist.
rewrite !member_fef_globalE !member_fef_local_point.
case: (_parse_load_direction _ _) => [[idx_dir sign]|] //=.
have -> : (a * force + force') * scale = a * (force * scale) + force' * scale.
  by ring.
rewrite unit_force_linear point_fef_local_linear.
have zero3 : (0 : 'cV[R]_3) = a *: 0 + 0 by rewrite scaler0 addr0.
rewrite [X in fef_to_global _ _ _ _ _ _ X]zero3 fef_to_global_linear.
by congr (Some (_ *: _ + _)); apply: fef_to_global_point.
Qed.

(** The contribution of a member load is proportional to the scale factor
    of its load pattern. *)
Theorem member_load_scales_with_pattern (b : load_body R) (c scale : R)
    el (p1 p2 : 'cV[R]_3) :
  member_fef_global lib b (c * scale) el p1 p2 =
  omap (fun f => c *: f) (member_fef_global lib b scale el p1 p2).
Proof.
rewrite !member_fef_globalE.
case: b => [nid fx fy fz|eid wx wy wz coord proj
           |eid force dir coord dist is_rel|] //.
  rewrite !member_fef_local_dist /= -scalerA.
  rewrite (linear_form_scale (dist_local_intensity_linear _ _ _ _ _ _)).
  rewrite (linear_form_scale (fun a u v => dist_fef_linear a u v _)).
  by rewrite fef_to_global_scale.
rewrite !member_fef_local_point.
case: (_parse_load_direction _ _) => [[idx_dir sign]|] //=.
have -> : force * (c * scale) = c * (force * scale) + 0 by ring.
rewrite unit_force_linear.
have -> : (\col_i (if (i : nat) == idx_dir then 1 * sign * 0 else 0)) = 0
            :> 'cV[R]_3.
  by apply/colP=> i; rewrite !mxE mulr0 if_same.
rewrite addr0 (linear_form_scale (point_fef_local_linear _ _ _ _)).
have zero3 : (0 : 'cV[R]_3) = c *: 0 by rewrite scaler0.
by rewrite [X in fef_to_global _ _ _ _ _ _ X]zero3 fef_to_global_scale.
Qed.

(** *** A point load on a rigid end zone *)

Lemma point_fef_local_outside el (Rm : 'M[R]_3) coord_sys (dist_raw : R)
    (v : 'cV[R]_3) :
  (dist_raw < odflt 0 (end_off_i el))
  || (L_total el - odflt 0 (end_off_j el) < dist_raw) ->
  point_fef_local lib el Rm coord_sys dist_raw v = 0.
Proof.
by rewrite /point_fef_local !ltNge -negb_and => /negbTE ->.
Qed.

(** A point load whose position falls outside the clear span of its member
    (before the rigid end zone at the near end, or beyond the one at the far
    end) is dropped: it leaves the load vector as it was. *)
Theorem point_load_outside_clear_span_is_dropped
    (P : 'cV[R]_ndof) (ld : load R)
    eid force dir coord dist is_rel (el : element R) :
  let dist_raw := if is_rel then dist * L_total el else dist in
  valid_node_indices dm ->
  body ld = MemberPoint eid force dir coord dist is_rel ->
  find_element dm eid = Some el ->
  (dist_raw < odflt 0 (end_off_i el))
  || (L_total el - odflt 0 (end_off_j el) < dist_raw) ->
  member_load_step lib P ld = Some P.
Proof.
move=> dist_raw valid ld_point found outside.
rewrite /member_load_step; case: (active_scale _ _) => [scale|] //.
rewrite ld_point /= found; have [] := find_element_valid valid found.
case: (node_indices el) => i j /= lt_i lt_j; rewrite !node_coords_some //.
rewrite member_fef_globalE member_fef_local_point.
case: (_parse_load_direction _ _) => [[idx_dir sign]|] //=.
rewrite point_fef_local_outside //.
by rewrite fef_to_global0 usubmx0 dsubmx0 !slice_sub0.
Qed.

(** *** Loads that are skipped *)

Lemma foldM_filter (S A : Type) (f : S -> A -> option S) (p : pred A)
    (xs : seq A) (s : S) :
  (forall s x, ~~ p x -> f s x = Some s) ->
  foldM f s (filter p xs) = foldM f s xs.
Proof.
move=> skip; elim: xs s => [|x xs IHxs] s //=.
case px: (p x) => /=; first by case: (f s x).
by rewrite skip ?px.
Qed.

Lemma member_load_step_skip (P : 'cV[R]_ndof) (ld : load R) :
  ~~ processed_member_load dm ld -> member_load_step lib P ld = Some P.
Proof.
rewrite /processed_member_load /member_load_step.
case: (active_scale _ _) => [scale|] //=.
case: (load_element_id _) => [eid|] //=.
by case: (find_element _ _).
Qed.

(** [_add_member_loads] skips, without an error, every load whose pattern
    is not in the load case, every load that is not a member load, and every
    member load naming an element id the model does not have: the load
    vector is the one of the model with those loads removed. *)
Theorem skipped_member_loads (P : 'cV[R]_ndof) :
  @_add_member_loads R lib
    (set_loads dm [seq ld <- raw_loads dm | processed_member_load dm ld]) P
  = _add_member_loads lib P.
Proof.
apply: (foldM_filter (f := @member_load_step R lib dm)) => P0 ld.
exact: member_load_step_skip.
Qed.

(** *** Equilibrium of the fixed-end forces of a point load *)

Lemma vget_usubmx (w : 'cV[R]_(6 + 6)) (i : nat) :
  (i < 3)%N -> vget (w : 'cV[R]_12) i = vget (usubmx w) i.
Proof.
move=> lt_i; rewrite /vget mxE; congr (w _ _); apply: val_inj.
by rewrite /= !inordK //; nat_lia.
Qed.

Lemma vget_dsubmx (w : 'cV[R]_(6 + 6)) (i : nat) :
  (i < 3)%N -> vget (w : 'cV[R]_12) (6 + i) = vget (dsubmx w) i.
Proof.
move=> lt_i; rewrite /vget mxE; congr (w _ _); apply: val_inj.
by rewrite /= !inordK //; nat_lia.
Qed.

Lemma vget_F_mid (P : 'cV[R]_3) (i : nat) :
  (i < 3)%N -> vget (F_mid_of P) i = vget P i.
Proof.
move=> lt_i; rewrite /vget /F_mid_of.
have -> : inord i = lshift 3 (inord i : 'I_3) :> 'I_(3 + 3).
  by apply: val_inj; rewrite /= !inordK //; nat_lia.
exact: (col_mxEu P 0 (inord i) 0).
Qed.

(** The fixed-end forces of a point load balance the load, whenever the
    stiffness matrices of the two sub-elements are self-equilibrated (the
    end forces they give for any displacement have zero resultant): the two
    end forces add up to minus the load. *)
Theorem exact_fef_balances_point_load (L a : R) (P_vec : 'cV[R]_3)
    (mat : material R) (sec : cross_section R) :
  let k_left := local_stiffness lib mat sec a a in
  let k_right := local_stiffness lib mat sec (L - a) (L - a) in
  let fef := _get_exact_fef_via_stiffness lib L a P_vec mat sec in
  L != 0 -> K_mid_of k_left k_right \in unitmx ->
  (forall u, sub3 (k_left *m u) 0 + sub3 (k_left *m u) 6 = 0) ->
  (forall u, sub3 (k_right *m u) 0 + sub3 (k_right *m u) 6 = 0) ->
  sub3 fef 0 + sub3 fef 6 = - P_vec.
Proof.
move=> k_left k_right fef L_neq0 unit_K eq_left eq_right.
set U := invmx (K_mid_of k_left k_right) *m F_mid_of P_vec.
have fefE : fef = col_mx (ursubmx (k_left : 'M_(6 + 6)) *m U)
                         (dlsubmx (k_right : 'M_(6 + 6)) *m U).
  by rewrite /fef exact_fef_unit.
have solve : K_mid_of k_left k_right *m U = F_mid_of P_vec.
  by rewrite /U mulKVmx.
have left_u : (k_left : 'M_(6 + 6)) *m col_mx 0 U =
    col_mx (ursubmx (k_left : 'M_(6 + 6)) *m U)
           (drsubmx (k_left : 'M_(6 + 6)) *m U).
  by rewrite -{1}(submxK (k_left : 'M_(6 + 6))) mul_block_col !mulmx0 !add0r.
have right_u : (k_right : 'M_(6 + 6)) *m col_mx U 0 =
    col_mx (ulsubmx (k_right : 'M_(6 + 6)) *m U)
           (dlsubmx (k_right : 'M_(6 + 6)) *m U).
  by rewrite -{1}(submxK (k_right : 'M_(6 + 6))) mul_block_col !mulmx0 !addr0.
have comp (i : nat) : (i < 3)%N ->
    vget (sub3 fef 0 + sub3 fef 6) i = vget (- P_vec) i.
  move=> lt_i.
  have /(congr1 (fun v => vget v i)) :=
    eq_left (col_mx (0 : 'cV[R]_6) U : 'cV[R]_(6 + 6)).
  have /(congr1 (fun v => vget v i)) :=
    eq_right (col_mx U (0 : 'cV[R]_6) : 'cV[R]_(6 + 6)).
  have /(congr1 (fun v : 'cV[R]_6 => vget v i)) := solve.
  rewrite !vgetD !vget_sub3 // !add0n left_u right_u fefE vget_F_mid // vget0.
  rewrite !(vget_usubmx _ lt_i) !(vget_dsubmx _ lt_i) !col_mxKu !col_mxKd.
  have -> : vget (- P_vec) i = - vget P_vec i by rewrite /vget mxE.
  rewrite /K_mid_of mulmxDl vgetD.
  move: (vget (_ *m U) i) (vget (_ *m U) i) (vget (_ *m U) i)
        (vget (_ *m U) i) (vget P_vec i) => x_dr x_ul x_dl x_ur p.
  by move=> eq_mid eq_r eq_l; lra.
by apply: vec3P; apply: comp.
Qed.

(** *** Member loads act on the end nodes of their member *)

(** A member load changes the load vector only in the DOFs of the two end
    nodes of its member. *)
Theorem member_load_locality (P P' : 'cV[R]_ndof) (ld : load R)
    (eid : nat) (el : element R) (r : 'I_ndof) :
  load_element_id (body ld) = Some eid -> find_element dm eid = Some el ->
  member_load_step lib P ld = Some P' ->
  dof_node r != (node_indices el).1 -> dof_node r != (node_indices el).2 ->
  P' r 0 = P r 0.
Proof.
move=> has_id found; rewrite /member_load_step has_id found.
case: (active_scale _ _) => [scale|]; last by case=> <-.
case: (node_indices el) => i j /=.
case: (node_coords dm i) => [p1|] //; case: (node_coords dm j) => [p2|] //.
case: (member_fef_global _ _ _ _ _ _) => [fg|]; last by case=> <-.
case=> <- /negbTE not_i /negbTE not_j.
by rewrite !mxE !in_block6E not_i not_j !subr0.
Qed.

(** *** Gravity directions *)

Lemma upper_append (s t : string) :
  upper (s ++ t) = (upper s ++ upper t)%string.
Proof. by elim: s => [|c s IHs] //=; rewrite IHs. Qed.

Lemma prefix_append (p s : string) : String.prefix p (p ++ s) = true.
Proof.
elim: p => [|c p IHp] /=; first by case: s.
by case: (ascii_dec c c).
Qed.

Lemma str_in_append (p pre post : string) :
  str_in p (pre ++ p ++ post) = true.
Proof.
elim: pre => [|c pre IHpre] /=.
  by case: (p ++ post)%string (prefix_append p post) => [|c s] /= ->.
by rewrite IHpre orbT.
Qed.

(** A direction that holds the word gravity, in any letter case and
    anywhere in the string, is the direction (Z, -1), whatever else the
    string holds; and the point load it belongs to is taken in the Global
    frame, whatever its [coord] key says. *)
Theorem gravity_direction (pre mid post : string) :
  upper mid = "GRAVITY"%string ->
  let dir := (pre ++ mid ++ post)%string in
  _parse_load_direction R dir = Some (2%N, -1) /\
  forall eid force coord dist is_rel scale el p1 p2,
    member_fef_local lib (MemberPoint eid force dir coord dist is_rel)
      scale el p1 p2 =
    member_fef_local lib (MemberPoint eid force dir "Global" dist is_rel)
      scale el p1 p2.
Proof.
move=> mid_gravity dir.
have in_dir : str_in "GRAVITY" (upper dir) = true.
  by rewrite /dir !upper_append mid_gravity str_in_append.
split; first by rewrite /_parse_load_direction in_dir.
by move=> *; rewrite !member_fef_local_point in_dir.
Qed.

(** *** Resolving a mass source *)

Lemma ohead_filter_isSome (A : Type) (p : pred A) (s : seq A) :
  isSome (ohead (filter p s)) = has p s.
Proof. by elim: s => [|x s IHs] //=; case: (p x). Qed.

Lemma ohead_filter_sat (A : Type) (p : pred A) (s : seq A) (x : A) :
  ohead (filter p s) = Some x -> p x.
Proof. by elim: s => [|y s IHs] //=; case: ifP => [py [<-]|_]. Qed.

(** [_find_mass_source]: the name "Default" resolves whenever a source is
    registered at all; any other name resolves exactly when a source is
    registered under it, and in a list registry to a source of that name. *)
Theorem mass_source_resolution (name : string) :
  [/\ isSome (_find_mass_source dm "Default")
        = ~~ nilp (sources_of (mass_sources dm)),
      name <> "Default"%string ->
        isSome (_find_mass_source dm name)
        = has (String.eqb^~ name) (registered_names (mass_sources dm))
    & forall l s, mass_sources dm = SourceList l -> name <> "Default"%string ->
        _find_mass_source dm name = Some s -> ms_name s = name].
Proof.
rewrite /_find_mass_source; split.
- case: (mass_sources dm) => [l|d] /=.
    by case E: (ohead _) => [s|] /=; case: l E.
  by case E: (ohead _) => [s|] /=; case: d E.
- move=> /String.eqb_neq ->; case: (mass_sources dm) => [l|d] /=.
    rewrite has_map -ohead_filter_isSome.
    by case: (ohead _).
  by elim: d => [|[k s] d IHd] //=; case: ifP.
- move=> l s -> /String.eqb_neq ->.
  case E: (ohead _) => [s'|] // [eq_s]; rewrite -eq_s.
  by have /String.eqb_spec := ohead_filter_sat E.
Qed.

Lemma find_mass_source_unregistered (name : string) :
  ~~ has (String.eqb^~ name) (registered_names (mass_sources dm)) ->
  (name = "Default"%string -> nilp (sources_of (mass_sources dm))) ->
  _find_mass_source dm name = None.
Proof.
rewrite /_find_mass_source; case: (mass_sources dm) => [l|d] /= unreg dflt.
  have -> : ohead [seq s <- l | String.eqb (ms_name s) name] = None.
    by move: unreg; rewrite has_map -ohead_filter_isSome; case: (ohead _).
  case: String.eqb_spec => // /dflt {unreg dflt}.
  by case: l.
have -> : ohead [seq kv.2 | kv <- d & String.eqb kv.1 name] = None.
  by elim: d unreg {dflt} => [|[k s] d IHd] //=; case: ifP.
case: String.eqb_spec => // /dflt {unreg dflt}.
by case: d.
Qed.

(** A mass source name nothing is registered under, the name "Default"
    included when the registry is empty, leaves the mass matrix as it is,
    the zero matrix on a new assembler, and raises nothing whatever the
    elements and the loads of the model are. *)
Theorem unresolved_mass_source (name : string) (st : GlobalMassAssembler dm) :
  ~~ has (String.eqb^~ name) (registered_names (mass_sources dm)) ->
  (name = "Default"%string -> nilp (sources_of (mass_sources dm))) ->
  build_mass_matrix lib name st = Some st /\
  build_mass_matrix lib name (GlobalMassAssembler_init dm)
    = Some (MassAssembler 0).
Proof.
move=> unreg dflt; rewrite /build_mass_matrix.
by rewrite find_mass_source_unregistered.
Qed.

(** *** The net nodal forces *)

Lemma vec_at_vec_add n (F F' : 'cV[R]_n) (i : nat) (x : R) (r : nat) :
  vec_add F i x = Some F' ->
  vec_at F' r = vec_at F r + (if r == i then x else 0).
Proof.
rewrite /vec_add; case: ifP => // lt_i [<-]; rewrite /vec_at.
case: insubP => [r' _ r'E|ge_r]; first by rewrite mxE r'E.
by rewrite (negbTE (_ : r != i)) ?addr0 //; nat_lia.
Qed.

Lemma vec_add3_entries n (F F' : 'cV[R]_n) (s : nat) (x y z : R) (r : nat) :
  vec_add3 F s x y z = Some F' ->
  vec_at F' r = vec_at F r +
    ((if r == (s + 0)%N then x else 0) + (if r == (s + 1)%N then y else 0)
     + (if r == (s + 2)%N then z else 0)).
Proof.
rewrite /vec_add3; case E0: (vec_add F _ _) => [F0|] //.
case E1: (vec_add F0 _ _) => [F1|] // E2.
by rewrite (vec_at_vec_add _ E2) (vec_at_vec_add _ E1) (vec_at_vec_add _ E0)
           -!addrA.
Qed.

Lemma vec_add3_isSome n (F : 'cV[R]_n) (s : nat) (x y z : R) :
  isSome (vec_add3 F s x y z) = (s + 2 < n)%N.
Proof.
rewrite /vec_add3 /vec_add.
case: ifP => [lt0|ge0] /=; last by symmetry; nat_lia.
case: ifP => [lt1|ge1] /=; last by symmetry; nat_lia.
by case: ifP.
Qed.

Lemma vec_add3_node_isSome (F : 'cV[R]_ndof) (k : nat) (x y z : R) :
  isSome (vec_add3 F (k * 6) x y z) = (k < size (nodes dm))%N.
Proof.
rewrite vec_add3_isSome /total_dofs.
by apply/idP/idP => lt_k; nat_lia.
Qed.

Lemma nth3_vget (v : 'cV[R]_3) (c : R) (d : nat) :
  (d < 3)%N ->
  nth 0 [:: vget v 0 * c; vget v 1 * c; vget v 2 * c] d = vget v d * c.
Proof. by case: d => [|[|[|d]]]. Qed.

Lemma vec_add3_direction (F F' : 'cV[R]_ndof) (k0 : nat) (x y z : R)
    (d : nat) :
  (d < 3)%N -> vec_add3 F (k0 * 6) x y z = Some F' ->
  direction_force F' d = direction_force F d + nth 0 [:: x; y; z] d.
Proof.
move=> lt_d E.
have lt_k0 : (k0 < size (nodes dm))%N by rewrite -(vec_add3_node_isSome F k0 x y z) E.
have lt_d6 : (d < 6)%N by nat_lia.
have E' k : vec_at F' (k * 6 + d) =
    vec_at F (k * 6 + d) + (if k == k0 then nth 0 [:: x; y; z] d else 0).
  rewrite (vec_add3_entries _ E) !dof_index_eq //; congr (_ + _).
  by case: (k == k0); case: d lt_d {lt_d6} => [|[|[|d]]] //= _;
     rewrite ?addr0 ?add0r.
rewrite /direction_force (eq_bigr _ (fun k _ => E' k)) big_split /=.
by rewrite -big_mkcond big_nat1_eq /= lt_k0.
Qed.

Lemma direction_force0 (d : nat) : direction_force (0 : 'cV[R]_ndof) d = 0.
Proof. by rewrite /direction_force big1 // => k _; rewrite vec_at0. Qed.

Lemma net_load_step_direction pats (F F' : 'cV[R]_ndof) (ld : load R)
    (d : nat) :
  (d < 3)%N -> net_load_step lib pats F ld = Some F' ->
  direction_force F' d =
  direction_force F d + vget (load_total_force lib dm pats ld) d.
Proof.
move=> lt_d; rewrite /net_load_step /load_total_force.
case: (active_scale _ _) => [mult|]; last by case=> <-; rewrite vget0 addr0.
case: (body ld) => [nid fx fy fz|eid wx wy wz coord proj
                   |eid force dir coord dist is_rel|]; last first.
- by case=> <-; rewrite vget0 addr0.
- case: (find_element _ _) => [el|]; last by case=> <-; rewrite vget0 addr0.
  set Fv := (if String.eqb dir "Gravity" then _ else _).
  set Gv := (if String.eqb dir "Gravity" then _ else _).
  have : Fv = None \/ Fv = Some Gv.
    rewrite /Fv /Gv; case: ifP => _; first by right.
    case: ifP => _; first by right.
    case: ifP => _; last by right.
    by case: (adjusted_rotation _ _ _) => [Rm|]; [right | left].
  case=> [-> //|-> /=].
  case: (if ~~ is_rel then _ else _) => [ratio|] //=.
  case E1: (vec_add3 _ _ _ _ _) => [F1|] //.
  case E2: (vec_add3 _ _ _ _ _) => [F2|] // [<-].
  rewrite (vec_add3_direction lt_d E2) (vec_add3_direction lt_d E1).
  rewrite !nth3_vget // -addrA -mulrDr vgetZ.
  by rewrite /= subrK mulr1.
- case: (find_element _ _) => [el|]; last by case=> <-; rewrite vget0 addr0.
  set Fv := (if String.eqb coord "Local" then _ else _).
  set Gv := (if String.eqb coord "Local" then _ else _).
  have : Fv = None \/ Fv = Some Gv.
    rewrite /Fv /Gv; case: ifP => _; last by right.
    by case: (adjusted_rotation _ _ _) => [Rm|]; [right | left].
  case=> [-> //|-> /=].
  case E1: (vec_add3 _ _ _ _ _) => [F1|] //.
  case E2: (vec_add3 _ _ _ _ _) => [F2|] // [<-].
  rewrite (vec_add3_direction lt_d E2) (vec_add3_direction lt_d E1).
  rewrite !nth3_vget // -addrA -mulrDr.
  by congr (_ + _); field.
- case: (node_idx_of _ _) => [k|] // E.
  by rewrite (vec_add3_direction lt_d E) vget_vec_of_seq.
Qed.

Lemma net_force_sum pats (F : 'cV[R]_ndof) (d : nat) :
  net_nodal_forces lib dm pats = Some F -> (d < 3)%N ->
  direction_force F d =
  \sum_(ld <- raw_loads dm) vget (load_total_force lib dm pats ld) d.
Proof.
rewrite /net_nodal_forces => net lt_d.
suff: forall F0 : 'cV[R]_ndof,
        foldM (@net_load_step R lib dm pats) F0 (raw_loads dm) = Some F ->
        direction_force F d = direction_force F0 d +
          \sum_(ld <- raw_loads dm) vget (load_total_force lib dm pats ld) d.
  by move/(_ 0 net); rewrite direction_force0 add0r.
elim: (raw_loads dm) => [|ld lds IHlds] F0 /=.
  by case=> <-; rewrite big_nil addr0.
case E: (net_load_step _ _ _ _) => [F1|] // /IHlds ->.
by rewrite (net_load_step_direction lt_d E) big_cons addrA.
Qed.

(** The net nodal forces keep the resultant of the loads: in each
    direction, the sum over the nodes of the accumulated force is the sum
    over the loads of the force each load carries (a distributed load is
    shared in halves, a point load in the ratios [1 - dist] and [dist],
    which add up to the whole load wherever it stands). *)
Theorem net_force_resultant pats (F : 'cV[R]_ndof) (d : nat) :
  net_nodal_forces lib dm pats = Some F -> (d < 3)%N ->
  direction_force F d =
  \sum_(ld <- raw_loads dm) vget (load_total_force lib dm pats ld) d.
Proof. exact: net_force_sum. Qed.

(** When the net vertical force of every node is below the threshold
    [-1e-5], the mass the load patterns add in each translational direction
    is the total downward load divided by [g]. *)
Theorem pattern_mass_is_weight_over_g pats (F : 'cV[R]_ndof)
    (M M' : 'M[R]_ndof) (d : nat) :
  net_nodal_forces lib dm pats = Some F ->
  _add_mass_from_net_loads lib pats M = Some M' ->
  (forall k, (k < size (nodes dm))%N ->
     vec_at F (k * 6 + 2) < - (1 / 10 ^+ 5)) ->
  (d < 3)%N ->
  direction_mass M' d =
  direction_mass M d
  - (\sum_(ld <- raw_loads dm) vget (load_total_force lib dm pats ld) 2)
    / g R.
Proof.
move=> net build heavy lt_d; rewrite -(net_force_sum net) //.
case: (add_mass_from_net_loads_some M net) => [E|[F0 E]]; last first.
  by move: build; rewrite E F0 direction_force0 mul0r subr0 => -[<-].
rewrite E in build; rewrite /direction_mass /direction_force.
rewrite mulr_suml -sumrB; apply: eq_big_nat => k /andP[_ lt_k].
rewrite (convert_net_forces_node build) //; congr (_ + _).
rewrite /node_net_mass heavy // ltr0_norm ?mulNr //.
by apply: lt_trans (heavy k lt_k) _; lra.
Qed.

(** *** The shape of the mass matrix *)

Lemma lumped_mass0 : lumped_mass (0 : 'M[R]_ndof).
Proof. by split=> [r c _|k d _]; rewrite !mat_at0. Qed.

Lemma lumped_mass_add (A : Type) (xs : seq A) (node : A -> nat) (m : A -> R)
    (M M' : 'M[R]_ndof) :
  lumped_mass M ->
  (forall r c, mat_at M' r c =
     mat_at M r c + \sum_(x <- xs) node_block_mass (node x) (m x) r c) ->
  lumped_mass M'.
Proof.
move=> [off iso] M'E; split=> [r c not_td|k d lt_d].
  rewrite M'E off // add0r big1 // => x _.
  exact: node_block_mass_off.
rewrite !M'E iso //; congr (_ + _); apply: eq_bigr => x _.
rewrite (node_block_mass_diag _ _ _ lt_d).
by rewrite -(node_block_mass_diag (node x) k (m x) (isT : (0 < 3)%N)) addn0.
Qed.

Lemma lumped_self_mass (M M' : 'M[R]_ndof) :
  lumped_mass M -> _add_element_self_mass M = Some M' -> lumped_mass M'.
Proof.
move=> lumped_M build.
have valid : valid_node_indices dm.
  by rewrite -(add_element_self_mass_isSome M) build.
have [M1 M1E entries] := add_element_self_mass_entries M valid.
have eq_M : M1 = M' by move: M1E; rewrite build => -[].
pose ends := flatten [seq [:: ((node_indices el).1, element_mass el / 2);
                              ((node_indices el).2, element_mass el / 2)]
                     | el <- elements dm].
apply: (@lumped_mass_add _ ends fst snd M) => // r c.
rewrite -eq_M entries; congr (_ + _).
rewrite /ends big_flatten /= big_map; apply: eq_bigr => el _.
by rewrite big_cons big_seq1.
Qed.

Lemma lumped_net_mass (F : 'cV[R]_ndof) (M M' : 'M[R]_ndof) :
  lumped_mass M -> convert_net_forces F M = Some M' -> lumped_mass M'.
Proof.
move=> lumped_M build.
have [M1 M1E entries] := convert_net_forces_entries F M.
have eq_M : M1 = M' by move: M1E; rewrite build => -[].
apply: (@lumped_mass_add _ (iota 0 (size (nodes dm))) id (node_net_mass F) M)
  => // r c.
by rewrite -eq_M entries.
Qed.

Lemma build_mass_matrix_lumped (name : string) (st st' : GlobalMassAssembler dm) :
  lumped_mass (self_M st) -> build_mass_matrix lib name st = Some st' ->
  lumped_mass (self_M st').
Proof.
move=> lumped_M; rewrite /build_mass_matrix.
case: (_find_mass_source _ _) => [ms|]; last by case=> <-.
have lumped_M1 M1 :
  (if include_self_mass ms then _add_element_self_mass (self_M st)
   else Some (self_M st)) = Some M1 -> lumped_mass M1.
  by case: ifP => _ => [/(lumped_self_mass lumped_M)|[<-]].
case: (if include_self_mass ms then _ else _) lumped_M1 => [M1|] lumped_M1;
  last by case: ifP.
have {}lumped_M1 := lumped_M1 M1 erefl.
case: ifP => _ /=; last by case=> <-.
rewrite /_add_mass_from_net_loads; case: ifP => _; first by case=> <-.
case: (net_nodal_forces _ _ _) => [F|] //.
by case E: (convert_net_forces _ _) => [M2|] // [<-]; apply: lumped_net_mass E.
Qed.

(** The mass matrix [build_mass_matrix] returns on a new assembler is
    lumped: diagonal, without rotational inertia, and with the same mass in
    the three translational directions of each node. *)
Theorem mass_matrix_is_lumped (name : string) (st : GlobalMassAssembler dm) :
  build_mass_matrix lib name (GlobalMassAssembler_init dm) = Some st ->
  [/\ forall r c, r != c -> mat_at (self_M st) r c = 0,
      forall k d, (3 <= d < 6)%N ->
        mat_at (self_M st) (k * 6 + d) (k * 6 + d) = 0
    & forall k d, (d < 3)%N ->
        mat_at (self_M st) (k * 6 + d) (k * 6 + d)
        = mat_at (self_M st) (k * 6) (k * 6)].
Proof.
have lumped_init : lumped_mass (self_M (GlobalMassAssembler_init dm)).
  exact: lumped_mass0.
move=> /(build_mass_matrix_lumped lumped_init) [off iso].
split=> // [r c ne_rc|k d /andP[ge_d lt_d]]; apply: off.
  by rewrite /translational_diagonal (negbTE ne_rc).
rewrite /translational_diagonal eqxx /= modnMDl modn_small // -leqNgt.
exact: ge_d.
Qed.

(** *** When the net-force accumulation raises *)

Lemma adjusted_rotation_isSome el :
  isSome (adjusted_rotation lib dm el) = valid_element dm el.
Proof.
rewrite /adjusted_rotation /valid_element /node_coords.
by case: (node_indices el) => i j /=; do 2![case: ifP => //=].
Qed.

Lemma net_load_step_isSome pats (F : 'cV[R]_ndof) ld :
  isSome (net_load_step lib pats F ld) = net_load_ok dm pats ld.
Proof.
rewrite /net_load_step /net_load_ok.
case: (active_scale _ _) => [mult|] //.
case: (body ld) => [nid fx fy fz|eid wx wy wz coord proj
                   |eid force dir coord dist is_rel|] //.
- case: (node_idx_of _ _) => [k|] //.
  exact: vec_add3_node_isSome.
- case: (find_element _ _) => [el|] //.
  have fold_ok (a b c : R) :
    isSome (foldM (fun (F0 : 'cV[R]_ndof) n_idx =>
                     vec_add3 F0 (n_idx * 6) a b c) F
              [:: (node_indices el).1; (node_indices el).2])
    = valid_element dm el.
    rewrite (foldM_isSome (ok := fun k => (k < size (nodes dm))%N)) /= ?andbT //.
    by move=> F0 k; apply: vec_add3_node_isSome.
  case: ifP => _; last exact: fold_ok.
  have := adjusted_rotation_isSome el.
  by case: (adjusted_rotation _ _ _) => [Rm|]; [move=> _; exact: fold_ok | move=> <-].
- case: (find_element _ _) => [el|] //.
  have fold_ok (v : 'cV[R]_3) (ratios : seq R) :
    isSome (foldM (fun (F0 : 'cV[R]_ndof) (kn : nat * nat) =>
                     vec_add3 F0 (kn.2 * 6) (vget v 0 * nth 0 ratios kn.1)
                       (vget v 1 * nth 0 ratios kn.1)
                       (vget v 2 * nth 0 ratios kn.1)) F
              [:: (0%N, (node_indices el).1); (1%N, (node_indices el).2)])
    = valid_element dm el.
    rewrite (foldM_isSome (ok := fun kn => (kn.2 < size (nodes dm))%N)) /= ?andbT //.
    by move=> F0 kn; apply: vec_add3_node_isSome.
  have dist_ok (v : 'cV[R]_3) :
    isSome (if (if ~~ is_rel
                then if L_total el == 0 then None
                     else Some (dist / L_total el)
                else Some dist) is Some dist'
            then foldM (fun (F0 : 'cV[R]_ndof) (kn : nat * nat) =>
                     vec_add3 F0 (kn.2 * 6)
                       (vget v 0 * nth 0 [:: 1 - dist'; dist'] kn.1)
                       (vget v 1 * nth 0 [:: 1 - dist'; dist'] kn.1)
                       (vget v 2 * nth 0 [:: 1 - dist'; dist'] kn.1)) F
                   [:: (0%N, (node_indices el).1); (1%N, (node_indices el).2)]
            else None)
    = valid_element dm el && (is_rel || (L_total el != 0)).
    case: is_rel => /=; first by rewrite andbT (fold_ok v [:: 1 - dist; dist]).
    case: eqP => _ /=; rewrite ?andbF ?andbT //.
    exact: (fold_ok v [:: 1 - dist / L_total el; dist / L_total el]).
  case: ifP => _; first exact: dist_ok.
  case: ifP => _; first exact: dist_ok.
  case: ifP => _; last exact: dist_ok.
  have := adjusted_rotation_isSome el.
  case: (adjusted_rotation _ _ _) => [Rm|]; first by move=> _; exact: dist_ok.
  by move=> /= <-.
Qed.

(** The pattern-derived mass path raises exactly when the pattern list is
    not empty and the loads hold an active nodal load whose node id is
    unknown (or maps outside the node list), an active member load on a
    known element that refers outside the node list, or an active point load
    placed by an absolute distance on a known element of zero total length
    (the division of line 144); a member load on an unknown element is
    skipped. *)
Theorem net_forces_raise_iff pats (M : 'M[R]_ndof) :
  isSome (net_nodal_forces lib dm pats)
    = all (net_load_ok dm pats) (raw_loads dm) /\
  isSome (_add_mass_from_net_loads lib pats M)
    = nilp pats || all (net_load_ok dm pats) (raw_loads dm).
Proof.
have net_ok : isSome (net_nodal_forces lib dm pats)
                = all (net_load_ok dm pats) (raw_loads dm).
  exact/foldM_isSome/net_load_step_isSome.
split=> //; rewrite -net_ok /_add_mass_from_net_loads.
case: ifP => //= _; case: (net_nodal_forces _ _ _) => [F|] //=.
by have [M' ->] := convert_net_forces_entries F M.
Qed.

(** *** The quadratic form of the assembled stiffness *)

Local Notation sel s :=
  (\matrix_(a < 6, r < ndof) ((r : nat) == (s + a)%N)%:R : 'M[R]_(6, ndof)).

Lemma quad_formD n (A B : 'M[R]_n) (x : 'cV[R]_n) :
  quad_form (A + B) x = quad_form A x + quad_form B x.
Proof. by rewrite /quad_form mulmxDr mulmxDl mxE. Qed.

Lemma quad_form_congruence m n (G : 'M[R]_(m, n)) (k : 'M[R]_m)
    (x : 'cV[R]_n) :
  quad_form (G^T *m k *m G) x = quad_form k (G *m x).
Proof. by rewrite /quad_form trmx_mul !mulmxA. Qed.

Lemma sel_pick (s : nat) (r : 'I_ndof) (f : 'I_6 -> R) :
  \sum_(a < 6) ((r : nat) == (s + a)%N)%:R * f a =
  if in_block 6 s r then f (inord (r - s)) else 0.
Proof.
case: ifP => [/andP[le_s lt_r]|out]; last first.
  rewrite big1 // => a _; case: eqP => [r_eq|_]; last by rewrite mul0r.
  by move: out; rewrite /in_block r_eq leq_addr ltn_add2l ltn_ord.
have lt6 : (r - s < 6)%N by rewrite ltn_subLR.
rewrite (bigD1 (inord (r - s))) //= inordK // subnKC // eqxx mul1r.
rewrite big1 ?addr0 // => a ne_a; case: eqP => [r_eq|_]; last by rewrite mul0r.
case/negP: ne_a; apply/eqP/val_inj; rewrite /= inordK //.
by rewrite r_eq addKn.
Qed.

Lemma slice_add_sel (K : 'M[R]_ndof) (r0 c0 : nat) (B : 'M[R]_6) :
  slice_add K r0 c0 B = K + (sel r0)^T *m B *m sel c0.
Proof.
apply/matrixP=> r c; rewrite [LHS]mxE [RHS]mxE; congr (_ + _).
rewrite mxE.
have pick_c b : ((sel r0)^T *m B) r b * (sel c0) b c =
                ((c : nat) == (c0 + b)%N)%:R * ((sel r0)^T *m B) r b.
  by rewrite [X in _ * X]mxE mulrC.
rewrite (eq_bigr _ (fun b _ => pick_c b)) sel_pick.
case in_c: (in_block 6 c0 c); last by rewrite andbF.
rewrite andbT mxE.
have pick_r a : (sel r0)^T r a * B a (inord (c - c0)) =
                ((r : nat) == (r0 + a)%N)%:R * B a (inord (c - c0)).
  by rewrite !mxE.
by rewrite (eq_bigr _ (fun a _ => pick_r a)) sel_pick.
Qed.

Lemma sel_mul (s : nat) (x : 'cV[R]_ndof) (a : 'I_6) :
  (sel s *m x) a 0 = vec_at x (s + a).
Proof.
rewrite mxE /vec_at.
under eq_bigr => r _ do rewrite mxE.
case: insubP => [r0 _ r0E|ge_n].
  rewrite (bigD1 r0) //= r0E eqxx mul1r big1 ?addr0 // => r ne_r.
  by rewrite -r0E (inj_eq val_inj) (negbTE ne_r) mul0r.
rewrite big1 // => r _; case: eqP => [r_eq|_]; last by rewrite mul0r.
by move: ge_n; rewrite -r_eq ltn_ord.
Qed.

Lemma gather_mul (x : 'cV[R]_ndof) (el : element R) :
  col_mx (sel ((node_indices el).1 * 6)) (sel ((node_indices el).2 * 6)) *m x
  = element_dofs x el.
Proof.
rewrite mul_col_mx /element_dofs; congr (col_mx _ _);
  by apply/colP=> a; rewrite sel_mul mxE.
Qed.

Lemma block_congruence (Gi Gj : 'M[R]_(6, ndof)) (kg : 'M[R]_(6 + 6)) :
  (col_mx Gi Gj)^T *m kg *m col_mx Gi Gj =
  Gi^T *m ulsubmx kg *m Gi + Gi^T *m ursubmx kg *m Gj
  + Gj^T *m dlsubmx kg *m Gi + Gj^T *m drsubmx kg *m Gj.
Proof.
rewrite -{1}(submxK kg) tr_col_mx mul_row_block mul_row_col !mulmxDl.
by rewrite !addrA; congr (_ + _); rewrite addrAC.
Qed.

Lemma stiffness_step_energy (K K' : 'M[R]_ndof) (el : element R)
    (x : 'cV[R]_ndof) :
  stiffness_step lib K el = Some K' ->
  quad_form K' x = quad_form K x + element_energy lib el x.
Proof.
rewrite /stiffness_step /element_energy /node_coords -gather_mul.
case: (node_indices el) => i j /=.
case: ifP => // _; case: ifP => // _ [<-].
rewrite !slice_add_sel -!addrA quad_formD; congr (_ + _).
rewrite !addrA -block_congruence quad_form_congruence.
exact: quad_form_congruence.
Qed.

Lemma quad_form0 n (x : 'cV[R]_n) : quad_form 0 x = 0.
Proof. by rewrite /quad_form mulmx0 mul0mx mxE. Qed.

Lemma build_stiffness_energy (K : 'M[R]_ndof) (x : 'cV[R]_ndof) :
  _build_stiffness lib 0 = Some K ->
  quad_form K x = \sum_(el <- elements dm) element_energy lib el x.
Proof.
rewrite /_build_stiffness => build.
suff: forall K0 : 'M[R]_ndof,
        foldM (@stiffness_step R lib dm) K0 (elements dm) = Some K ->
        quad_form K x =
        quad_form K0 x + \sum_(el <- elements dm) element_energy lib el x.
  by move/(_ 0 build); rewrite quad_form0 add0r.
elim: (elements dm) => [|el els IHels] K0 /=.
  by case=> <-; rewrite big_nil addr0.
case E: (stiffness_step _ _ _) => [K1|] // /IHels ->.
by rewrite (stiffness_step_energy x E) big_cons addrA.
Qed.

(** The quadratic form of the assembled stiffness matrix is the sum of the
    quadratic forms of the elements: for every global displacement vector
    [x], [x^T K x] is the sum over the elements of [y^T k_local y] with
    [y = T_total * (the DOFs of the two end nodes in x)]. *)
Theorem stiffness_energy_is_sum_of_elements (K : 'M[R]_ndof)
    (x : 'cV[R]_ndof) :
  _build_stiffness lib 0 = Some K ->
  quad_form K x = \sum_(el <- elements dm) element_energy lib el x.
Proof. exact: build_stiffness_energy. Qed.

Lemma element_k_local_psd (el : element R) :
  positive_semidefinite (raw_local_stiffness lib el) ->
  positive_semidefinite (element_k_local lib el).
Proof.
rewrite /element_k_local /raw_local_stiffness => psd_k.
by case: ifP => _ //; apply: condense_matrix_psd.
Qed.

Lemma build_stiffness_psd (K : 'M[R]_ndof) :
  psd_elements lib dm -> _build_stiffness lib 0 = Some K ->
  positive_semidefinite K.
Proof.
move=> psd_els build x; rewrite (build_stiffness_energy x build).
move: psd_els; rewrite /psd_elements.
elim: (elements dm) => [|el els IHels] /=; first by rewrite big_nil.
case=> psd_el /IHels sum_ge0; rewrite big_cons addr_ge0 //.
exact: element_k_local_psd.
Qed.

(** When the Element Model returns a positive semidefinite local stiffness
    matrix for every element and every element refers to existing nodes,
    the stiffness matrix [assemble_system] returns on a new assembler is
    positive semidefinite, with or without releases: [0 <= x^T K x] for
    every [x]. *)
Theorem assembled_stiffness_positive_semidefinite :
  psd_elements lib dm -> valid_node_indices dm ->
  exists2 st, assemble_system lib (GlobalAssembler_init dm) = Some st
            & positive_semidefinite (self_K st).
Proof.
move=> psd_els valid; rewrite /assemble_system /=.
have [K build] := build_stiffness_total lib (0 : 'M[R]_ndof) valid.
have [P' ->] := add_member_loads_total lib (0 + build_load_vector dm) valid.
by rewrite build; exists (Assembler K P') => //; apply: build_stiffness_psd.
Qed.

(** *** The mass matrix is positive semidefinite *)

Lemma all_prop_sum_ge0 (A : Type) (F : A -> R) (xs : seq A) :
  all_prop (fun x => 0 <= F x) xs -> 0 <= \sum_(x <- xs) F x.
Proof.
elim: xs => [|x xs IHxs] /=; first by rewrite big_nil.
by case=> F_ge0 /IHxs sum_ge0; rewrite big_cons addr_ge0.
Qed.

Lemma all_prop_impl (A : Type) (P Q : A -> Prop) (xs : seq A) :
  (forall x, P x -> Q x) -> all_prop P xs -> all_prop Q xs.
Proof.
move=> PQ; elim: xs => [|x xs IHxs] //=.
by case=> /PQ Qx /IHxs.
Qed.

Lemma node_block_mass_ge0 (k : nat) (x : R) (r c : nat) :
  0 <= x -> 0 <= node_block_mass k x r c.
Proof. by move=> x_ge0; rewrite /node_block_mass; case: ifP. Qed.

Lemma nonneg_self_mass (M M' : 'M[R]_ndof) :
  (forall r c, 0 <= mat_at M r c) ->
  all_prop (fun el => 0 <= element_mass el) (elements dm) ->
  _add_element_self_mass M = Some M' -> forall r c, 0 <= mat_at M' r c.
Proof.
move=> M_ge0 masses_ge0 build r c.
have valid : valid_node_indices dm.
  by rewrite -(add_element_self_mass_isSome M) build.
have [M1 M1E entries] := add_element_self_mass_entries M valid.
have <- : M1 = M' by move: M1E; rewrite build => -[].
rewrite entries; apply: addr_ge0 => //; apply: all_prop_sum_ge0.
apply: all_prop_impl masses_ge0 => el mass_ge0.
by apply: addr_ge0; apply: node_block_mass_ge0; rewrite divr_ge0 ?ler0n.
Qed.

Lemma nonneg_net_mass (F : 'cV[R]_ndof) (M M' : 'M[R]_ndof) :
  (forall r c, 0 <= mat_at M r c) ->
  convert_net_forces F M = Some M' -> forall r c, 0 <= mat_at M' r c.
Proof.
move=> M_ge0 build r c.
have [M1 M1E entries] := convert_net_forces_entries F M.
have <- : M1 = M' by move: M1E; rewrite build => -[].
rewrite entries; apply: addr_ge0 => //; apply: sumr_ge0 => k _.
exact/node_block_mass_ge0/node_net_mass_ge0.
Qed.

Lemma build_mass_matrix_nonneg (name : string)
    (st st' : GlobalMassAssembler dm) :
  (forall r c, 0 <= mat_at (self_M st) r c) ->
  all_prop (fun el => 0 <= element_mass el) (elements dm) ->
  build_mass_matrix lib name st = Some st' ->
  forall r c, 0 <= mat_at (self_M st') r c.
Proof.
move=> M_ge0 masses_ge0; rewrite /build_mass_matrix.
case: (_find_mass_source _ _) => [ms|]; last by case=> <-.
have M1_ge0 M1 :
  (if include_self_mass ms then _add_element_self_mass (self_M st)
   else Some (self_M st)) = Some M1 -> forall r c, 0 <= mat_at M1 r c.
  by case: ifP => _ => [/(nonneg_self_mass M_ge0 masses_ge0)|[<-]].
case: (if include_self_mass ms then _ else _) M1_ge0 => [M1|] M1_ge0;
  last by case: ifP.
have {}M1_ge0 := M1_ge0 M1 erefl.
case: ifP => _ /=; last by case=> <-.
rewrite /_add_mass_from_net_loads; case: ifP => _; first by case=> <-.
case: (net_nodal_forces _ _ _) => [F|] //.
by case E: (convert_net_forces _ _) => [M2|] // [<-]; apply: nonneg_net_mass E.
Qed.

Lemma mat_at_ord n (M : 'M[R]_n) (i j : 'I_n) : mat_at M i j = M i j.
Proof. by rewrite /mat_at !valK. Qed.

Lemma diagonal_psd n (M : 'M[R]_n) :
  (forall i j : 'I_n, i != j -> M i j = 0) -> (forall i, 0 <= M i i) ->
  positive_semidefinite M.
Proof.
move=> off M_ge0 x; rewrite /quad_form mxE; apply: sumr_ge0 => j _.
rewrite mxE (bigD1 j) //= big1 => [i ne_ij|]; first by rewrite off ?mulr0.
by rewrite addr0 [x^T _ _]mxE mulrAC -expr2 mulr_ge0 ?sqr_ge0 ?M_ge0.
Qed.

(** When the mass [A * (rho / g) * L_total] of every element is not
    negative, the mass matrix [build_mass_matrix] returns on a new assembler
    has no negative entry and is positive semidefinite. *)
Theorem mass_matrix_positive_semidefinite (name : string)
    (st : GlobalMassAssembler dm) :
  build_mass_matrix lib name (GlobalMassAssembler_init dm) = Some st ->
  all_prop (fun el => 0 <= element_mass el) (elements dm) ->
  (forall r c, 0 <= mat_at (self_M st) r c) /\
  positive_semidefinite (self_M st).
Proof.
move=> build masses_ge0.
have init_ge0 r c : 0 <= mat_at (self_M (GlobalMassAssembler_init dm)) r c.
  by rewrite mat_at0.
have M_ge0 := build_mass_matrix_nonneg init_ge0 masses_ge0 build.
have lumped_init : lumped_mass (self_M (GlobalMassAssembler_init dm)).
  exact: lumped_mass0.
have [off _] := build_mass_matrix_lumped lumped_init build.
split=> //; apply: diagonal_psd => [i j ne_ij|i]; last first.
  by rewrite -mat_at_ord.
rewrite -mat_at_ord; apply: off.
by rewrite /translational_diagonal (inj_eq val_inj) (negbTE ne_ij).
Qed.

(** *** Projected loads are never amplified *)

(** For a member whose total length is the distance between its end points
    and whose horizontal length is at least 1e-9, projecting a load in the
    Global frame scales it by a factor between 0 (excluded) and 1: the
    projected intensity is never larger than the given one. *)
Theorem projection_never_amplifies (w p1 p2 : 'cV[R]_3) (L_tot : R) :
  L_tot = end_point_distance p1 p2 ->
  1 / 10 ^+ 9 <= horizontal_length p1 p2 ->
  exists2 f : R,
    0 < f <= 1
    & (_apply_projection_factor w p1 p2 L_tot "Global").1 = f *: w.
Proof.
move=> -> le_h; have le_L := horizontal_le_distance p1 p2.
have Lh_gt0 : 0 < horizontal_length p1 p2.
  by apply: lt_le_trans le_h; rewrite divr_gt0 ?exprn_gt0 ?ltr0n.
have L_gt0 : 0 < end_point_distance p1 p2 by apply: lt_le_trans le_L.
exists (horizontal_length p1 p2 / end_point_distance p1 p2).
  by rewrite divr_gt0 //= ler_pdivrMr // mul1r.
rewrite projection_global ltNge le_h /= ltNge.
by rewrite (le_trans le_h le_L).
Qed.

End FurtherTheory.

(** ** More facts about the concrete models *)

Lemma demo_chain_valid : valid_node_indices demo_chain.
Proof. by []. Qed.

(** On the chain, the entry of a DOF of node 2 and a DOF of node 0. *)
Lemma stiffness_sparsity_witness :
  let r : 'I_(total_dofs demo_chain) := Ordinal (isT : (13 < 18)%N) in
  let c : 'I_(total_dofs demo_chain) := Ordinal (isT : (0 < 18)%N) in
  exists K : 'M[algR]_(total_dofs demo_chain),
    [/\ _build_stiffness demo_lib 0 = Some K,
        ~~ has (fun el => joins el (dof_node r) (dof_node c))
               (elements demo_chain)
      & K r c = 0].
Proof.
move=> r c.
have [K build] := build_stiffness_total demo_lib
                    (0 : 'M[algR]_(total_dofs demo_chain)) demo_chain_valid.
have apart : ~~ has (fun el => joins el (dof_node r) (dof_node c))
                    (elements demo_chain) by [].
exists K; split; [exact: build | exact: apart |].
exact: (stiffness_sparsity build apart).
Defined.

(** The chain with its two members and its two loads listed the other way
    round. *)
Lemma assembly_order_independent_witness :
  let els := [:: demo_member_between 8 1 2; demo_member_between 7 0 1] in
  let lds := [:: mid_point_load; down_load] in
  let K : 'M[algR]_(total_dofs demo_chain) := 0 in
  let P : 'cV[algR]_(total_dofs demo_chain) := 0 in
  let pats := [:: ("DEAD"%string, 1 : algR)] in
  [/\ Permutation.Permutation (elements demo_chain) els,
      Permutation.Permutation (raw_loads demo_chain) lds
    & [/\ @_build_stiffness _ demo_lib (set_elements demo_chain els) K
            = _build_stiffness demo_lib K,
          @_add_element_self_mass _ (set_elements demo_chain els) K
            = _add_element_self_mass K,
          @_add_member_loads _ demo_lib (set_loads demo_chain lds) P
            = _add_member_loads demo_lib P
        & net_nodal_forces demo_lib (set_loads demo_chain lds) pats
            = net_nodal_forces demo_lib demo_chain pats]].
Proof.
move=> els lds K P pats.
have perm_els : Permutation.Permutation (elements demo_chain) els.
  exact: Permutation.perm_swap.
have perm_lds : Permutation.Permutation (raw_loads demo_chain) lds.
  exact: Permutation.perm_swap.
split; [exact: perm_els | exact: perm_lds |].
exact: (assembly_order_independent demo_lib K K P pats perm_els perm_lds).
Defined.

Lemma ix_scalar (a : algR) (s : seq 'I_12) :
  uniq s -> ix_ (a%:M : 'M[algR]_12) s s = a%:M.
Proof.
move=> uniq_s; apply/matrixP=> i j; rewrite !mxE !(tnth_nth ord0) /=.
by rewrite nth_uniq.
Qed.

Lemma demo_released_block (rels : 6.-tuple bool * 6.-tuple bool) :
  ix_ (1%:M : 'M[algR]_12) (idx_cond rels) (idx_cond rels) \in unitmx.
Proof. by rewrite ix_scalar ?uniq_idx_cond // unitmx1. Qed.

(** The identity matrix condensed for the member hinged at its far end. *)
Lemma condensed_matrix_structure_witness :
  let rels := releases hinged_member in
  let k : 'M[algR]_12 := 1%:M in
  ix_ k (idx_cond rels) (idx_cond rels) \in unitmx /\
  (let kc := _condense_matrix k rels in
   let penalty := max_abs k * (1 / 10 ^+ 8) in
   [/\ ix_ kc (idx_kept rels) (idx_kept rels) =
         ix_ k (idx_kept rels) (idx_kept rels)
         - ix_ k (idx_kept rels) (idx_cond rels)
           *m invmx (ix_ k (idx_cond rels) (idx_cond rels))
           *m ix_ k (idx_cond rels) (idx_kept rels),
       forall r c : 'I_12,
         nth false (rel_vec rels) r || nth false (rel_vec rels) c ->
         r != c -> kc r c = 0,
       forall r : 'I_12, nth false (rel_vec rels) r ->
         kc r r = if (r : nat) \in rot_dofs then penalty else 0
     & 0 <= penalty]).
Proof.
move=> rels k; have unit_cc := demo_released_block rels.
split; first exact: unit_cc.
exact: (condensed_matrix_structure unit_cc).
Defined.

Lemma condensation_frees_released_dofs_witness :
  let rels := releases hinged_member in
  let k : 'M[algR]_12 := 1%:M in
  let u_k : 'cV[algR]_(size (idx_kept rels)) := const_mx 1 in
  ix_ k (idx_cond rels) (idx_cond rels) \in unitmx /\
  exists u : 'cV[algR]_12,
    [/\ take_idx u (idx_kept rels) = u_k,
        take_idx (k *m u) (idx_cond rels) = 0
      & take_idx (_condense_matrix k rels *m scatter_vec u_k) (idx_kept rels)
        = take_idx (k *m u) (idx_kept rels)].
Proof.
move=> rels k u_k; have unit_cc := demo_released_block rels.
split; first exact: unit_cc.
exact: (condensation_frees_released_dofs u_k unit_cc).
Defined.

(** A point load at a tenth of the length of a member whose rigid end zone
    covers its first quarter. *)
Lemma point_load_outside_clear_span_witness :
  let P0 : 'cV[algR]_(total_dofs demo_rigid) := 0 in
  let el := rigid_end_member in
  let dist_raw : algR := 1 / 10 * L_total el in
  [/\ valid_node_indices demo_rigid,
      body near_end_load = MemberPoint 7 1 "Gravity" "Global" (1 / 10) true,
      find_element demo_rigid 7 = Some el,
      (dist_raw < odflt 0 (end_off_i el))
      || (L_total el - odflt 0 (end_off_j el) < dist_raw)
    & member_load_step demo_lib P0 near_end_load = Some P0].
Proof.
move=> P0 el dist_raw.
have valid : valid_node_indices demo_rigid by [].
have is_point :
  body near_end_load = MemberPoint 7 1 "Gravity" "Global" (1 / 10) true by [].
have found : find_element demo_rigid 7 = Some el by [].
have outside : (dist_raw < odflt 0 (end_off_i el))
               || (L_total el - odflt 0 (end_off_j el) < dist_raw).
  by apply/orP; left; rewrite /dist_raw /=; lra.
split; [exact: valid | exact: is_point | exact: found | exact: outside |].
exact: (@point_load_outside_clear_span_is_dropped _ demo_lib demo_rigid P0
          near_end_load 7 1 "Gravity" "Global" (1 / 10) true el
          valid is_point found outside).
Defined.

(** The net forces of the model with one nodal load. *)
Lemma net_force_resultant_witness :
  let pats := [:: ("DEAD"%string, 1 : algR)] in
  [/\ net_nodal_forces demo_lib demo_loaded pats = Some demo_net_force,
      (2 < 3)%N
    & direction_force demo_net_force 2 =
      \sum_(ld <- raw_loads demo_loaded)
         vget (load_total_force demo_lib demo_loaded pats ld) 2].
Proof.
move=> pats.
have net : net_nodal_forces demo_lib demo_loaded pats = Some demo_net_force.
  by [].
have lt_d : (2 < 3)%N by [].
split; [exact: net | exact: lt_d |].
exact: (net_force_resultant net lt_d).
Defined.

Lemma demo_both_force_z (k : nat) :
  (k < 2)%N -> vec_at demo_both_force (k * 6 + 2) = - 10.
Proof.
move=> lt_k; rewrite /vec_at; case: insubP => [i _ i_eq|]; last first.
  by case: k lt_k => [|[|k]].
rewrite !mxE i_eq.
by case: k lt_k {i_eq} => [|[|k]] //= _;
   rewrite ?mul0r ?mulr1 ?addr0 ?add0r.
Qed.

(** The model with 10 downwards on each of its two nodes: the mass per
    direction is 20 / g. *)
Lemma pattern_mass_is_weight_over_g_witness :
  let pats := [:: ("DEAD"%string, 1 : algR)] in
  let F := demo_both_force in
  let M : 'M[algR]_(total_dofs demo_both_loaded) := 0 in
  exists M' : 'M[algR]_(total_dofs demo_both_loaded),
    [/\ net_nodal_forces demo_lib demo_both_loaded pats = Some F,
        _add_mass_from_net_loads demo_lib pats M = Some M',
        forall k, (k < size (nodes demo_both_loaded))%N ->
          vec_at F (k * 6 + 2) < - (1 / 10 ^+ 5),
        (0 < 3)%N
      & direction_mass M' 0 =
        direction_mass M 0
        - (\sum_(ld <- raw_loads demo_both_loaded)
             vget (load_total_force demo_lib demo_both_loaded pats ld) 2)
          / g algR].
Proof.
move=> pats F M.
have net : net_nodal_forces demo_lib demo_both_loaded pats = Some F by [].
have [M' M'_E _] := convert_net_forces_entries F M.
have build : _add_mass_from_net_loads demo_lib pats M = Some M'.
  by rewrite /_add_mass_from_net_loads net.
have heavy k : (k < size (nodes demo_both_loaded))%N ->
    vec_at F (k * 6 + 2) < - (1 / 10 ^+ 5).
  by move=> lt_k; rewrite demo_both_force_z //; clear; lra.
have lt_d : (0 < 3)%N by [].
exists M'; split; [exact: net | exact: build | exact: heavy | exact: lt_d |].
exact: (pattern_mass_is_weight_over_g net build heavy lt_d).
Defined.

(** The self-mass matrix of the two-node, one-member model. *)
Lemma mass_matrix_is_lumped_witness :
  exists st : GlobalMassAssembler demo_plain,
    build_mass_matrix demo_lib "Default" (GlobalMassAssembler_init demo_plain)
      = Some st /\
    [/\ forall r c, r != c -> mat_at (self_M st) r c = 0,
        forall k d, (3 <= d < 6)%N ->
          mat_at (self_M st) (k * 6 + d) (k * 6 + d) = 0
      & forall k d, (d < 3)%N ->
          mat_at (self_M st) (k * 6 + d) (k * 6 + d)
          = mat_at (self_M st) (k * 6) (k * 6)].
Proof.
have [M [M_E _ _ _]] := self_mass_from_zero demo_plain_valid.
have build :
  build_mass_matrix demo_lib "Default" (GlobalMassAssembler_init demo_plain)
    = Some (MassAssembler M).
  rewrite (@build_mass_matrix_self_only _ _ _ _
             (MassSource "MS1" true false [::])) //.
  by have -> : self_M (GlobalMassAssembler_init demo_plain) = 0 by []; rewrite M_E.
exists (MassAssembler M); split; first exact: build.
exact: (mass_matrix_is_lumped build).
Defined.

(** The chain under the displacement vector of ones. *)
Lemma stiffness_energy_witness :
  let x : 'cV[algR]_(total_dofs demo_chain) := const_mx 1 in
  exists K : 'M[algR]_(total_dofs demo_chain),
    _build_stiffness demo_lib 0 = Some K /\
    quad_form K x = \sum_(el <- elements demo_chain)
                      element_energy demo_lib el x.
Proof.
move=> x.
have [K build] := build_stiffness_total demo_lib
                    (0 : 'M[algR]_(total_dofs demo_chain)) demo_chain_valid.
exists K; split; first exact: build.
exact: (stiffness_energy_is_sum_of_elements x build).
Defined.

Lemma scalar_psd n (a : algR) :
  0 <= a -> positive_semidefinite (a%:M : 'M[algR]_n).
Proof.
move=> a_ge0 x; rewrite /quad_form mul_mx_scalar -scalemxAl mxE.
apply: mulr_ge0 => //; rewrite mxE; apply: sumr_ge0 => i _.
by rewrite mxE -expr2 sqr_ge0.
Qed.

Lemma demo_chain_psd : psd_elements demo_lib demo_chain.
Proof. by do 2![split; first exact: scalar_psd]. Qed.

Lemma assembled_stiffness_positive_semidefinite_witness :
  [/\ psd_elements demo_lib demo_chain, valid_node_indices demo_chain
    & exists2 st,
        assemble_system demo_lib (GlobalAssembler_init demo_chain) = Some st
        & positive_semidefinite (self_K st)].
Proof.
split; [exact: demo_chain_psd | exact: demo_chain_valid |].
exact: (assembled_stiffness_positive_semidefinite demo_chain_psd
          demo_chain_valid).
Defined.

Lemma link_K_mid (E a b : algR) :
  K_mid_of (local_stiffness link_lib (Material E 1 1) demo_section a a)
           (local_stiffness link_lib (Material E 1 1) demo_section b b)
  = (E + E)%:M.
Proof.
rewrite /K_mid_of /local_stiffness /= /link_stiffness.
by rewrite block_mxKdr block_mxKul -raddfD.
Qed.

Lemma link_mul (E : algR) (u : 'cV[algR]_(6 + 6)) :
  block_mx E%:M (- E)%:M (- E)%:M E%:M *m u =
  col_mx (E *: usubmx u - E *: dsubmx u) (E *: dsubmx u - E *: usubmx u).
Proof.
rewrite -{1}(vsubmxK u) mul_block_col !mul_scalar_mx !scaleNr.
by congr (col_mx _ _); rewrite addrC.
Qed.

Lemma link_equilibrated (E a : algR) (u : 'cV[algR]_12) :
  let k := local_stiffness link_lib (Material E 1 1) demo_section a a in
  sub3 (k *m u) 0 + sub3 (k *m u) 6 = 0.
Proof.
rewrite /local_stiffness /= /link_stiffness.
have -> := link_mul E (u : 'cV[algR]_(6 + 6)).
apply: vec3P; rewrite vgetD !vget_sub3 // vget0 add0n;
  rewrite vget_usubmx // vget_dsubmx // col_mxKu col_mxKd;
  rewrite !vgetD !vgetZ /vget !mxE; ring.
Qed.

(** A unit transverse load at mid-span of a member of length 2 of the link
    Element Model. *)
Lemma exact_fef_balances_point_load_witness :
  let mat := Material (1 : algR) 1 1 in
  let P_vec := demo_vec 0 1 0 in
  let k_left := local_stiffness link_lib mat demo_section 1 1 in
  let k_right := local_stiffness link_lib mat demo_section (2 - 1) (2 - 1) in
  let fef := _get_exact_fef_via_stiffness link_lib 2 1 P_vec mat demo_section in
  [/\ (2 : algR) != 0,
      K_mid_of k_left k_right \in unitmx,
      forall u, sub3 (k_left *m u) 0 + sub3 (k_left *m u) 6 = 0,
      forall u, sub3 (k_right *m u) 0 + sub3 (k_right *m u) 6 = 0
    & sub3 fef 0 + sub3 fef 6 = - P_vec].
Proof.
move=> mat P_vec k_left k_right fef.
have L_neq0 : (2 : algR) != 0 by apply/eqP; lra.
have unit_K : K_mid_of k_left k_right \in unitmx.
  rewrite link_K_mid unitmxE det_scalar.
  by rewrite unitrX // unitfE; apply/eqP; lra.
have eq_left u : sub3 (k_left *m u) 0 + sub3 (k_left *m u) 6 = 0.
  exact: link_equilibrated.
have eq_right u : sub3 (k_right *m u) 0 + sub3 (k_right *m u) 6 = 0.
  exact: link_equilibrated.
split; [exact: L_neq0 | exact: unit_K | exact: eq_left | exact: eq_right |].
exact: (@exact_fef_balances_point_load _ link_lib 2 1 P_vec mat demo_section
          L_neq0 unit_K eq_left eq_right).
Defined.

(** The point load of the chain acts on member 7, between nodes 0 and 1;
    DOF 13 belongs to node 2. *)
Lemma member_load_locality_witness :
  let P0 : 'cV[algR]_(total_dofs demo_chain) := 0 in
  let el := demo_member_between 7 0 1 in
  let r : 'I_(total_dofs demo_chain) := Ordinal (isT : (13 < 18)%N) in
  exists P' : 'cV[algR]_(total_dofs demo_chain),
    [/\ load_element_id (body mid_point_load) = Some 7%N,
        find_element demo_chain 7 = Some el,
        member_load_step demo_lib P0 mid_point_load = Some P',
        dof_node r != (node_indices el).1 /\
        dof_node r != (node_indices el).2
      & P' r 0 = P0 r 0].
Proof.
move=> P0 el r.
have has_id : load_element_id (body mid_point_load) = Some 7%N by [].
have found : find_element demo_chain 7 = Some el by [].
have [P' step] := member_load_step_total demo_lib P0 mid_point_load
                    demo_chain_valid.
have not_i : dof_node r != (node_indices el).1 by [].
have not_j : dof_node r != (node_indices el).2 by [].
exists P'; split; [exact: has_id | exact: found | exact: step | by split |].
exact: (member_load_locality has_id found step not_i not_j).
Defined.

Lemma gravity_direction_witness :
  let dir := ("Local-" ++ "gravity" ++ "-X")%string in
  upper "gravity" = "GRAVITY"%string /\
  (_parse_load_direction algR dir = Some (2%N, -1) /\
   forall eid force coord dist is_rel scale el p1 p2,
     member_fef_local demo_lib (MemberPoint eid force dir coord dist is_rel)
       scale el p1 p2 =
     member_fef_local demo_lib
       (MemberPoint eid force dir "Global" dist is_rel) scale el p1 p2).
Proof.
move=> dir; have is_gravity : upper "gravity" = "GRAVITY"%string by [].
split; first exact: is_gravity.
exact: (@gravity_direction _ demo_lib "Local-" "gravity" "-X" is_gravity).
Defined.

Lemma demo_plain_masses :
  all_prop (fun el => 0 <= element_mass el) (elements demo_plain).
Proof.
split=> //; rewrite /element_mass /= /g.
by rewrite mul1r mulr1 divr_ge0 ?ler01 // divr_ge0 ?ler0n.
Qed.

Lemma mass_matrix_positive_semidefinite_witness :
  exists st : GlobalMassAssembler demo_plain,
    [/\ build_mass_matrix demo_lib "Default"
          (GlobalMassAssembler_init demo_plain) = Some st,
        all_prop (fun el => 0 <= element_mass el) (elements demo_plain)
      & (forall r c, 0 <= mat_at (self_M st) r c) /\
        positive_semidefinite (self_M st)].
Proof.
have [M [M_E _ _ _]] := self_mass_from_zero demo_plain_valid.
have build :
  build_mass_matrix demo_lib "Default" (GlobalMassAssembler_init demo_plain)
    = Some (MassAssembler M).
  rewrite (@build_mass_matrix_self_only _ _ _ _
             (MassSource "MS1" true false [::])) //.
  by have -> : self_M (GlobalMassAssembler_init demo_plain) = 0 by []; rewrite M_E.
exists (MassAssembler M).
split; [exact: build | exact: demo_plain_masses |].
exact: (mass_matrix_positive_semidefinite build demo_plain_masses).
Defined.

(** A member rising 4 over a horizontal run of 3: the factor is 3/5. *)
Lemma projection_never_amplifies_witness :
  let w := demo_vec 0 0 (- 7) in
  let p1 := demo_vec 0 0 0 in
  let p2 := demo_vec 3 0 4 in
  [/\ (5 : algR) = end_point_distance p1 p2,
      1 / 10 ^+ 9 <= horizontal_length p1 p2
    & exists2 f : algR,
        0 < f <= 1
        & (_apply_projection_factor w p1 p2 5 "Global").1 = f *: w].
Proof.
move=> w p1 p2.
have [o0 o1 o2] := demo_vecE 0 0 0; have [e0 e1 e2] := demo_vecE 3 0 4.
have Lh : horizontal_length p1 p2 = 3.
  rewrite /horizontal_length e0 e1 o0 o1 !subr0 expr0n addr0 sqrtr_sqr.
  by rewrite ger0_norm ?ler0n.
have L5 : (5 : algR) = end_point_distance p1 p2.
  rewrite /end_point_distance e0 e1 e2 o0 o1 o2 !subr0.
  have -> : (3 : algR) ^+ 2 + 0 ^+ 2 + 4 ^+ 2 = 5 ^+ 2 by ring.
  by rewrite sqrtr_sqr ger0_norm ?ler0n.
have le_h : 1 / 10 ^+ 9 <= horizontal_length p1 p2 by rewrite Lh; lra.
split; [exact: L5 | exact: le_h |].
exact: (projection_never_amplifies w L5 le_h).
Defined.

(** ** The two-segment solve on the concrete Element Models *)

Lemma singular_kernel n (A : 'M[algR]_n) (z : 'cV[algR]_n) :
  A *m z = 0 -> z != 0 -> A \notin unitmx.
Proof.
move=> Az z_neq0; apply: contra z_neq0 => unitA.
by rewrite -(mulKmx unitA z) Az mulmx0.
Qed.

Lemma truss_K_mid (E a b : algR) :
  K_mid_of (local_stiffness truss_lib (Material E 1 1) demo_section a a)
           (local_stiffness truss_lib (Material E 1 1) demo_section b b)
  = (E + E) *: translational_block.
Proof.
rewrite /K_mid_of /local_stiffness /= /truss_stiffness.
by rewrite block_mxKdr block_mxKul scalerDl.
Qed.

Lemma translational_block_mul (u : 'cV[algR]_3) (v : 'cV[algR]_3) :
  translational_block *m (col_mx u v : 'cV[algR]_(3 + 3)) = col_mx u 0.
Proof.
have -> : translational_block *m (col_mx u v : 'cV[algR]_(3 + 3))
          = (block_mx 1%:M 0 0 0 : 'M[algR]_(3 + 3)) *m col_mx u v by [].
by rewrite mul_block_col !mul0mx mul1mx !addr0.
Qed.

Lemma translational_block_scale (c : algR) (u v : 'cV[algR]_3) :
  (c *: translational_block) *m (col_mx u v : 'cV[algR]_(3 + 3))
  = (col_mx (c *: u) 0 : 'cV[algR]_(3 + 3)).
Proof.
rewrite -scalemxAl translational_block_mul.
by have := scale_col_mx c u (0 : 'cV[algR]_3); rewrite scaler0.
Qed.

Lemma demo_vec_double (y : algR) :
  demo_vec 0 y 0 + demo_vec 0 y 0 = demo_vec 0 (y + y) 0.
Proof.
have [a0 a1 a2] := demo_vecE 0 y 0; have [b0 b1 b2] := demo_vecE 0 (y + y) 0.
by apply: vec3P; rewrite vgetD ?a0 ?a1 ?a2 ?b0 ?b1 ?b2 ?addr0.
Qed.

Lemma demo_vec_neq0 (x y z : algR) : x != 0 -> demo_vec x y z != 0.
Proof.
move=> x_neq0; apply: contra_neq x_neq0 => /(congr1 (fun v => vget v 0)).
by have [-> _ _] := demo_vecE x y z; rewrite vget0.
Qed.

Lemma truss_K_mid_singular (E a b : algR) :
  K_mid_of (local_stiffness truss_lib (Material E 1 1) demo_section a a)
           (local_stiffness truss_lib (Material E 1 1) demo_section b b)
    \notin unitmx.
Proof.
rewrite truss_K_mid.
pose z : 'cV[algR]_(3 + 3) := col_mx 0 (demo_vec 1 0 0).
apply: (@singular_kernel _ _ (z : 'cV[algR]_6)).
  by rewrite translational_block_scale scaler0 col_mx0.
apply: contra_neq (demo_vec_neq0 0 0 (oner_neq0 _)) => z0.
by rewrite -[LHS](col_mxKd (0 : 'cV[algR]_3) (demo_vec 1 0 0)) -/z z0 linear0.
Qed.

(** Claim C3 as stated fails when the mid system is singular but solvable.
    For the Element Model of translational springs, a member of clear
    length 2 and a unit transverse load at [a = 1]: [K_mid] is
    [2 diag(1,1,1,0,0,0)], [u_mid = (0, 1/2, 0, 0, 0, 0)] solves
    [K_mid u_mid = F_mid], and the returned vector is zero, not the product
    of the coupling block with [u_mid]. *)
Lemma exact_fef_singular_counterexample :
  let mat := Material (1 : algR) 1 1 in
  let P_vec := demo_vec 0 1 0 in
  let k_left : 'M[algR]_(6 + 6) :=
    local_stiffness truss_lib mat demo_section 1 1 in
  let k_right : 'M[algR]_(6 + 6) :=
    local_stiffness truss_lib mat demo_section (2 - 1) (2 - 1) in
  let K_mid : 'M[algR]_6 := drsubmx k_left + ulsubmx k_right in
  let F_mid : 'cV[algR]_(3 + 3) := col_mx P_vec 0 in
  let fef : 'cV[algR]_(6 + 6) :=
    _get_exact_fef_via_stiffness truss_lib 2 1 P_vec mat demo_section in
  let u_mid : 'cV[algR]_(3 + 3) := col_mx (demo_vec 0 (1 / 2) 0) 0 in
  [/\ 0 < (1 : algR) < 2,
      K_mid *m u_mid = F_mid,
      fef = 0
    & usubmx fef <> ursubmx k_left *m u_mid].
Proof.
move=> mat P_vec k_left k_right K_mid F_mid fef u_mid.
have lt_a : 0 < (1 : algR) < 2 by apply/andP; split; lra.
have half2 : (1 / 2 + 1 / 2 : algR) = 1 by field.
have solves : K_mid *m u_mid = F_mid.
  rewrite /K_mid -/(K_mid_of k_left k_right) truss_K_mid.
  rewrite translational_block_scale.
  by rewrite scalerDl scale1r demo_vec_double half2.
have fef0 : fef = 0.
  by apply: exact_fef_degenerate; right; apply: truss_K_mid_singular.
split=> //; rewrite fef0 linear0 /k_left /local_stiffness /= /truss_stiffness.
rewrite block_mxKur translational_block_scale.
move/(congr1 (fun v : 'cV[algR]_(3 + 3) => vget (usubmx v) 1)).
rewrite col_mxKu linear0 vget0 vgetZ; have [_ -> _] := demo_vecE 0 (1 / 2) 0.
by move=> eq0; clear -eq0; lra.
Qed.

(** Claim C3 (as the code has it) on an input: a unit transverse load at
    [a = 1] on a member of clear length [L = 2] of the link Element Model.
    [K_mid] is twice the identity, the solve succeeds, and the transverse
    end forces are [-1/2] at both ends. *)
Lemma exact_fef_witness :
  let mat := Material (1 : algR) 1 1 in
  let P_vec := demo_vec 0 1 0 in
  let k_left : 'M[algR]_(6 + 6) :=
    local_stiffness link_lib mat demo_section 1 1 in
  let k_right : 'M[algR]_(6 + 6) :=
    local_stiffness link_lib mat demo_section (2 - 1) (2 - 1) in
  let K_mid : 'M[algR]_6 := drsubmx k_left + ulsubmx k_right in
  let F_mid : 'cV[algR]_(3 + 3) := col_mx P_vec 0 in
  let fef : 'cV[algR]_(6 + 6) :=
    _get_exact_fef_via_stiffness link_lib 2 1 P_vec mat demo_section in
  [/\ 0 < (1 : algR) < 2,
      K_mid \in unitmx,
      (K_mid \in unitmx ->
       exists u_mid : 'cV[algR]_6,
         [/\ K_mid *m u_mid = F_mid,
             forall u, K_mid *m u = F_mid -> u = u_mid,
             usubmx fef = ursubmx k_left *m u_mid
           & dsubmx fef = dlsubmx k_right *m u_mid]) /\
      (K_mid \notin unitmx -> fef = 0)
    & vget (usubmx fef) 1 = - (1 / 2) /\ vget (dsubmx fef) 1 = - (1 / 2)].
Proof.
move=> mat P_vec k_left k_right K_mid F_mid fef.
have lt_a : 0 < (1 : algR) < 2 by apply/andP; split; lra.
have K_midE : K_mid = (1 + 1)%:M.
  by rewrite /K_mid -/(K_mid_of k_left k_right) link_K_mid.
have unit_K : K_mid \in unitmx.
  rewrite K_midE unitmxE det_scalar.
  by rewrite unitrX // unitfE; apply/eqP; lra.
have res := @exact_fef_two_segment_solution _ link_lib 2 1 P_vec mat
              demo_section lt_a.
split; [exact: lt_a | exact: unit_K | exact: res |].
have [u_mid [solves _ startE endE]] := proj1 res unit_K.
have F_mid1 : vget (F_mid : 'cV[algR]_6) 1 = 1.
  have [_ <- _] := demo_vecE 0 1 0.
  rewrite -[demo_vec 0 1 0 in RHS](col_mxKu P_vec (0 : 'cV[algR]_3)) -/F_mid.
  rewrite /vget [in RHS]mxE; congr (F_mid _ _); apply: val_inj.
  by rewrite /= !inordK.
have u1 : vget u_mid 1 = 1 / 2.
  move/(congr1 (fun v : 'cV[algR]_6 => vget v 1)): solves.
  rewrite -/K_mid -/F_mid F_mid1 K_midE mul_scalar_mx vgetZ => eq_u.
  by clear -eq_u; lra.
rewrite startE endE /k_left /k_right /local_stiffness /= /link_stiffness.
rewrite block_mxKur block_mxKdl mul_scalar_mx vgetZ u1.
by split; lra.
Defined.

(** Claim C8 on two inputs: a member rising 3 over a horizontal run of 4,
    of total length 5, where the factor is 4/5; and a horizontal member of
    length 4, where the factor is 1. *)
Lemma projection_factor_witness :
  let w := demo_vec 0 0 (- 7) in
  let p1 := demo_vec 0 0 0 in
  let p2 := demo_vec 4 0 3 in
  let q2 := demo_vec 4 0 0 in
  let Lh := horizontal_length p1 p2 in
  let eps : algR := 1 / 10 ^+ 9 in
  let global := _apply_projection_factor w p1 p2 5 "Global" in
  [/\ (5 : algR) = end_point_distance p1 p2,
      Lh = 4
    & [/\ _apply_projection_factor w p1 p2 5 "Local"
            = (w, WarnProjectionNotGlobal)
          /\ (forall coord, coord <> "Global"%string ->
                _apply_projection_factor w p1 p2 5 coord
                  = (w, WarnProjectionNotGlobal)),
          Lh < eps -> global = (0, WarnVerticalMember),
          eps <= Lh -> global = ((Lh / 5) *: w, InfoProjectedLoad)
        & vget p1 2 = vget p2 2 ->
          [/\ Lh = 5, Lh != 0 -> Lh / 5 = 1
             & eps <= Lh -> global = (w, InfoProjectedLoad)]]] /\
  [/\ (4 : algR) = end_point_distance p1 q2,
      vget p1 2 = vget q2 2,
      eps <= horizontal_length p1 q2,
      horizontal_length p1 q2 / 4 = 1
    & _apply_projection_factor w p1 q2 4 "Global" = (w, InfoProjectedLoad)].
Proof.
move=> w p1 p2 q2 Lh eps global.
have [o0 o1 o2] := demo_vecE 0 0 0; have [e0 e1 e2] := demo_vecE 4 0 3.
have Lh4 : Lh = 4.
  rewrite /Lh /horizontal_length e0 e1 o0 o1 !subr0 expr0n addr0 sqrtr_sqr.
  by rewrite ger0_norm ?ler0n.
have L5 : (5 : algR) = end_point_distance p1 p2.
  rewrite /end_point_distance e0 e1 e2 o0 o1 o2 !subr0.
  have -> : (4 : algR) ^+ 2 + 0 ^+ 2 + 3 ^+ 2 = 5 ^+ 2 by ring.
  by rewrite sqrtr_sqr ger0_norm ?ler0n.
have Lq : horizontal_length p1 q2 = 4 by apply: demo_horizontal_length; lra.
have eq_z : vget p1 2 = vget q2 2 by have [_ _ ->] := demo_vecE 4 0 0.
have L4 : (4 : algR) = end_point_distance p1 q2.
  by rewrite horizontal_member_length.
have le_q : eps <= horizontal_length p1 q2 by rewrite Lq /eps; lra.
have neq_q : horizontal_length p1 q2 != 0 by rewrite Lq; apply/eqP; lra.
split.
  split; [exact: L5 | exact: Lh4 |].
  exact: (projection_factor_cases w L5).
have [_ _ _ horizontal] := projection_factor_cases w L4.
have [_ factor1 unchanged] := horizontal eq_z.
split; [exact: L4 | exact: eq_z | exact: le_q | exact: factor1 | ].
exact: unchanged.
Defined.

(** On the two-node model, whose only mass source is "MS1" and whose member
    has mass, the name "Wind" gives the zero matrix. *)
Lemma unresolved_mass_source_witness :
  let fresh := GlobalMassAssembler_init demo_plain in
  [/\ ~~ has (String.eqb^~ "Wind"%string)
           (registered_names (mass_sources demo_plain)),
      "Wind"%string = "Default"%string ->
        nilp (sources_of (mass_sources demo_plain))
    & build_mass_matrix demo_lib "Wind" fresh = Some fresh /\
      build_mass_matrix demo_lib "Wind" (GlobalMassAssembler_init demo_plain)
        = Some (MassAssembler 0)].
Proof.
move=> fresh.
have unreg : ~~ has (String.eqb^~ "Wind"%string)
                  (registered_names (mass_sources demo_plain)) by [].
have dflt : "Wind"%string = "Default"%string ->
            nilp (sources_of (mass_sources demo_plain)) by [].
split; [exact: unreg | exact: dflt |].
exact: (unresolved_mass_source demo_lib fresh unreg dflt).
Defined.

(** ** Checks on small inputs *)

Example upper_gravity : upper "Gravity z" = "GRAVITY Z"%string.
Proof. by []. Qed.

Example parse_direction_examples :
  [/\ _parse_load_direction algR "gravity" = Some (2%N, -1),
      _parse_load_direction algR "Local-2" = Some (1%N, 1),
      _parse_load_direction algR "x3" = Some (0%N, 1)
    & _parse_load_direction algR "down" = None].
Proof. by []. Qed.

Example range_step_dofs : range_step 2 12 6 = [:: 2; 8]%N.
Proof. by []. Qed.

Example active_scale_last_wins :
  active_scale [:: ("DEAD"%string, 1 : algR); ("LIVE"%string, 2);
                   ("DEAD"%string, 3)] "DEAD" = Some 3.
Proof. by []. Qed.

Example find_default_source :
  omap (@ms_name algR) (_find_mass_source demo_plain "Default") = Some "MS1"%string.
Proof. by []. Qed.

Example idx_cond_hinged :
  map (@nat_of_ord 12) (idx_cond (releases hinged_member)) = [:: 11]%N.
Proof.
rewrite /idx_cond.
rewrite -(filter_map (@nat_of_ord 12)
            (fun i => nth false (rel_vec (releases hinged_member)) i)).
by rewrite val_enum_ord.
Qed.

(** The conversion on the loaded model: node 1 carries 10 / g, node 0
    nothing. *)
Example loaded_node_mass :
  exists2 M' : 'M[algR]_(total_dofs demo_loaded),
    _add_mass_from_net_loads demo_lib [:: ("DEAD"%string, 1)] 0 = Some M'
    & mat_at M' 8 8 = 10 / (980665%:R / 100000%:R) /\ mat_at M' 2 2 = 0.
Proof.
have [M' M'_E _] := convert_net_forces_entries demo_net_force 0.
have net : net_nodal_forces demo_lib demo_loaded [:: ("DEAD"%string, 1)]
             = Some demo_net_force by [].
exists M'; first by rewrite /_add_mass_from_net_loads net.
have Fz k : vec_at demo_net_force (k * 6 + 2) = if k == 1%N then - 10 else 0.
  rewrite /vec_at; case: insubP => [i _ i_eq|]; last first.
    by case: k => [|[|k]].
  rewrite !mxE i_eq.
  by case: k {i_eq} => [|[|k]] //=; rewrite ?mul0r ?mulr1 ?addr0 ?add0r.
have mass1 : node_net_mass demo_net_force 1 = 10 / (980665%:R / 100000%:R).
  rewrite /node_net_mass Fz /= normrN ger0_norm ?ler0n //.
  by have -> : - (10 : algR) < - (1 / 10 ^+ 5) by clear; lra.
have mass0 : node_net_mass demo_net_force 0 = 0.
  by rewrite /node_net_mass Fz /= ltNge; have -> : - (1 / 10 ^+ 5) <= (0 : algR) by clear; lra.
split.
  by rewrite (@convert_net_forces_node _ _ _ 0 M' 1 2 M'_E) // mat_at0 add0r.
by rewrite (@convert_net_forces_node _ _ _ 0 M' 0 2 M'_E) // mat_at0 add0r.
Qed.

(** A point load placed by an absolute distance on a member of zero total
    length: the division of line 144 of mass_assembler.py raises. *)
Example zero_length_point_load_raises :
  let pats : seq (string * algR) := [:: ("DEAD"%string, 1)] in
  [/\ find_element demo_zero_length 7 = Some zero_length_member,
      valid_element demo_zero_length zero_length_member,
      net_load_ok demo_zero_length pats absolute_point_load = false,
      net_nodal_forces demo_lib demo_zero_length pats = None
    & _add_mass_from_net_loads demo_lib pats
        (0 : 'M[algR]_(total_dofs demo_zero_length)) = None].
Proof.
move=> pats.
have found : find_element demo_zero_length 7 = Some zero_length_member by [].
have net : net_nodal_forces demo_lib demo_zero_length pats = None.
  rewrite /net_nodal_forces.
  have -> : raw_loads demo_zero_length = [:: absolute_point_load] by [].
  by rewrite /foldM /net_load_step /absolute_point_load /= eqxx.
split=> //; first by rewrite /net_load_ok /absolute_point_load /= eqxx.
by rewrite /_add_mass_from_net_loads /= net.
Qed.
